(** * live-collab-editor: the AI service and the sync handler

    A shallow embedding of [src/services/aiService.js] (provider
    selection, the chat and edit entry points, the offline text
    transformations) and of the WebSocket handler and edit handlers of
    [src/App.js], with the properties the specification states about
    them; further, of what the preview modal, the chat sidebar, the
    export dialog and the download utilities compute from texts.

    JavaScript strings are sequences of UTF-16 code units; a code unit
    is a number [N] here.  Regular expressions are embedded as a small
    syntax tree with a backtracking matcher that follows the ECMAScript
    matching rules for the constructs the source uses. *)

From Stdlib Require Import String Ascii DecimalString.
From Stdlib Require Import NArith Bool Arith Lia List.
Import ListNotations.

Set Implicit Arguments.

Local Open Scope char_scope.

(** ** Strings *)

Abbreviation char := N (only parsing).
Abbreviation jstr := (list N) (only parsing).

(** A literal of the source, as code units (ASCII literals only). *)
Definition js (s : string) : jstr := map N_of_ascii (list_ascii_of_string s).

(** A character of a pattern, as a code unit. *)
Definition chr (a : ascii) : char := N_of_ascii a.

Definition LF : char := 10%N.
Definition SPACE : char := 32%N.
Definition BULLET : char := 8226%N.

Definition in_range (lo hi c : N) : bool := (N.leb lo c && N.leb c hi)%bool.

(** [\w] without the unicode flag: [A-Za-z0-9_]. *)
Definition is_word (c : char) : bool :=
  in_range 48 57 c || in_range 65 90 c || N.eqb c 95 || in_range 97 122 c.

(** LineTerminator: LF, CR, LS, PS. *)
Definition is_line_term (c : char) : bool :=
  N.eqb c 10 || N.eqb c 13 || N.eqb c 8232 || N.eqb c 8233.

(** [\s], and the characters [trim] strips: WhiteSpace and LineTerminator. *)
Definition is_space (c : char) : bool :=
  in_range 9 13 c || N.eqb c 32 || N.eqb c 160 || N.eqb c 5760
  || in_range 8192 8202 c || N.eqb c 8232 || N.eqb c 8233 || N.eqb c 8239
  || N.eqb c 8287 || N.eqb c 12288 || N.eqb c 65279.

(** [[.!?]], the sentence terminators. *)
Definition is_term (c : char) : bool :=
  N.eqb c 46 || N.eqb c 33 || N.eqb c 63.

Definition is_lower_az (c : char) : bool := in_range 97 122 c.
Definition is_upper_AZ (c : char) : bool := in_range 65 90 c.

(** Canonicalize of a case-insensitive match without the unicode flag.
    A code unit outside ASCII never canonicalizes to an ASCII one, so
    against the ASCII literals of the source only [a-z] fold. *)
Definition canon (c : char) : char :=
  if is_lower_az c then (c - 32)%N else c.

Definition lower_char (c : char) : char :=
  if is_upper_AZ c then (c + 32)%N else c.

Definition upper_char (c : char) : char := canon c.

Definition is_ascii (c : char) : bool := N.ltb c 128.

Fixpoint jstr_eqb (a b : jstr) : bool :=
  match a, b with
  | [], [] => true
  | x :: a', y :: b' => N.eqb x y && jstr_eqb a' b'
  | _, _ => false
  end.

(** The host: what the JavaScript engine supplies and this repository
    does not define. *)
Record Host := {
  (** [String.prototype.toLowerCase] on a string with a code unit
      outside ASCII (the engine's Unicode tables). *)
  unicodeLower : jstr -> jstr;
  (** The text a replace callback's result turns into when a table
      lookup [table[key]] finds [key] on [Object.prototype] rather than
      in the table ([None]: not found there either). *)
  inheritedText : jstr -> option jstr
}.

(** [s.toLowerCase()]. *)
Definition toLowerCase (h : Host) (s : jstr) : jstr :=
  if forallb is_ascii s then map lower_char s else unicodeLower h s.

(** [s.toUpperCase()] for a string of ASCII code units (the source
    applies it to a capture of [[a-z]] only). *)
Definition toUpperCase_ascii (s : jstr) : jstr := map upper_char s.

Fixpoint dropWhile (p : char -> bool) (s : jstr) : jstr :=
  match s with
  | [] => []
  | c :: s' => if p c then dropWhile p s' else s
  end.

Fixpoint takeWhile (p : char -> bool) (s : jstr) : jstr :=
  match s with
  | [] => []
  | c :: s' => if p c then c :: takeWhile p s' else []
  end.

(** [s.trim()]. *)
Definition trim (s : jstr) : jstr :=
  rev (dropWhile is_space (rev (dropWhile is_space s))).

Fixpoint starts_with (needle s : jstr) : bool :=
  match needle, s with
  | [], _ => true
  | x :: n', y :: s' => N.eqb x y && starts_with n' s'
  | _ :: _, [] => false
  end.

(** [s.includes(needle)]. *)
Fixpoint includes (s needle : jstr) : bool :=
  starts_with needle s ||
  match s with
  | [] => false
  | _ :: s' => includes s' needle
  end.

(** [parts.join(sep)]. *)
Fixpoint join (sep : jstr) (parts : list jstr) : jstr :=
  match parts with
  | [] => []
  | [p] => p
  | p :: rest => p ++ sep ++ join sep rest
  end.

(** The value of a parameter declared with the default [''], the
    argument being omitted or [undefined] ([None]) or given. *)
Definition default_empty (arg : option jstr) : jstr :=
  match arg with
  | Some v => v
  | None => []
  end.

(** A truthy string: defined and not empty. *)
Definition truthy (v : option jstr) : bool :=
  match v with
  | Some (_ :: _) => true
  | _ => false
  end.

(** Decimal text of a number, as a template literal prints it. *)
Definition dec (n : nat) : jstr := js (NilEmpty.string_of_uint (Nat.to_uint n)).

(** ** Regular expressions *)

Inductive regex : Type :=
| Eps
| Lit (c : char)                 (* a pattern character *)
| Cls (p : char -> bool)         (* a class or escape: [...], \s, \w, . *)
| Seq (r1 r2 : regex)
| Alt (r1 r2 : regex)            (* r1|r2, r1 tried first *)
| Star (r : regex)               (* r*, greedy *)
| Grp (n : nat) (r : regex)      (* the n-th capturing group *)
| Bnd                            (* \b *)
| Bol                            (* ^ *)
| Eol.                           (* $ *)

Record flags := { ignoreCase : bool; multiline : bool }.

Definition fl_g : flags := {| ignoreCase := false; multiline := false |}.
Definition fl_gi : flags := {| ignoreCase := true; multiline := false |}.
Definition fl_gm : flags := {| ignoreCase := false; multiline := true |}.

Definition Plus (r : regex) : regex := Seq r (Star r).
Definition Opt (r : regex) : regex := Alt r Eps.
Definition lits (s : jstr) : regex := fold_right (fun c r => Seq (Lit c) r) Eps s.
Definition text (s : string) : regex := lits (js s).
Definition dot : regex := Cls (fun c => negb (is_line_term c)).

(** A match in progress: the code unit before the current position (if
    any), the input from the current position on, and the captures. *)
Record mstate := {
  before : option char;
  rest : jstr;
  caps : list (nat * jstr)
}.

Definition is_word_opt (c : option char) : bool :=
  match c with
  | Some x => is_word x
  | None => false
  end.

Definition char_eq (fl : flags) (a b : char) : bool :=
  if ignoreCase fl then N.eqb (canon a) (canon b) else N.eqb a b.

Definition step (c : char) (s' : jstr) (st : mstate) : mstate :=
  {| before := Some c; rest := s'; caps := caps st |}.

Definition set_cap (n : nat) (from to : mstate) : mstate :=
  {| before := before to;
     rest := rest to;
     caps := (n, firstn (length (rest from) - length (rest to)) (rest from)) :: caps to |}.

(** The iterations of [r*] from [st0] on, greedy: one more pass of the
    body when it succeeds, the continuation otherwise.  A pass that
    consumes nothing is refused, as the standard has it; [n] bounds the
    number of passes by the length of the input left. *)
Fixpoint star_loop (A : Type)
    (body : mstate -> (mstate -> option A) -> option A)
    (k : mstate -> option A) (n : nat) (st0 : mstate) {struct n} : option A :=
  match n with
  | O => k st0
  | S n' =>
      match body st0
              (fun st1 =>
                 if Nat.ltb (length (rest st1)) (length (rest st0))
                 then star_loop body k n' st1 else None) with
      | Some a => Some a
      | None => k st0
      end
  end.

(** The backtracking matcher, in continuation style: [rmatch fl r st k]
    matches [r] at [st] and hands every way of doing so, in priority
    order, to [k] until one succeeds. *)
Fixpoint rmatch (A : Type) (fl : flags) (r : regex) (st : mstate)
    (k : mstate -> option A) {struct r} : option A :=
  match r with
  | Eps => k st
  | Lit c =>
      match rest st with
      | x :: s' => if char_eq fl c x then k (step x s' st) else None
      | [] => None
      end
  | Cls p =>
      match rest st with
      | x :: s' => if p x then k (step x s' st) else None
      | [] => None
      end
  | Seq r1 r2 => rmatch fl r1 st (fun st1 => rmatch fl r2 st1 k)
  | Alt r1 r2 =>
      match rmatch fl r1 st k with
      | Some a => Some a
      | None => rmatch fl r2 st k
      end
  | Star r1 => star_loop (rmatch fl r1) k (length (rest st)) st
  | Grp n r1 => rmatch fl r1 st (fun st1 => k (set_cap n st st1))
  | Bnd =>
      if xorb (is_word_opt (before st)) (is_word_opt (hd_error (rest st)))
      then k st else None
  | Bol =>
      match before st with
      | None => k st
      | Some c => if multiline fl && is_line_term c then k st else None
      end
  | Eol =>
      match rest st with
      | [] => k st
      | c :: _ => if multiline fl && is_line_term c then k st else None
      end
  end.

(** What a successful match reports: how many code units it spans and
    its captures. *)
Record found := { span : nat; groups : list (nat * jstr) }.

Definition matcher := option char -> jstr -> option found.

(** The match of [r] that starts exactly at the current position. *)
Definition exec (fl : flags) (r : regex) : matcher :=
  fun prev s =>
    match rmatch fl r {| before := prev; rest := s; caps := [] |}
            (fun st => Some st) with
    | Some st => Some {| span := length s - length (rest st); groups := caps st |}
    | None => None
    end.

(** [$n] in a replacement, and the n-th argument of a callback (an
    unset group gives the empty text). *)
Fixpoint group (n : nat) (g : list (nat * jstr)) : jstr :=
  match g with
  | [] => []
  | (m, v) :: g' => if Nat.eqb m n then v else group n g'
  end.

(** [s.replace(re, f)] for a global [re]: the matches are found left to
    right on the original string, each search resuming where the last
    match ended (one unit further after an empty match).  [skip] counts
    the units of the current match still to pass over. *)
Fixpoint replace_go (m : matcher) (f : jstr -> list (nat * jstr) -> jstr)
    (skip : nat) (prev : option char) (s : jstr) : jstr :=
  match s with
  | [] =>
      match skip with
      | O => match m prev [] with
             | Some fd => f [] (groups fd)
             | None => []
             end
      | S _ => []
      end
  | c :: s' =>
      match skip with
      | S k => replace_go m f k (Some c) s'
      | O =>
          match m prev s with
          | Some fd =>
              f (firstn (span fd) s) (groups fd) ++
              match span fd with
              | O => c :: replace_go m f 0 (Some c) s'
              | S k => replace_go m f k (Some c) s'
              end
          | None => c :: replace_go m f 0 (Some c) s'
          end
      end
  end.

Definition replace_with (fl : flags) (r : regex)
    (f : jstr -> list (nat * jstr) -> jstr) (s : jstr) : jstr :=
  replace_go (exec fl r) f 0 None s.

(** [s.replace(re, 'literal')], the literal without [$] patterns. *)
Definition replace_all (fl : flags) (r : regex) (by_ : jstr) (s : jstr) : jstr :=
  replace_with fl r (fun _ _ => by_) s.

(** [s.split(sep)]: [cur] is the piece being collected (reversed); a
    match that ends where the piece started does not split. *)
Fixpoint split_go (m : matcher) (skip : nat) (cur : jstr)
    (prev : option char) (s : jstr) : list jstr :=
  match s with
  | [] => [rev cur]
  | c :: s' =>
      match skip with
      | S k => split_go m k [] (Some c) s'
      | O =>
          match m prev s with
          | Some fd =>
              match span fd with
              | O =>
                  match cur with
                  | [] => split_go m 0 [c] (Some c) s'
                  | _ :: _ => rev cur :: split_go m 0 [c] (Some c) s'
                  end
              | S k => rev cur :: split_go m k [] (Some c) s'
              end
          | None => split_go m 0 (c :: cur) (Some c) s'
          end
      end
  end.

Definition split_by (m : matcher) (s : jstr) : list jstr :=
  match s with
  | [] => match m None [] with
          | Some _ => []
          | None => [[]]
          end
  | _ :: _ => split_go m 0 [] None s
  end.

Definition split_re (fl : flags) (r : regex) (s : jstr) : list jstr :=
  split_by (exec fl r) s.

(** [s.split('sep')] with a string separator that is not empty. *)
Definition split_str (sep : jstr) (s : jstr) : list jstr :=
  split_re fl_g (lits sep) s.

(** ** Results of calls *)

Inductive thrown : Type :=
| TypeError (what : jstr)
| Error (msg : jstr)
| ProviderFailure (code : nat).   (* what a network adapter raises *)

(** A synchronous call: a value or an exception. *)
Inductive result (A : Type) : Type :=
| Ok (a : A)
| Throw (e : thrown).
Arguments Ok {A} a.
Arguments Throw {A} e.

(** A promise, as its caller observes it.  The artificial delay of the
    simulation ([setTimeout] of 1 to 3 seconds) only postpones the
    settlement and is left out; an exception escaping a timer callback
    leaves the promise unsettled. *)
Inductive outcome (A : Type) : Type :=
| Resolved (a : A)
| Rejected (e : thrown)
| Pending.
Arguments Resolved {A} a.
Arguments Rejected {A} e.
Arguments Pending {A}.

(** One call of [Math.random()]: the rational [dnum / (dnum + dgap + 1)],
    which ranges over the rationals of [0, 1). *)
Record draw := { dnum : nat; dgap : nat }.

(** [Math.floor(Math.random() * len)]. *)
Definition random_index (len : nat) (d : draw) : nat :=
  (dnum d * len) / (dnum d + dgap d + 1).

(** ** The text transformations of aiService.js *)

(** [/\bword\b/]: a literal between two word boundaries. *)
Definition wordre (s : string) : regex := Seq Bnd (Seq (text s) Bnd).

Definition nonblank (s : jstr) : bool :=
  match trim s with
  | [] => false
  | _ :: _ => true
  end.

(** [text.split(/[.!?]+/).filter(s => s.trim())]. *)
Definition sentences (t : jstr) : list jstr :=
  filter nonblank (split_re fl_g (Plus (Cls is_term)) t).

(** [arr.filter((s, i) => p i)]. *)
Fixpoint filter_index (p : nat -> bool) (i : nat) (l : list jstr) : list jstr :=
  match l with
  | [] => []
  | s :: l' => if p i then s :: filter_index p (S i) l' else filter_index p (S i) l'
  end.

(** [Math.ceil(n * 0.7)].  The double nearest to 0.7 lies 0.4 ulp below
    it, so for every count below 2^48 (no engine holds a string that
    long) the rounded product is within 0.03 of 7n/10, never above it
    when 7n/10 is whole, and the ceiling is the exact one. *)
Definition ceil_0_7 (n : nat) : nat := (7 * n + 9) / 10.

Definition shortenText (t : jstr) : jstr :=
  let ss := sentences t in
  if Nat.leb (length ss) 1 then t
  else
    join (js ". ")
         (filter_index (fun i => Nat.ltb i (ceil_0_7 (length ss))) 0 (map trim ss))
    ++ js ".".

(** [table[key] || fallback] on an object literal used as a table. *)
Fixpoint own_get (table : list (jstr * jstr)) (key : jstr) : option jstr :=
  match table with
  | [] => None
  | (k, v) :: table' => if jstr_eqb k key then Some v else own_get table' key
  end.

Definition table_or (h : Host) (table : list (jstr * jstr)) (key fallback : jstr) : jstr :=
  match own_get table key with
  | Some v => v
  | None =>
      match inheritedText h key with
      | Some v => v
      | None => fallback
      end
  end.

Definition expansions : list (jstr * jstr) :=
  [ (js "good", js "excellent and well-executed");
    (js "bad", js "problematic and concerning");
    (js "nice", js "pleasant and appealing");
    (js "great", js "outstanding and remarkable") ].

Definition lengthenText (h : Host) (t : jstr) : jstr :=
  let enhanced :=
    replace_all fl_gi (wordre "this") (js "this particular aspect")
      (replace_all fl_g (text ". ") (js ". Furthermore, ")
        (replace_with fl_gi
           (Seq Bnd (Seq (Grp 1 (Alt (text "good") (Alt (text "bad")
                                   (Alt (text "nice") (text "great"))))) Bnd))
           (fun m _ => table_or h expansions (toLowerCase h m) m)
           t)) in
  enhanced ++ js " This demonstrates the complexity and importance of the matter at hand.".

Definition intensifiers : list (jstr * jstr) :=
  [ (js "good", js "exceptional");
    (js "bad", js "terrible");
    (js "big", js "enormous");
    (js "small", js "tiny");
    (js "important", js "crucial");
    (js "difficult", js "challenging") ].

Definition improveWriting (h : Host) (t : jstr) : jstr :=
  replace_all fl_gi (wordre "a lot of") (js "numerous")
    (replace_all fl_gi (wordre "got") (js "obtained")
      (replace_all fl_gi (wordre "stuff") (js "material")
        (replace_with fl_gi
           (Seq Bnd (Seq (text "thing") (Seq (Grp 1 (Opt (Lit (chr "s")))) Bnd)))
           (fun _ g => js "element" ++ group 1 g)
           (replace_with fl_gi
              (Seq Bnd (Seq (text "very ") (Grp 1 (Plus (Cls is_word)))))
              (fun m g => table_or h intensifiers (toLowerCase h (group 1 g)) m)
              t)))).

(** The substitution tables of [makeFormal] and [makeCasual], in the
    order the source chains its [replace] calls. *)
Definition formal_rules : list (string * string) :=
  [ ("can't", "cannot"); ("won't", "will not"); ("doesn't", "does not");
    ("isn't", "is not"); ("I think", "It is my opinion that");
    ("maybe", "perhaps"); ("okay", "acceptable"); ("kind of", "somewhat");
    ("guys", "individuals") ]%string.

Definition casual_rules : list (string * string) :=
  [ ("cannot", "can't"); ("will not", "won't"); ("does not", "doesn't");
    ("is not", "isn't"); ("It is my opinion that", "I think");
    ("perhaps", "maybe"); ("acceptable", "okay"); ("somewhat", "kind of");
    ("individuals", "people") ]%string.

(** [t.replace(/\bp1\b/gi, r1).replace(/\bp2\b/gi, r2)...]. *)
Definition replace_chain (rules : list (string * string)) (t : jstr) : jstr :=
  fold_left (fun acc pr => replace_all fl_gi (wordre (fst pr)) (js (snd pr)) acc)
            rules t.

Definition makeFormal (t : jstr) : jstr := replace_chain formal_rules t.

Definition makeCasual (t : jstr) : jstr := replace_chain casual_rules t.

Definition table_header : jstr :=
  js "| Item | Description |" ++ [LF] ++ js "|------|-------------|" ++ [LF].

(** One pass of the [forEach] callback of [convertToTable]. *)
Definition table_row (i : nat) (sentence : jstr) : jstr :=
  js "| " ++ dec (i + 1) ++ js " | " ++ trim sentence ++ js " |" ++ [LF].

Fixpoint forEach_row (i : nat) (ss : list jstr) (table : jstr) : jstr :=
  match ss with
  | [] => table
  | s :: ss' => forEach_row (S i) ss' (table ++ table_row i s)
  end.

Definition convertToTable (t : jstr) : jstr :=
  let ss := sentences t in
  if Nat.ltb (length ss) 2 then t
  else forEach_row 0 ss table_header.

Definition convertToList (t : jstr) : jstr :=
  let ss := sentences t in
  if Nat.ltb (length ss) 2 then t
  else join [LF] (map (fun s => BULLET :: SPACE :: trim s) ss).

(** [text.split(/[.!?]+/)[0].trim()] raises a TypeError when the array
    has no first element. *)
Definition summarizeText (t : jstr) : result jstr :=
  let words := split_re fl_g (Plus (Cls is_space)) t in
  if Nat.leb (length words) 20 then Ok t
  else
    match split_re fl_g (Plus (Cls is_term)) t with
    | [] => Throw (TypeError (js "Cannot read properties of undefined"))
    | first :: _ =>
        let firstSentence := trim first in
        let keyWords :=
          join (js ", ") (firstn 5 (filter (fun w => Nat.ltb 5 (length w)) words)) in
        Ok (js "Summary: " ++ firstSentence ++ js ". Key terms: " ++ keyWords ++ js ".")
    end.

Definition customEdit (h : Host) (t prompt : jstr) : jstr :=
  let lowerPrompt := toLowerCase h prompt in
  if includes lowerPrompt (js "professional") || includes lowerPrompt (js "formal")
  then makeFormal t
  else if includes lowerPrompt (js "casual") || includes lowerPrompt (js "friendly")
  then makeCasual t
  else if includes lowerPrompt (js "shorter") || includes lowerPrompt (js "concise")
  then shortenText t
  else if includes lowerPrompt (js "longer") || includes lowerPrompt (js "detail")
  then lengthenText h t
  else improveWriting h t.

Definition improveText (t : jstr) : jstr :=
  match t with
  | [] => t
  | _ :: _ =>
      let improved :=
        trim
          (replace_all fl_g (Plus (Lit (chr ","))) (js ",")
            (replace_all fl_g (Plus (Lit (chr "!"))) (js "!")
              (replace_all fl_g (Plus (Lit (chr "?"))) (js "?")
                (replace_all fl_g (Plus (Lit (chr "."))) (js ".")
                  (replace_all fl_g (Plus (Cls is_space)) (js " ")
                    (replace_all fl_g (wordre "i") (js "I") t)))))) in
      let improved :=
        replace_with fl_g
          (Seq (Grp 1 (Alt Bol (Seq (Cls is_term) (Plus (Cls is_space)))))
               (Grp 2 (Cls is_lower_az)))
          (fun _ g => group 1 g ++ toUpperCase_ascii (group 2 g))
          improved in
      replace_all fl_g (Seq Bnd (Seq (text "your") (Seq (Plus (Cls is_space)) (Seq (text "you") Bnd)))) (js "you")
        (replace_all fl_g (Seq Bnd (Seq (text "their") (Seq (Plus (Cls is_space)) (Seq (text "they") Bnd)))) (js "they")
          (replace_all fl_g (Seq Bnd (Seq (text "was") (Seq (Plus (Cls is_space)) (Seq (text "were") Bnd)))) (js "were")
            (replace_all fl_g (wordre "nad") (js "and")
              (replace_all fl_g (wordre "teh") (js "the") improved))))
  end.

Definition formatDocument (t : jstr) : jstr :=
  match t with
  | [] => t
  | _ :: _ =>
      let formatted :=
        replace_with fl_g (Seq (Lit (chr ".")) (Grp 1 (Cls is_upper_AZ)))
          (fun _ g => js ". " ++ group 1 g) t in
      let formatted :=
        replace_all fl_g (Seq (Lit LF) (Seq (Lit LF) (Seq (Lit LF) (Star (Lit LF)))))
          [LF; LF] formatted in
      let formatted :=
        replace_with fl_gm
          (Seq Bol (Seq (Grp 1 (Alt (Lit (chr "-")) (Lit (chr "*"))))
             (Seq (Star (Cls is_space)) (Seq (Grp 2 (Plus dot)) Eol))))
          (fun _ g => BULLET :: SPACE :: group 2 g) formatted in
      match split_str [LF] formatted with
      | line0 :: lines =>
          if Nat.ltb (length line0) 60 && negb (includes line0 (js "."))
          then join [LF] ((js "# " ++ line0) :: lines)
          else formatted
      | [] => formatted
      end
  end.

(** ** The simulation chat engine *)

Inductive Action : Type := chat | modify.

(** [{action, message, newContent}]; a field that is absent or
    [undefined] is [None]. *)
Record ChatTurn := {
  action : Action;
  message : option jstr;
  newContent : option jstr
}.

(** A well-formed [ChatTurn]: a message, and [newContent] present
    exactly when the action is [modify]. *)
Definition valid_turn (t : ChatTurn) : bool :=
  match message t with
  | None => false
  | Some _ =>
      match action t, newContent t with
      | modify, Some _ => true
      | chat, None => true
      | _, _ => false
      end
  end.

Definition responses : list jstr :=
  [ js "I'm here to help! You can ask me to fix grammar, improve writing, add content, or format your document.";
    js "That's an interesting question! I can also help you edit your document directly. Try asking me to 'fix grammar' or 'add an introduction'.";
    js "I'd be happy to assist you! Some things I can do: improve text, add summaries, fix formatting, or just chat about your document.";
    js "Great question! I can provide suggestions or directly modify your document. Just let me know what you need - I can add content, fix grammar, or organize your text.";
    js "I'm your AI writing assistant! I can help improve your document's grammar, add new content, create summaries, or answer any questions you have.";
    js "Feel free to ask me anything! I can also edit your document directly - try asking me to 'improve the writing' or 'add a conclusion'.";
    js "I'm designed to help with both conversation and document editing. What would you like me to help you with today?";
    js "That's a good point! I can also assist with your document - whether you need grammar fixes, additional content, or better formatting.";
    js "Interesting! While we chat, remember I can also directly modify your document. Try commands like 'add an introduction' or 'fix the grammar'.";
    js "I understand! Let me know if you'd like me to make any changes to your document. I can improve writing, add content, or organize the text better." ].

Definition nothing_to_summarize : jstr :=
  js "There's no content to summarize yet. Please add some text first, and I'll be happy to create a summary!".

Definition asks_improve (lowerMessage : jstr) : bool :=
  includes lowerMessage (js "fix grammar") || includes lowerMessage (js "correct")
  || includes lowerMessage (js "improve").

Definition asks_add (lowerMessage : jstr) : bool :=
  includes lowerMessage (js "add")
  && (includes lowerMessage (js "content") || includes lowerMessage (js "paragraph")
      || includes lowerMessage (js "text")).

Definition asks_summary (lowerMessage : jstr) : bool :=
  includes lowerMessage (js "summarize") || includes lowerMessage (js "summary").

Definition asks_format (lowerMessage : jstr) : bool :=
  includes lowerMessage (js "format") || includes lowerMessage (js "organize").

Definition addedContent (lowerMessage : jstr) : jstr :=
  if includes lowerMessage (js "introduction") || includes lowerMessage (js "intro")
  then [LF; LF] ++ js "## Introduction" ++ [LF; LF]
       ++ js "This document serves as a comprehensive guide that aims to provide valuable insights and information on the topic at hand. Through careful analysis and research, we present the following findings and recommendations."
  else if includes lowerMessage (js "conclusion")
  then [LF; LF] ++ js "## Conclusion" ++ [LF; LF]
       ++ js "In conclusion, the points discussed above highlight the importance of this topic and its implications for future development. We recommend continued research and implementation of the strategies outlined in this document."
  else [LF; LF] ++ js "[AI Generated Content]" ++ [LF]
       ++ js "This additional content has been generated based on your request. It provides supplementary information that complements the existing text and enhances the overall quality of the document.".

(** The value [simulateAIResponse] resolves with; [d] is the draw of
    [Math.random()] that picks the canned response. *)
Definition simulateAIResponse (h : Host) (userMessage currentDocument : jstr)
    (d : draw) : ChatTurn :=
  let lowerMessage := toLowerCase h userMessage in
  if asks_improve lowerMessage then
    {| action := modify;
       message := Some (js "I've improved the grammar and style of your document!");
       newContent := Some (improveText currentDocument) |}
  else if asks_add lowerMessage then
    {| action := modify;
       message := Some (js "I've added relevant content to your document!");
       newContent := Some (currentDocument ++ addedContent lowerMessage) |}
  else if asks_summary lowerMessage then
    match trim currentDocument with
    | _ :: _ =>
        let summary :=
          [LF; LF] ++ js "## Summary" ++ [LF] ++ js "This document contains "
          ++ dec (length (split_str [SPACE] currentDocument))
          ++ js " words covering the main topics discussed above. "
          ++ js "The key points have been organized to provide a clear understanding of the subject matter." in
        {| action := modify;
           message := Some (js "I've added a summary to your document!");
           newContent := Some (currentDocument ++ summary) |}
    | [] =>
        {| action := chat;
           message := Some nothing_to_summarize;
           newContent := None |}
    end
  else if asks_format lowerMessage then
    {| action := modify;
       message := Some (js "I've improved the formatting and organization of your document!");
       newContent := Some (formatDocument currentDocument) |}
  else
    {| action := chat;
       message := nth_error responses (random_index (length responses) d);
       newContent := None |}.

(** ** The edit entry point *)

Record TransformResult := {
  originalText : jstr;
  editedText : jstr;
  edit_message : jstr;
  editType : jstr
}.

(** The [switch] of [getTextEdit]: the edited text and the message. *)
Definition edit_switch (h : Host) (editType selectedText customPrompt : jstr)
    : result (jstr * jstr) :=
  if jstr_eqb editType (js "shorten") then
    Ok (shortenText selectedText, js "Text shortened while preserving key meaning")
  else if jstr_eqb editType (js "lengthen") then
    Ok (lengthenText h selectedText, js "Text expanded with additional detail")
  else if jstr_eqb editType (js "improve") then
    Ok (improveWriting h selectedText, js "Writing quality improved")
  else if jstr_eqb editType (js "formal") then
    Ok (makeFormal selectedText, js "Text made more formal")
  else if jstr_eqb editType (js "casual") then
    Ok (makeCasual selectedText, js "Text made more casual")
  else if jstr_eqb editType (js "table") then
    Ok (convertToTable selectedText, js "Converted to table format")
  else if jstr_eqb editType (js "list") then
    Ok (convertToList selectedText, js "Converted to list format")
  else if jstr_eqb editType (js "summarize") then
    match summarizeText selectedText with
    | Ok e => Ok (e, js "Text summarized")
    | Throw x => Throw x
    end
  else if jstr_eqb editType (js "custom") then
    Ok (customEdit h selectedText customPrompt,
        js "Custom edit applied: " ++ customPrompt)
  else
    Ok (improveText selectedText, js "Text improved").

(** [getTextEdit(editType, selectedText, customPrompt = '')]; an omitted
    or [undefined] third argument is [None]. *)
Definition getTextEdit (h : Host) (editType selectedText : jstr)
    (customPrompt : option jstr) : outcome TransformResult :=
  let customPrompt := default_empty customPrompt in
  match edit_switch h editType selectedText customPrompt with
  | Ok (edited, msg) =>
      Resolved {| originalText := selectedText;
                  editedText := edited;
                  edit_message := msg;
                  editType := editType |}
  | Throw _ => Pending
  end.

(** ** Providers *)

(** The [REACT_APP_*] variables of [process.env]; [None] is an unset one. *)
Record Env := {
  REACT_APP_OPENAI_API_KEY : option jstr;
  REACT_APP_CLAUDE_API_KEY : option jstr;
  REACT_APP_HUGGINGFACE_API_KEY : option jstr;
  REACT_APP_GROQ_API_KEY : option jstr
}.

(** [v || null]. *)
Definition or_null (v : option jstr) : option jstr :=
  if truthy v then v else None.

Record AIService := {
  openaiKey : option jstr;
  claudeKey : option jstr;
  huggingFaceKey : option jstr;
  providers : list jstr;
  currentProvider : jstr
}.

Definition isProviderAvailable (env : Env) (svc : AIService) (provider : jstr) : bool :=
  if jstr_eqb provider (js "openai") then truthy (openaiKey svc)
  else if jstr_eqb provider (js "claude") then truthy (claudeKey svc)
  else if jstr_eqb provider (js "huggingface") then truthy (huggingFaceKey svc)
  else if jstr_eqb provider (js "groq") then truthy (REACT_APP_GROQ_API_KEY env)
  else if jstr_eqb provider (js "simulation") then true
  else false.

Definition set_currentProvider (p : jstr) (svc : AIService) : AIService :=
  {| openaiKey := openaiKey svc;
     claudeKey := claudeKey svc;
     huggingFaceKey := huggingFaceKey svc;
     providers := providers svc;
     currentProvider := p |}.

(** The [for ... of] loop of [detectAvailableProvider], with its [break]. *)
Fixpoint detect_loop (env : Env) (svc : AIService) (ps : list jstr) : AIService :=
  match ps with
  | [] => svc
  | provider :: ps' =>
      if isProviderAvailable env svc provider
      then set_currentProvider provider svc
      else detect_loop env svc ps'
  end.

Definition detectAvailableProvider (env : Env) (svc : AIService) : AIService :=
  detect_loop env svc (providers svc).

Definition priority : list jstr :=
  [ js "openai"; js "claude"; js "groq"; js "huggingface"; js "simulation" ].

(** [new AIService()]. *)
Definition constructor (env : Env) : AIService :=
  detectAvailableProvider env
    {| openaiKey := or_null (REACT_APP_OPENAI_API_KEY env);
       claudeKey := or_null (REACT_APP_CLAUDE_API_KEY env);
       huggingFaceKey := or_null (REACT_APP_HUGGINGFACE_API_KEY env);
       providers := priority;
       currentProvider := js "simulation" |}.

Record Prompt := { system : jstr; user : jstr; context : jstr }.

Definition chat_system_prompt (documentContent : jstr) : jstr :=
  js "You are an AI assistant integrated into a collaborative text editor. You can either:" ++ [LF]
  ++ js "1. Provide helpful chat responses to user questions" ++ [LF]
  ++ js "2. Directly modify the document content when asked" ++ [LF; LF]
  ++ js "When the user asks you to modify the document (fix grammar, improve text, add content, etc.), respond with a JSON object containing:" ++ [LF]
  ++ js "- action: 'modify'" ++ [LF]
  ++ js "- message: 'Brief description of what you did'" ++ [LF]
  ++ js "- newContent: 'The improved/modified document content'" ++ [LF; LF]
  ++ js "For regular chat, respond with:" ++ [LF]
  ++ js "- action: 'chat'" ++ [LF]
  ++ js "- message: 'Your response'" ++ [LF; LF]
  ++ js "Current document content: " ++ documentContent.

Definition buildPrompt (message_ documentContent type : jstr) : Prompt :=
  {| system :=
       if jstr_eqb type (js "chat") then chat_system_prompt documentContent
       else js "You are a text editing AI. Edit the provided text according to the user's request. Return only the edited text.";
     user := message_;
     context := documentContent |}.

(** What a call through [callAI] resolves with: a turn of the
    simulation, an edit result, or what a network adapter made of the
    provider's response text. *)
Inductive reply : Type :=
| Turn (t : ChatTurn)
| Edit (r : TransformResult)
| FromProvider (content : jstr).

(** The four network adapters.  Their bodies go through [fetch]; what
    they settle with is the network's to decide. *)
Record Network := {
  callOpenAI : Prompt -> outcome reply;
  callClaude : Prompt -> outcome reply;
  callGroq : Prompt -> outcome reply;
  callHuggingFace : Prompt -> outcome reply
}.

Definition callAI (h : Host) (net : Network) (svc : AIService)
    (message_ documentContent type : jstr) (d : draw) : outcome reply :=
  let provider := currentProvider svc in
  if jstr_eqb provider (js "simulation") then
    if jstr_eqb type (js "chat")
    then Resolved (Turn (simulateAIResponse h message_ documentContent d))
    else
      match getTextEdit h message_ documentContent None with
      | Resolved r => Resolved (Edit r)
      | Rejected e => Rejected e
      | Pending => Pending
      end
  else
    let prompt := buildPrompt message_ documentContent type in
    if jstr_eqb provider (js "openai") then callOpenAI net prompt
    else if jstr_eqb provider (js "claude") then callClaude net prompt
    else if jstr_eqb provider (js "groq") then callGroq net prompt
    else if jstr_eqb provider (js "huggingface") then callHuggingFace net prompt
    else Rejected (Error (js "Unknown provider: " ++ provider)).

(** [getChatResponse(message, documentContent = '')]: the [try] around
    the awaited [callAI], the simulation in the [catch].  [d1] is the
    draw a simulated provider takes, [d2] the one the fallback takes. *)
Definition getChatResponse (h : Host) (net : Network) (svc : AIService)
    (message_ : jstr) (documentContent : option jstr) (d1 d2 : draw)
    : outcome reply :=
  let documentContent := default_empty documentContent in
  match callAI h net svc message_ documentContent (js "chat") d1 with
  | Resolved v => Resolved v
  | Rejected _ => Resolved (Turn (simulateAIResponse h message_ documentContent d2))
  | Pending => Pending
  end.

(** ** App.js: the sync handler and the edit handlers *)

Section Sync.

(** What [JSON.parse] gives for [data]: the document snapshot. *)
Variable Snapshot : Type.

(** A parsed message.  A [type] that is absent or not a string acts as
    any tag other than the three the handler knows. *)
Record SyncMessage := { type_ : jstr; data : Snapshot }.

(** An inbound frame: one on which the body of the [try] throws
    ([JSON.parse] refuses it, or it parses to [null]), which is caught
    and logged, or a parsed message. *)
Inductive frame : Type :=
| Unparsable
| Parsed (m : SyncMessage).

(** [newSocket.onmessage], on the [document] state. *)
Definition onmessage (document : Snapshot) (ev : frame) : Snapshot :=
  match ev with
  | Unparsable => document
  | Parsed m =>
      if jstr_eqb (type_ m) (js "init") then data m
      else if jstr_eqb (type_ m) (js "update") then data m
      else if jstr_eqb (type_ m) (js "chat") then document
      else document
  end.

(** The document after a sequence of inbound frames. *)
Definition receive (document : Snapshot) (evs : list frame) : Snapshot :=
  fold_left onmessage evs document.

(** The payloads a sequence of frames stores, oldest first. *)
Fixpoint stored (evs : list frame) : list Snapshot :=
  match evs with
  | [] => []
  | Unparsable :: evs' => stored evs'
  | Parsed m :: evs' =>
      if jstr_eqb (type_ m) (js "init") || jstr_eqb (type_ m) (js "update")
      then data m :: stored evs'
      else stored evs'
  end.

End Sync.

Arguments Unparsable {Snapshot}.

Definition init_msg (x : jstr) : frame jstr :=
  Parsed {| type_ := js "init"; data := x |}.

Definition update_msg (x : jstr) : frame jstr :=
  Parsed {| type_ := js "update"; data := x |}.

(** The state of [App] that the edit handlers touch. *)
Record AppState := {
  currentEditType : jstr;
  app_originalText : jstr;
  aiSuggestion : jstr;
  previewModalOpen : bool;
  isAiLoading : bool;
  toolbarVisible : bool
}.

(** A call of [aiService.getTextEdit] made by a handler. *)
Record EditCall := {
  call_editType : jstr;
  call_text : jstr;
  call_prompt : option jstr
}.

Definition settle_edit (h : Host) (c : EditCall) (failure : jstr)
    (st : AppState) : AppState :=
  match getTextEdit h (call_editType c) (call_text c) (call_prompt c) with
  | Resolved r =>
      {| currentEditType := currentEditType st;
         app_originalText := app_originalText st;
         aiSuggestion := editedText r;
         previewModalOpen := previewModalOpen st;
         isAiLoading := false;
         toolbarVisible := toolbarVisible st |}
  | Rejected _ =>
      {| currentEditType := currentEditType st;
         app_originalText := app_originalText st;
         aiSuggestion := failure;
         previewModalOpen := previewModalOpen st;
         isAiLoading := false;
         toolbarVisible := toolbarVisible st |}
  | Pending =>
      {| currentEditType := currentEditType st;
         app_originalText := app_originalText st;
         aiSuggestion := aiSuggestion st;
         previewModalOpen := previewModalOpen st;
         isAiLoading := true;
         toolbarVisible := toolbarVisible st |}
  end.

(** [handleEditWithAI(editType, text)]: the new state and the service
    calls made. *)
Definition handleEditWithAI (h : Host) (st : AppState) (editType text_ : jstr)
    : AppState * list EditCall :=
  let st1 :=
    {| currentEditType := editType;
       app_originalText := text_;
       aiSuggestion := [];
       previewModalOpen := true;
       isAiLoading := isAiLoading st;
       toolbarVisible := toolbarVisible st |} in
  let hide s :=
    {| currentEditType := currentEditType s;
       app_originalText := app_originalText s;
       aiSuggestion := aiSuggestion s;
       previewModalOpen := previewModalOpen s;
       isAiLoading := isAiLoading s;
       toolbarVisible := false |} in
  if negb (jstr_eqb editType (js "custom")) then
    let c := {| call_editType := editType; call_text := text_; call_prompt := None |} in
    (hide (settle_edit h c (js "Error: Could not process text edit.") st1), [c])
  else (hide st1, []).

(** [handleCustomEdit(customPrompt)] of App.js. *)
Definition handleCustomEdit (h : Host) (st : AppState) (customPrompt : jstr)
    : AppState * list EditCall :=
  let c := {| call_editType := js "custom";
              call_text := app_originalText st;
              call_prompt := Some customPrompt |} in
  (settle_edit h c (js "Error: Could not process custom edit.") st, [c]).

(** [handleCustomEdit] of PreviewModal.js, behind the Generate button:
    it reaches App's handler only with a prompt that is not blank. *)
Definition modal_handleCustomEdit (h : Host) (st : AppState) (customPrompt : jstr)
    : AppState * list EditCall :=
  match trim customPrompt with
  | _ :: _ => handleCustomEdit h st customPrompt
  | [] => (st, [])
  end.

(** A host for worked examples on ASCII text without inherited keys. *)
Definition plainHost : Host :=
  {| unicodeLower := fun s => s; inheritedText := fun _ => None |}.

(** ** Inputs of the worked examples *)

(** The selection of the specification's worked example. *)
Definition meeting_notes : jstr :=
  js "The meeting went well. We discussed the budget. Everyone agreed to the plan. Next steps were assigned.".

(** The document of the specification's improve scenario. *)
Definition cat_note : jstr := js "i think teh cat is nice.".

(** A network on which every adapter fails. *)
Definition network_down : Network :=
  {| callOpenAI := fun _ => Rejected (ProviderFailure 503);
     callClaude := fun _ => Rejected (ProviderFailure 503);
     callGroq := fun _ => Rejected (ProviderFailure 503);
     callHuggingFace := fun _ => Rejected (ProviderFailure 503) |}.

Definition env_openai : Env :=
  {| REACT_APP_OPENAI_API_KEY := Some (js "sk-test");
     REACT_APP_CLAUDE_API_KEY := None;
     REACT_APP_HUGGINGFACE_API_KEY := None;
     REACT_APP_GROQ_API_KEY := None |}.

Definition app_idle : AppState :=
  {| currentEditType := [];
     app_originalText := [];
     aiSuggestion := [];
     previewModalOpen := false;
     isAiLoading := false;
     toolbarVisible := true |}.

(** ** Matchers in closed form

    What [exec] computes for the two shapes of pattern the properties
    below reason about; the lemmas [exec_plus_cls] and [exec_wordre]
    relate them to the matcher. *)

(** [/[class]+/]: a maximal run of the class. *)
Definition run_matcher (p : char -> bool) : matcher :=
  fun _ s =>
    match s with
    | c :: s' =>
        if p c then Some {| span := S (length (takeWhile p s')); groups := [] |}
        else None
    | [] => None
    end.

Definition none_of (p : char -> bool) (s : jstr) : bool :=
  forallb (fun c => negb (p c)) s.

(** [/\bpattern\b/gi] in closed form: the unit before is not a word
    character, the text starts with the pattern up to case, and what
    follows is not a word character. *)
Fixpoint ci_prefix (p s : jstr) : bool :=
  match p, s with
  | [], _ => true
  | a :: p', x :: s' => N.eqb (canon a) (canon x) && ci_prefix p' s'
  | _ :: _, [] => false
  end.

Definition ends_here (s : jstr) : bool := negb (is_word_opt (hd_error s)).

Definition tail_at (p s : jstr) : bool :=
  ci_prefix p s && ends_here (skipn (length p) s).

Definition word_at (p : jstr) (prev : option char) (s : jstr) : bool :=
  negb (is_word_opt prev) && tail_at p s.

Definition word_matcher (p : jstr) : matcher :=
  fun prev s =>
    if word_at p prev s then Some {| span := length p; groups := [] |} else None.

(** A pattern or replacement that starts and ends with a word character. *)
Definition wf_word (s : jstr) : bool :=
  match s with
  | [] => false
  | c :: _ => is_word c && is_word (last s 0%N)
  end.

(** The unit before the position reached after passing over [a]. *)
Definition before_after (prev : option char) (a : jstr) : option char :=
  fold_left (fun _ c => Some c) a prev.

(** No match of [/\bp\b/gi] in [s]; [pw] tells whether the unit before
    [s] is a word character. *)
Fixpoint nomatch (p : jstr) (pw : bool) (s : jstr) : bool :=
  match s with
  | [] => true
  | c :: s' => negb (negb pw && tail_at p s) && nomatch p (is_word c) s'
  end.

Definition first_word (s : jstr) : jstr := takeWhile is_word s.

Fixpoint ci_eqb (a b : jstr) : bool :=
  match a, b with
  | [], [] => true
  | x :: a', y :: b' => N.eqb (canon x) (canon y) && ci_eqb a' b'
  | _, _ => false
  end.

(** No word of [s] is [w] up to case; [pw] as above. *)
Fixpoint avoids (w : jstr) (pw : bool) (s : jstr) : bool :=
  match s with
  | [] => true
  | c :: s' =>
      (pw || negb (is_word c) || negb (ci_eqb (first_word s) w))
      && avoids w (is_word c) s'
  end.

(** Pattern [p] and replacement [r] share no word: no word of [p] is
    the first word of [r], and no word of [r] is the first word of [p]. *)
Definition apart (p r : jstr) : bool :=
  avoids (first_word r) false p && avoids (first_word p) false r.

(** A chain of rules in which no replacement brings back a word of its
    own pattern or of a pattern applied before it. *)
Fixpoint chain_ok (done : list jstr) (todo : list (jstr * jstr)) : bool :=
  match todo with
  | [] => true
  | (q, r) :: todo' =>
      wf_word q && wf_word r && forallb (fun p => apart p r) (q :: done)
      && chain_ok (q :: done) todo'
  end.

Definition js_rules (rules : list (string * string)) : list (jstr * jstr) :=
  map (fun pr => (js (fst pr), js (snd pr))) rules.

(** One pass of a rule, in closed form. *)
Definition pass (q r : jstr) (prev : option char) (s : jstr) : jstr :=
  replace_go (word_matcher q) (fun _ _ => r) 0 prev s.

(** A chain of passes, and a text in which no pattern of [ps] matches. *)
Definition chain (rules : list (jstr * jstr)) (t : jstr) : jstr :=
  fold_left (fun acc pr => pass (fst pr) (snd pr) None acc) rules t.

Definition quiet (ps : list jstr) (t : jstr) : bool :=
  forallb (fun p => nomatch p false t) ps.

(** ** What a match consists of

    The words a pattern can match, read off its syntax (assertions
    match the empty word); [exec_sound] shows every match the matcher
    reports is such a word. *)
Inductive lang (fl : flags) : regex -> jstr -> Prop :=
| L_eps : lang fl Eps []
| L_lit : forall c x, char_eq fl c x = true -> lang fl (Lit c) [x]
| L_cls : forall (p : char -> bool) x, p x = true -> lang fl (Cls p) [x]
| L_seq : forall r1 r2 w1 w2,
    lang fl r1 w1 -> lang fl r2 w2 -> lang fl (Seq r1 r2) (w1 ++ w2)
| L_alt_l : forall r1 r2 w, lang fl r1 w -> lang fl (Alt r1 r2) w
| L_alt_r : forall r1 r2 w, lang fl r2 w -> lang fl (Alt r1 r2) w
| L_star_nil : forall r, lang fl (Star r) []
| L_star_cons : forall r w1 w2,
    lang fl r w1 -> lang fl (Star r) w2 -> lang fl (Star r) (w1 ++ w2)
| L_grp : forall n r w, lang fl r w -> lang fl (Grp n r) w
| L_bnd : lang fl Bnd []
| L_bol : lang fl Bol []
| L_eol : lang fl Eol [].

(** Every capturing group of [r] only captures words with property [P]. *)
Fixpoint groups_in (P : nat -> jstr -> Prop) (fl : flags) (r : regex) : Prop :=
  match r with
  | Seq a b => groups_in P fl a /\ groups_in P fl b
  | Alt a b => groups_in P fl a /\ groups_in P fl b
  | Star a => groups_in P fl a
  | Grp n a => (forall w, lang fl a w -> P n w) /\ groups_in P fl a
  | _ => True
  end.

Definition caps_ok (P : nat -> jstr -> Prop) (g : list (nat * jstr)) : Prop :=
  Forall (fun e => P (fst e) (snd e)) g.

(** The output of a global replace, as a relation: units outside the
    matches are copied, each match gives way to its replacement. *)
Inductive Replaced (m : matcher) (f : jstr -> list (nat * jstr) -> jstr)
  : option char -> jstr -> jstr -> Prop :=
| Rp_end : forall prev, m prev [] = None -> Replaced m f prev [] []
| Rp_end_match : forall prev fd,
    m prev [] = Some fd -> Replaced m f prev [] (f [] (groups fd))
| Rp_copy : forall prev c s o,
    m prev (c :: s) = None ->
    Replaced m f (Some c) s o ->
    Replaced m f prev (c :: s) (c :: o)
| Rp_empty : forall prev c s o fd,
    m prev (c :: s) = Some fd -> span fd = 0 ->
    Replaced m f (Some c) s o ->
    Replaced m f prev (c :: s) (f [] (groups fd) ++ c :: o)
| Rp_match : forall prev s o fd,
    m prev s = Some fd -> 0 < span fd -> span fd <= length s ->
    Replaced m f (before_after prev (firstn (span fd) s)) (skipn (span fd) s) o ->
    Replaced m f prev s (f (firstn (span fd) s) (groups fd) ++ o).

(** What a continuation is handed: a state reached by matching [r],
    with captures that keep property [P]. *)
Definition reaches (fl : flags) (P : nat -> jstr -> Prop) (A : Type) (r : regex)
    (st : mstate) (k : mstate -> option A) (a : A) : Prop :=
  exists st' w,
    rest st = w ++ rest st'
    /\ lang fl r w
    /\ (caps_ok P (caps st) -> caps_ok P (caps st'))
    /\ k st' = Some a.

(** ** PreviewModal.js: the diff label *)

Inductive DiffType : Type := diff_same | diff_shortened | diff_lengthened | diff_modified.

(** [getDiffHighlight(original, suggested)]: its [type] and [text]. *)
Definition getDiffHighlight (original suggested : jstr) : DiffType * jstr :=
  if jstr_eqb original suggested then (diff_same, suggested)
  else if Nat.ltb (length suggested) (length original) then (diff_shortened, suggested)
  else if Nat.ltb (length original) (length suggested) then (diff_lengthened, suggested)
  else (diff_modified, suggested).

(** [const diff = aiSuggestion ? getDiffHighlight(originalText, aiSuggestion) : null]. *)
Definition modal_diff (originalText_ aiSuggestion_ : jstr) : option (DiffType * jstr) :=
  match aiSuggestion_ with
  | [] => None
  | _ :: _ => Some (getDiffHighlight originalText_ aiSuggestion_)
  end.

(** No match of [/\bp\b/gi] starts at offset [n] of [o], for any
    pattern [p] of the rules. *)
Definition no_rule_matches_at (rules : list (string * string)) (o : jstr) (n : nat)
    : bool :=
  forallb
    (fun pr =>
       match exec fl_gi (wordre (fst pr)) (before_after None (firstn n o)) (skipn n o) with
       | None => true
       | Some _ => false
       end)
    rules.

(** The provider the priority scan settles on, read off the keys. *)
Definition chosen_provider (env : Env) : jstr :=
  if truthy (REACT_APP_OPENAI_API_KEY env) then js "openai"
  else if truthy (REACT_APP_CLAUDE_API_KEY env) then js "claude"
  else if truthy (REACT_APP_GROQ_API_KEY env) then js "groq"
  else if truthy (REACT_APP_HUGGINGFACE_API_KEY env) then js "huggingface"
  else js "simulation".

(** No provider key is set (an empty one counts as unset). *)
Definition no_credentials (env : Env) : bool :=
  negb (truthy (REACT_APP_OPENAI_API_KEY env))
  && negb (truthy (REACT_APP_CLAUDE_API_KEY env))
  && negb (truthy (REACT_APP_GROQ_API_KEY env))
  && negb (truthy (REACT_APP_HUGGINGFACE_API_KEY env)).

Definition env_empty_keys : Env :=
  {| REACT_APP_OPENAI_API_KEY := Some [];
     REACT_APP_CLAUDE_API_KEY := None;
     REACT_APP_HUGGINGFACE_API_KEY := Some [];
     REACT_APP_GROQ_API_KEY := None |}.

(** A one-unit separator or pattern, in closed form. *)
Definition char_matcher (p : char -> bool) : matcher :=
  fun _ s =>
    match s with
    | x :: _ => if p x then Some {| span := 1; groups := [] |} else None
    | [] => None
    end.

(** How many units of [s] satisfy [p]. *)
Fixpoint count_if (p : char -> bool) (s : jstr) : nat :=
  match s with
  | [] => 0
  | c :: s' => (if p c then 1 else 0) + count_if p s'
  end.

(** The summary [simulateAIResponse] appends for a count of words [n]. *)
Definition summary_block (n : nat) : jstr :=
  [LF; LF] ++ js "## Summary" ++ [LF] ++ js "This document contains "
  ++ dec n
  ++ js " words covering the main topics discussed above. "
  ++ js "The key points have been organized to provide a clear understanding of the subject matter.".

(** ** App.js: the document between the editor, the chat and the socket *)

Section Session.

(** The markup of the document, as the editor serialises it. *)
Variable Snapshot : Type.

(** What happens to [App]: the editor reports a change
    ([handleEditorChange]), the chat asks for an update
    ([handleDocumentUpdate]), a frame arrives on the socket, or the
    browser moves the socket to another [readyState]. *)
Inductive event : Type :=
| EditorChange (html : Snapshot) (text_ : jstr)
| ChatUpdate (newContent_ : Snapshot)
| Inbound (f : frame Snapshot)
| SocketState (readyState : nat).

(** The [document], [documentText] and [socket] states ([None]: the
    socket state is still [null]) and the messages passed to
    [socket.send], oldest first. *)
Record Session := {
  s_document : Snapshot;
  s_documentText : jstr;
  s_readyState : option nat;
  s_sent : list (SyncMessage Snapshot)
}.

(** [WebSocket.OPEN]. *)
Definition OPEN : nat := 1.

Definition socket_open (s : Session) : bool :=
  match s_readyState s with
  | Some rs => Nat.eqb rs OPEN
  | None => false
  end.

(** [updateDocument(newContent)]. *)
Definition updateDocument (s : Session) (newContent_ : Snapshot) : Session :=
  {| s_document := newContent_;
     s_documentText := s_documentText s;
     s_readyState := s_readyState s;
     s_sent :=
       if socket_open s
       then s_sent s ++ [ {| type_ := js "update"; data := newContent_ |} ]
       else s_sent s |}.

(** [handleEditorChange(html, text)]. *)
Definition handleEditorChange (s : Session) (html : Snapshot) (text_ : jstr) : Session :=
  updateDocument
    {| s_document := s_document s;
       s_documentText := text_;
       s_readyState := s_readyState s;
       s_sent := s_sent s |}
    html.

(** [handleDocumentUpdate(newContent)]. *)
Definition handleDocumentUpdate (s : Session) (newContent_ : Snapshot) : Session :=
  updateDocument s newContent_.

Definition session_step (s : Session) (ev : event) : Session :=
  match ev with
  | EditorChange html text_ => handleEditorChange s html text_
  | ChatUpdate newContent_ => handleDocumentUpdate s newContent_
  | Inbound f =>
      {| s_document := onmessage (s_document s) f;
         s_documentText := s_documentText s;
         s_readyState := s_readyState s;
         s_sent := s_sent s |}
  | SocketState rs =>
      {| s_document := s_document s;
         s_documentText := s_documentText s;
         s_readyState := Some rs;
         s_sent := s_sent s |}
  end.

Definition session_run (s : Session) (evs : list event) : Session :=
  fold_left session_step evs s.

(** The documents written locally, by the editor or the chat. *)
Fixpoint local_writes (evs : list event) : list Snapshot :=
  match evs with
  | [] => []
  | EditorChange html _ :: evs' => html :: local_writes evs'
  | ChatUpdate c :: evs' => c :: local_writes evs'
  | _ :: evs' => local_writes evs'
  end.

(** The documents written at all: locally, or by an inbound init or
    update. *)
Fixpoint all_writes (evs : list event) : list Snapshot :=
  match evs with
  | [] => []
  | EditorChange html _ :: evs' => html :: all_writes evs'
  | ChatUpdate c :: evs' => c :: all_writes evs'
  | Inbound f :: evs' => stored [f] ++ all_writes evs'
  | SocketState _ :: evs' => all_writes evs'
  end.

(** The plain texts the editor reported. *)
Fixpoint editor_texts (evs : list event) : list jstr :=
  match evs with
  | [] => []
  | EditorChange _ t :: evs' => t :: editor_texts evs'
  | _ :: evs' => editor_texts evs'
  end.

(** The socket is never moved to [OPEN]. *)
Fixpoint never_opened (evs : list event) : bool :=
  match evs with
  | [] => true
  | SocketState rs :: evs' => negb (Nat.eqb rs OPEN) && never_opened evs'
  | _ :: evs' => never_opened evs'
  end.

End Session.

Arguments EditorChange {Snapshot} html text_.
Arguments ChatUpdate {Snapshot} newContent_.
Arguments Inbound {Snapshot} f.
Arguments SocketState {Snapshot} readyState.

(** A session whose socket stays in CONNECTING and then closes. *)
Definition session_start : Session jstr :=
  {| s_document := []; s_documentText := []; s_readyState := None; s_sent := [] |}.

Definition events_never_open : list (event jstr) :=
  [ SocketState 0; EditorChange (js "<p>draft</p>") (js "draft");
    Inbound (update_msg (js "<p>remote</p>")); SocketState 3;
    ChatUpdate (js "<p>improved</p>") ].

(** ** downloadUtils: statistics, file names and the RTF export *)

Definition BACKSLASH : char := 92%N.
Definition QUOTE : char := 34%N.

(** A global replace of one class, and a split on runs of a class, in
    closed form. *)
Definition substitute (p : char -> bool) (by_ : jstr) (s : jstr) : jstr :=
  flat_map (fun c => if p c then by_ else [c]) s.

(** [content.split(/\s+/).filter(word => word.length > 0)]. *)
Definition words_of (content : jstr) : list jstr :=
  filter (fun word => Nat.ltb 0 (length word))
         (split_re fl_g (Plus (Cls is_space)) content).

Record DocumentStats := {
  words : nat;
  characters : nat;
  charactersNoSpaces : nat;
  lines : nat;
  paragraphs : nat;
  fileSize : jstr
}.

(** [getDocumentStats(content)].  [getFileSize] measures the content
    as a UTF-8 blob and prints the size in floating point; it is a
    parameter here. *)
Definition getDocumentStats (getFileSize : jstr -> jstr) (content : jstr)
    : DocumentStats :=
  {| words := length (words_of content);
     characters := length content;
     charactersNoSpaces := length (replace_all fl_g (Cls is_space) [] content);
     lines := length (split_str [LF] content);
     paragraphs :=
       length (filter (fun p => Nat.ltb 0 (length (trim p)))
                 (split_re fl_g (Seq (Lit LF) (Seq (Star (Cls is_space)) (Lit LF)))
                    content));
     fileSize := getFileSize content |}.

(** The units of [s] that start a word: not white space, and first or
    after white space.  [after_space] tells what precedes [s]. *)
Fixpoint word_starts (after_space : bool) (s : jstr) : nat :=
  match s with
  | [] => 0
  | c :: s' =>
      (if after_space && negb (is_space c) then 1 else 0)
      + word_starts (is_space c) s'
  end.

(** [convertToRTF(content)]. *)
Definition rtf_content (content : jstr) : jstr :=
  replace_all fl_g (Lit LF) (BACKSLASH :: js "par ")
    (replace_all fl_g (Lit (chr "}")) [BACKSLASH; chr "}"]
      (replace_all fl_g (Lit (chr "{")) [BACKSLASH; chr "{"]
        (replace_all fl_g (Lit BACKSLASH) [BACKSLASH; BACKSLASH] content))).

Definition convertToRTF (content : jstr) : jstr :=
  js "{\rtf1\ansi\deff0" ++ [LF]
  ++ js "{\fonttbl{\f0 Times New Roman;}}" ++ [LF]
  ++ js "\f0\fs24" ++ [LF]
  ++ rtf_content content ++ [LF]
  ++ js "}".

(** What one unit of the content becomes in the RTF text. *)
Definition rtf_escape (c : char) : jstr :=
  if N.eqb c BACKSLASH then [BACKSLASH; BACKSLASH]
  else if N.eqb c (chr "{") then [BACKSLASH; chr "{"]
  else if N.eqb c (chr "}") then [BACKSLASH; chr "}"]
  else if N.eqb c LF then BACKSLASH :: js "par "
  else [c].

Definition is_digit (c : char) : bool := in_range 48 57 c.

(** The class [[a-zA-Z0-9\s]]. *)
Definition is_alnum_or_space (c : char) : bool :=
  is_lower_az c || is_upper_AZ c || is_digit c || is_space c.

(** The units of a generated file name: [[a-z0-9_]]. *)
Definition is_filename_unit (c : char) : bool :=
  is_lower_az c || is_digit c || N.eqb c (chr "_").

(** The [filename] of [generateFilename(content, extension)] when the
    time stamp is appended.  [content.split('\n')[0].trim()] raises a
    TypeError when the array has no first element. *)
Definition filename_stem (h : Host) (content : jstr) : result jstr :=
  match split_str [LF] content with
  | [] => Throw (TypeError (js "Cannot read properties of undefined"))
  | first :: _ =>
      let firstLine := trim first in
      let filename :=
        if truthy (Some firstLine) && Nat.ltb 0 (length firstLine)
           && Nat.leb (length firstLine) 50
        then
          firstn 30
            (toLowerCase h
               (replace_all fl_g (Plus (Cls is_space)) (js "_")
                  (replace_all fl_g (Cls (fun c => negb (is_alnum_or_space c))) []
                     firstLine)))
        else js "document" in
      if negb (truthy (Some filename)) || jstr_eqb filename []
         || jstr_eqb filename (js "_")
      then Ok (js "document")
      else Ok filename
  end.

(** [generateFilename(content, extension = 'txt')]; [iso] is what
    [new Date().toISOString()] gives. *)
Definition generateFilename (h : Host) (iso : jstr) (content : jstr)
    (extension : option jstr) : result jstr :=
  let extension := match extension with Some e => e | None => js "txt" end in
  match filename_stem h content with
  | Throw e => Throw e
  | Ok filename =>
      let timestamp :=
        replace_all fl_g
          (Cls (fun c => N.eqb c (chr "-") || N.eqb c (chr ":"))) []
          (firstn 19 iso) in
      Ok (filename ++ js "_" ++ timestamp ++ js "." ++ extension)
  end.

(** ** ExportOptions: the file name field *)

(** The class of the units the field refuses: less-than, greater-than,
    colon, double quote, slash, backslash, bar, question mark, asterisk. *)
Definition is_invalid_filename_char (c : char) : bool :=
  existsb (N.eqb c)
    [chr "<"; chr ">"; chr ":"; QUOTE; chr "/"; BACKSLASH; chr "|"; chr "?"; chr "*"].

(** [handleFilenameChange]: the value stored for what was typed. *)
Definition handleFilenameChange (value : jstr) : jstr :=
  replace_all fl_g (Cls is_invalid_filename_char) [] value.

(** ** The rest of the edit flow *)

(** The three literal rules that end [improveWriting], in the order of
    its [replace] calls. *)
Definition writing_rules : list (string * string) :=
  [ ("stuff", "material"); ("got", "obtained"); ("a lot of", "numerous") ]%string.

(** FloatingToolbar.js: the ids of its options, each handed to
    [onEditWithAI] with the selected text. *)
Definition toolbar_options : list jstr :=
  [ js "shorten"; js "lengthen"; js "improve"; js "formal"; js "casual";
    js "table"; js "list"; js "summarize" ].

(** [selectionRange]. *)
Record Range := { from : nat; to : nat }.

(** A call [editor.replaceRange(from, to, text)]. *)
Record ReplaceCall := { at_range : Range; with_text : jstr }.

(** [handleConfirmEdit()]: the new state, the new [selectionRange] and
    the calls made on the editor; [editor] tells whether
    [editorRef.current] is set. *)
Definition handleConfirmEdit (st : AppState) (selectionRange : option Range)
    (editor : bool) : AppState * option Range * list ReplaceCall :=
  let calls :=
    match selectionRange, aiSuggestion st, editor with
    | Some r, _ :: _, true => [ {| at_range := r; with_text := aiSuggestion st |} ]
    | _, _, _ => []
    end in
  ({| currentEditType := currentEditType st;
      app_originalText := [];
      aiSuggestion := [];
      previewModalOpen := false;
      isAiLoading := isAiLoading st;
      toolbarVisible := toolbarVisible st |},
   None, calls).

(** ChatSidebar.js: what [handleSendMessage] hands to
    [onDocumentUpdate] for a reply,
    [aiResponse.action === 'modify' && aiResponse.newContent]. *)
Definition document_update (aiResponse : ChatTurn) : option jstr :=
  match action aiResponse, newContent aiResponse with
  | modify, Some (c :: s) => Some (c :: s)
  | _, _ => None
  end.

(** The requests on which the simulation's reply changes the document. *)
Definition changes_document (lowerMessage currentDocument : jstr) : bool :=
  if asks_improve lowerMessage then nonblank currentDocument
  else if asks_add lowerMessage then true
  else if asks_summary lowerMessage then nonblank currentDocument
  else if asks_format lowerMessage then
    match currentDocument with [] => false | _ :: _ => true end
  else false.

(** The runs of white space in [s]; [inside] tells whether [s] follows
    white space. *)
Fixpoint space_runs (inside : bool) (s : jstr) : nat :=
  match s with
  | [] => 0
  | c :: s' =>
      (if is_space c && negb inside then 1 else 0) + space_runs (is_space c) s'
  end.

(** White space in [s] is single spaces only, none next to another;
    [after_space] tells whether a space may not come first. *)
Fixpoint single_spaced (after_space : bool) (s : jstr) : bool :=
  match s with
  | [] => true
  | c :: s' =>
      if is_space c
      then N.eqb c SPACE && negb after_space && single_spaced true s'
      else single_spaced false s'
  end.

(** A text that is not empty and does not end in white space. *)
Definition ends_clean (s : jstr) : bool :=
  match s with
  | [] => false
  | _ :: _ => negb (is_space (last s 0%N))
  end.

(** A text without white space at either end or elsewhere than as
    single spaces between other units. *)
Definition tidy (s : jstr) : bool :=
  single_spaced true s && negb (is_space (last s 0%N)).

(** A text that does not start with white space. *)
Definition starts_clean (s : jstr) : bool :=
  match s with
  | [] => true
  | c :: _ => negb (is_space c)
  end.

(** A line [formatDocument] has nothing to do on but to mark it as a
    title: not empty, no period, no line terminator, no list marker in
    front. *)
Definition plain_line (t : jstr) : bool :=
  none_of (fun c => N.eqb c (chr ".") || is_line_term c) t
  && match t with
     | [] => false
     | c :: _ => negb (N.eqb c (chr "-") || N.eqb c (chr "*"))
     end.

Unset Implicit Arguments.

(** * Properties *)

(** ** The sync handler *)

Lemma jstr_eqb_refl (a : jstr) : jstr_eqb a a = true.
Proof.
  induction a as [|x a IH]; simpl; [reflexivity|].
  rewrite N.eqb_refl. exact IH.
Qed.

Lemma jstr_eqb_eq (a b : jstr) : jstr_eqb a b = true <-> a = b.
Proof.
  split.
  - revert b. induction a as [|x a IH]; intros [|y b] H; simpl in H;
      try discriminate; [reflexivity|].
    apply andb_true_iff in H. destruct H as [Hx Hr].
    apply N.eqb_eq in Hx. subst y. f_equal. apply IH. exact Hr.
  - intros ->. apply jstr_eqb_refl.
Qed.

Lemma receive_snoc (D : Type) (evs : list (frame D)) (d0 : D) (ev : frame D) :
  receive d0 (evs ++ [ev]) = onmessage (receive d0 evs) ev.
Proof.
  unfold receive. rewrite fold_left_app. reflexivity.
Qed.

Lemma last_default (D : Type) (l : list D) (a d d' : D) :
  last (a :: l) d = last (a :: l) d'.
Proof.
  revert a. induction l as [|b l IH]; intros a; [reflexivity|].
  change (last (b :: l) d = last (b :: l) d'). apply IH.
Qed.

Lemma receive_last_stored (D : Type) (evs : list (frame D)) (d0 : D) :
  receive d0 evs = last (stored evs) d0.
Proof.
  revert d0. induction evs as [|ev evs IH]; intros d0; [reflexivity|].
  unfold receive in *. simpl fold_left. rewrite IH.
  destruct ev as [|m]; simpl; [reflexivity|].
  destruct (jstr_eqb (type_ m) (js "init")) eqn:Hi; simpl.
  - destruct (stored evs); [reflexivity|apply last_default].
  - destruct (jstr_eqb (type_ m) (js "update")) eqn:Hu; simpl.
    + destruct (stored evs); [reflexivity|apply last_default].
    + destruct (jstr_eqb (type_ m) (js "chat")); reflexivity.
Qed.

(** C3: an inbound [update] overwrites the local document with its
    payload, whatever the document was and whatever came before: after
    any sequence of frames followed by an update carrying [y] the
    document is [y]; in general the document is the payload of the last
    init or update received; [init "X"] then [update "Y"] leaves "Y";
    and an update that arrives first, with no init before it, is
    applied all the same. *)
Theorem C3_update_overwrites :
  (forall (D : Type) (doc y : D),
      onmessage doc (Parsed {| type_ := js "update"; data := y |}) = y)
  /\ (forall (D : Type) (evs : list (frame D)) (d0 y : D),
      receive d0 (evs ++ [Parsed {| type_ := js "update"; data := y |}]) = y)
  /\ (forall (D : Type) (evs : list (frame D)) (d0 : D),
      receive d0 evs = last (stored evs) d0)
  /\ (forall d0 : jstr,
      receive d0 [init_msg (js "X"); update_msg (js "Y")] = js "Y")
  /\ (forall d0 : jstr, receive d0 [update_msg (js "Y")] = js "Y").
Proof.
  split; [|split; [|split; [|split]]].
  - intros. reflexivity.
  - intros. rewrite receive_snoc. reflexivity.
  - intros. apply receive_last_stored.
  - intros. reflexivity.
  - intros. reflexivity.
Qed.

(** ** Provider selection *)

Lemma find_pointwise (A : Type) (f g : A -> bool) (l : list A) :
  (forall a, f a = g a) -> find f l = find g l.
Proof.
  intros E. induction l as [|a l IH]; simpl; [reflexivity|].
  rewrite E, IH. reflexivity.
Qed.

Lemma available_set_current (env : Env) (svc : AIService) (p q : jstr) :
  isProviderAvailable env (set_currentProvider p svc) q
  = isProviderAvailable env svc q.
Proof. reflexivity. Qed.

Lemma detect_loop_find (env : Env) (svc : AIService) (ps : list jstr) (p : jstr) :
  find (isProviderAvailable env svc) ps = Some p ->
  detect_loop env svc ps = set_currentProvider p svc.
Proof.
  induction ps as [|q ps IH]; simpl; [discriminate|].
  destruct (isProviderAvailable env svc q).
  - intros H. injection H as ->. reflexivity.
  - exact IH.
Qed.

Lemma detect_loop_keeps (env : Env) (svc : AIService) (ps : list jstr) :
  find (isProviderAvailable env svc) ps = None ->
  detect_loop env svc ps = svc.
Proof.
  induction ps as [|q ps IH]; simpl; [reflexivity|].
  destruct (isProviderAvailable env svc q); [discriminate|exact IH].
Qed.

Lemma simulation_available (env : Env) (svc : AIService) :
  isProviderAvailable env svc (js "simulation") = true.
Proof. reflexivity. Qed.

Lemma priority_has_available (env : Env) (svc : AIService) :
  exists p, find (isProviderAvailable env svc) priority = Some p.
Proof.
  destruct (find (isProviderAvailable env svc) priority) as [p|] eqn:Hf.
  - exists p. reflexivity.
  - exfalso.
    assert (Hin : In (js "simulation") priority) by (simpl; tauto).
    pose proof (find_none _ _ Hf _ Hin) as Hn.
    rewrite simulation_available in Hn. discriminate.
Qed.

(** C7: for every credential configuration the constructor scans the
    priority list openai, claude, groq, huggingface, simulation in
    order and makes the first available provider the current one; the
    simulation provider is always available and is in the list, so a
    provider is always selected, and it is one of the five. *)
Theorem C7_provider_selection (env : Env) :
  providers (constructor env)
  = [ js "openai"; js "claude"; js "groq"; js "huggingface"; js "simulation" ]
  /\ (forall svc, isProviderAvailable env svc (js "simulation") = true)
  /\ find (isProviderAvailable env (constructor env)) (providers (constructor env))
     = Some (currentProvider (constructor env))
  /\ In (currentProvider (constructor env)) (providers (constructor env)).
Proof.
  unfold constructor, detectAvailableProvider. cbn [providers].
  set (svc0 := {| openaiKey := or_null (REACT_APP_OPENAI_API_KEY env);
                  claudeKey := or_null (REACT_APP_CLAUDE_API_KEY env);
                  huggingFaceKey := or_null (REACT_APP_HUGGINGFACE_API_KEY env);
                  providers := priority;
                  currentProvider := js "simulation" |}).
  destruct (priority_has_available env svc0) as [p Hp].
  rewrite (detect_loop_find _ _ _ _ Hp).
  assert (Hfind : find (isProviderAvailable env (set_currentProvider p svc0)) priority
                  = Some p).
  { rewrite <- Hp. apply find_pointwise. intros q. apply available_set_current. }
  split; [reflexivity|]. split; [intros; reflexivity|]. split.
  - exact Hfind.
  - cbn [providers set_currentProvider currentProvider svc0].
    apply (find_some _ _ Hp).
Qed.

(** ** The matcher on a run of a class *)

Lemma star_loop_S (A : Type) (body : mstate -> (mstate -> option A) -> option A)
    (k : mstate -> option A) (n : nat) (st0 : mstate) :
  star_loop body k (S n) st0 =
  match body st0
          (fun st1 =>
             if Nat.ltb (length (rest st1)) (length (rest st0))
             then star_loop body k n st1 else None) with
  | Some a => Some a
  | None => k st0
  end.
Proof. reflexivity. Qed.

Lemma rmatch_cls_cons (A : Type) (fl : flags) (p : char -> bool)
    (b : option char) (x : char) (s : jstr) (c : list (nat * jstr))
    (k : mstate -> option A) :
  rmatch fl (Cls p) {| before := b; rest := x :: s; caps := c |} k =
  if p x then k {| before := Some x; rest := s; caps := c |} else None.
Proof. reflexivity. Qed.

Lemma star_cls_accepts (fl : flags) (p : char -> bool) (n : nat) :
  forall (b : option char) (s : jstr) (c : list (nat * jstr)),
    length s <= n ->
    exists b',
      star_loop (rmatch fl (Cls p)) (fun st => Some st) n
        {| before := b; rest := s; caps := c |}
      = Some {| before := b'; rest := dropWhile p s; caps := c |}.
Proof.
  induction n as [|n IH]; intros b s c Hlen.
  - destruct s; [|simpl in Hlen; lia]. exists b. reflexivity.
  - destruct s as [|x s'].
    + exists b. reflexivity.
    + rewrite star_loop_S, rmatch_cls_cons. cbn [dropWhile].
      destruct (p x) eqn:Hp.
      * cbn [rest length].
        assert (Hlt : Nat.ltb (length s') (S (length s')) = true)
          by (apply Nat.ltb_lt; lia).
        rewrite Hlt.
        destruct (IH (Some x) s' c) as [b' Hb']; [simpl in Hlen; lia|].
        rewrite Hb'. exists b'. reflexivity.
      * exists b. reflexivity.
Qed.

Lemma length_take_drop (p : char -> bool) (s : jstr) :
  length (takeWhile p s) + length (dropWhile p s) = length s.
Proof.
  induction s as [|c s IH]; simpl; [reflexivity|].
  destruct (p c); simpl; lia.
Qed.

Lemma rmatch_Seq (A : Type) (fl : flags) (r1 r2 : regex) (st : mstate)
    (k : mstate -> option A) :
  rmatch fl (Seq r1 r2) st k = rmatch fl r1 st (fun st1 => rmatch fl r2 st1 k).
Proof. reflexivity. Qed.

Lemma rmatch_Star (A : Type) (fl : flags) (r : regex) (st : mstate)
    (k : mstate -> option A) :
  rmatch fl (Star r) st k = star_loop (rmatch fl r) k (length (rest st)) st.
Proof. reflexivity. Qed.

Lemma exec_plus_cls (fl : flags) (p : char -> bool) (prev : option char) (s : jstr) :
  exec fl (Plus (Cls p)) prev s = run_matcher p prev s.
Proof.
  unfold exec, Plus, run_matcher. destruct s as [|c s']; [reflexivity|].
  rewrite rmatch_Seq, rmatch_cls_cons. destruct (p c); [|reflexivity].
  rewrite rmatch_Star. cbn [rest].
  destruct (star_cls_accepts fl p (length s') (Some c) s' [] (le_n _)) as [b' Hb'].
  rewrite Hb'. cbn [rest caps]. f_equal. f_equal.
  pose proof (length_take_drop p s'). cbn [length]. lia.
Qed.

(** Matchers that agree everywhere split and replace alike. *)
Lemma split_go_ext (m1 m2 : matcher) :
  (forall prev s, m1 prev s = m2 prev s) ->
  forall s skip cur prev, split_go m1 skip cur prev s = split_go m2 skip cur prev s.
Proof.
  intros E. induction s as [|c s IH]; intros skip cur prev; [reflexivity|].
  simpl. destruct skip; [|apply IH].
  rewrite E. destruct (m2 prev (c :: s)) as [fd|]; [|apply IH].
  destruct (span fd); [destruct cur|]; rewrite ?IH; reflexivity.
Qed.

Lemma split_by_ext (m1 m2 : matcher) (s : jstr) :
  (forall prev s, m1 prev s = m2 prev s) ->
  split_by m1 s = split_by m2 s.
Proof.
  intros E. destruct s as [|c s]; [simpl; rewrite E; reflexivity|].
  unfold split_by. apply split_go_ext. exact E.
Qed.

Lemma replace_go_ext (m1 m2 : matcher) (f : jstr -> list (nat * jstr) -> jstr) :
  (forall prev s, m1 prev s = m2 prev s) ->
  forall s skip prev, replace_go m1 f skip prev s = replace_go m2 f skip prev s.
Proof.
  intros E. induction s as [|c s IH]; intros skip prev; simpl.
  - rewrite E. reflexivity.
  - destruct skip; [|apply IH].
    rewrite E. destruct (m2 prev (c :: s)) as [fd|]; [|rewrite IH; reflexivity].
    destruct (span fd); rewrite IH; reflexivity.
Qed.

Lemma split_re_plus_cls (fl : flags) (p : char -> bool) (s : jstr) :
  split_re fl (Plus (Cls p)) s = split_by (run_matcher p) s.
Proof.
  unfold split_re. apply split_by_ext. intros. apply exec_plus_cls.
Qed.

(** ** Splitting on runs of a class *)

Lemma split_go_nonempty (m : matcher) (s : jstr) :
  forall skip cur prev, split_go m skip cur prev s <> [].
Proof.
  induction s as [|c s IH]; intros skip cur prev; simpl; [discriminate|].
  destruct skip; [|apply IH].
  destruct (m prev (c :: s)) as [fd|]; [|apply IH].
  destruct (span fd); [destruct cur|]; try discriminate. apply IH.
Qed.

(** Inside a separator: the units still to skip are passed over. *)
Lemma split_go_skip (m : matcher) (a : jstr) :
  forall (s : jstr) (prev : option char),
    exists prev',
      split_go m (length a) [] prev (a ++ s) = split_go m 0 [] prev' s.
Proof.
  induction a as [|c a IH]; intros s prev.
  - exists prev. reflexivity.
  - simpl. destruct (a ++ s) eqn:E.
    + destruct a; [|discriminate]. simpl in E. subst s.
      destruct (IH [] (Some c)) as [prev' H]. exists prev'. simpl in *. exact H.
    + rewrite <- E. apply IH.
Qed.

Section Runs.

(** The class whose runs separate the pieces. *)
Variable p : char -> bool.

Lemma split_run_nonempty (s : jstr) : split_by (run_matcher p) s <> [].
Proof.
  destruct s as [|c s]; [simpl; discriminate|].
  unfold split_by. apply split_go_nonempty.
Qed.

Lemma split_by_run (s : jstr) :
  split_by (run_matcher p) s = split_go (run_matcher p) 0 [] None s.
Proof. destruct s; reflexivity. Qed.

Lemma split_go_run_prev (s : jstr) :
  forall skip cur prev prev',
    split_go (run_matcher p) skip cur prev s
    = split_go (run_matcher p) skip cur prev' s.
Proof.
  destruct s as [|c s]; intros skip cur prev prev'; [reflexivity|].
  simpl. destruct skip; reflexivity.
Qed.

(** Units outside the class are collected into the current piece. *)
Lemma split_go_copy (a : jstr) :
  forall (s cur : jstr) (prev prev' : option char),
    none_of p a = true ->
    split_go (run_matcher p) 0 cur prev (a ++ s)
    = split_go (run_matcher p) 0 (rev a ++ cur) prev' s.
Proof.
  induction a as [|c a IH]; intros s cur prev prev' Ha.
  - apply split_go_run_prev.
  - simpl in Ha. apply andb_true_iff in Ha. destruct Ha as [Hc Ha].
    apply negb_true_iff in Hc.
    simpl. rewrite Hc. rewrite (IH s (c :: cur) (Some c) prev' Ha).
    rewrite <- app_assoc. reflexivity.
Qed.

Lemma take_drop_while (s : jstr) : takeWhile p s ++ dropWhile p s = s.
Proof.
  induction s as [|c s IH]; simpl; [reflexivity|].
  destruct (p c); simpl; [rewrite IH|]; reflexivity.
Qed.

(** A unit of the class closes the current piece, and the whole run it
    starts is the separator. *)
Lemma split_go_sep (c : char) (s cur : jstr) (prev prev' : option char) :
  p c = true ->
  split_go (run_matcher p) 0 cur prev (c :: s)
  = rev cur :: split_go (run_matcher p) 0 [] prev' (dropWhile p s).
Proof.
  intros Hc. simpl. rewrite Hc. cbn [span]. f_equal.
  rewrite <- (take_drop_while s) at 2.
  destruct (split_go_skip (run_matcher p) (takeWhile p s) (dropWhile p s) (Some c))
    as [q Hq].
  rewrite Hq. apply split_go_run_prev.
Qed.

Lemma none_of_app (a b : jstr) :
  none_of p (a ++ b) = none_of p a && none_of p b.
Proof. apply forallb_app. Qed.

Lemma none_of_rev (a : jstr) : none_of p (rev a) = none_of p a.
Proof.
  induction a as [|c a IH]; [reflexivity|].
  simpl. rewrite none_of_app, IH. simpl. rewrite andb_true_r. apply andb_comm.
Qed.

Lemma none_of_dropWhile (q : char -> bool) (a : jstr) :
  none_of p a = true -> none_of p (dropWhile q a) = true.
Proof.
  induction a as [|c a IH]; intros H; simpl; [reflexivity|].
  destruct (q c); [|exact H].
  simpl in H. apply andb_true_iff in H. apply IH. tauto.
Qed.

Lemma none_of_trim (a : jstr) :
  none_of p a = true -> none_of p (trim a) = true.
Proof.
  intros H. unfold trim. rewrite none_of_rev.
  apply none_of_dropWhile. rewrite none_of_rev.
  apply none_of_dropWhile. exact H.
Qed.

(** No piece of a split contains a unit of the separator class. *)
Lemma split_go_pieces (s : jstr) :
  forall skip cur prev,
    none_of p cur = true ->
    Forall (fun piece => none_of p piece = true)
           (split_go (run_matcher p) skip cur prev s).
Proof.
  induction s as [|c s IH]; intros skip cur prev Hcur.
  - simpl. constructor; [|constructor]. rewrite none_of_rev. exact Hcur.
  - simpl. destruct skip; [|apply IH; reflexivity].
    destruct (p c) eqn:Hc.
    + cbn [span]. constructor; [rewrite none_of_rev; exact Hcur|].
      apply IH. reflexivity.
    + apply IH. simpl. rewrite Hc. exact Hcur.
Qed.

End Runs.

Lemma sentences_pieces (t : jstr) :
  Forall (fun s => none_of is_term s = true /\ nonblank s = true) (sentences t).
Proof.
  unfold sentences. rewrite split_re_plus_cls, split_by_run.
  pose proof (split_go_pieces is_term t 0 [] None eq_refl) as H.
  induction H as [|x l Hx Hl IH]; simpl; [constructor|].
  destruct (nonblank x) eqn:Hn; [constructor; [split; assumption|exact IH]|exact IH].
Qed.

(** ** Blank strings and [trim] *)

Lemma existsb_rev (f : char -> bool) (l : jstr) :
  existsb f (rev l) = existsb f l.
Proof.
  induction l as [|c l IH]; [reflexivity|].
  simpl. rewrite existsb_app, IH. simpl. rewrite orb_false_r. apply orb_comm.
Qed.

Lemma nonempty_rev (l : jstr) :
  match rev l with [] => false | _ :: _ => true end
  = match l with [] => false | _ :: _ => true end.
Proof.
  destruct l as [|c l]; [reflexivity|].
  simpl. destruct (rev l); reflexivity.
Qed.

Lemma nonempty_dropWhile (l : jstr) :
  match dropWhile is_space l with [] => false | _ :: _ => true end
  = existsb (fun c => negb (is_space c)) l.
Proof.
  induction l as [|c l IH]; [reflexivity|].
  simpl. destruct (is_space c); [exact IH|reflexivity].
Qed.

Lemma existsb_dropWhile (l : jstr) :
  existsb (fun c => negb (is_space c)) (dropWhile is_space l)
  = existsb (fun c => negb (is_space c)) l.
Proof.
  induction l as [|c l IH]; [reflexivity|].
  simpl. destruct (is_space c) eqn:Hc; [exact IH|].
  simpl. rewrite Hc. reflexivity.
Qed.

(** A string is blank unless some unit of it is not white space. *)
Lemma nonblank_spec (s : jstr) :
  nonblank s = existsb (fun c => negb (is_space c)) s.
Proof.
  unfold nonblank, trim.
  rewrite nonempty_rev, nonempty_dropWhile, existsb_rev, existsb_dropWhile.
  reflexivity.
Qed.

Lemma nonblank_trim (s : jstr) : nonblank (trim s) = nonblank s.
Proof.
  rewrite !nonblank_spec. unfold trim.
  rewrite existsb_rev, existsb_dropWhile, existsb_rev, existsb_dropWhile.
  reflexivity.
Qed.

Lemma nonblank_space (s : jstr) : nonblank (SPACE :: s) = nonblank s.
Proof. rewrite !nonblank_spec. reflexivity. Qed.

(** ** shortenText *)

Lemma filter_index_firstn (k : nat) (l : list jstr) :
  forall j, filter_index (fun i => Nat.ltb i k) j l = firstn (k - j) l.
Proof.
  induction l as [|a l IH]; intros j; simpl.
  - destruct (k - j); reflexivity.
  - destruct (Nat.ltb j k) eqn:Hjk.
    + apply Nat.ltb_lt in Hjk. rewrite IH.
      replace (k - j) with (S (k - S j)) by lia. reflexivity.
    + apply Nat.ltb_ge in Hjk. rewrite IH.
      replace (k - j) with 0 by lia. replace (k - S j) with 0 by lia.
      destruct l; reflexivity.
Qed.

Lemma Forall_firstn_keep (A : Type) (P : A -> Prop) (n : nat) (l : list A) :
  Forall P l -> Forall P (firstn n l).
Proof.
  intros H. revert n. induction H as [|a l Ha Hl IH]; intros [|n]; simpl;
    constructor; auto.
Qed.

Lemma ceil_0_7_spec (n : nat) :
  7 * n <= 10 * ceil_0_7 n < 7 * n + 10.
Proof.
  unfold ceil_0_7.
  pose proof (Nat.div_mod_eq (7 * n + 9) 10) as E.
  pose proof (Nat.mod_upper_bound (7 * n + 9) 10) as B.
  lia.
Qed.

(** The pieces of [t1. t2. ... tk.] when no [ti] holds a terminator. *)
Lemma split_joined (ts : list jstr) :
  forall (t cur : jstr) (prev : option char),
    Forall (fun s => none_of is_term s = true) (t :: ts) ->
    split_go (run_matcher is_term) 0 cur prev
      (join (js ". ") (t :: ts) ++ js ".")
    = (rev cur ++ t) :: map (cons SPACE) ts ++ [[]].
Proof.
  induction ts as [|t2 ts IH]; intros t cur prev Hall.
  - inversion Hall as [|? ? Ht _]; subst.
    cbn [join map app].
    rewrite (split_go_copy is_term t (js ".") cur prev None Ht).
    change (js ".") with [46%N].
    rewrite (split_go_sep is_term 46%N [] (rev t ++ cur) None None eq_refl).
    rewrite rev_app_distr, rev_involutive. reflexivity.
  - inversion Hall as [|? ? Ht Hrest]; subst.
    change (join (js ". ") (t :: t2 :: ts))
      with (t ++ js ". " ++ join (js ". ") (t2 :: ts)).
    rewrite <- !app_assoc.
    rewrite (split_go_copy is_term t _ cur prev None Ht).
    change (js ". ") with [46%N; SPACE].
    cbn [app].
    rewrite (split_go_sep is_term 46%N _ (rev t ++ cur) None None eq_refl).
    rewrite rev_app_distr, rev_involutive.
    cbn [dropWhile]. change (is_term SPACE) with false. cbv iota.
    change (SPACE :: join [46%N; SPACE] (t2 :: ts) ++ js ".")
      with ([SPACE] ++ (join (js ". ") (t2 :: ts) ++ js ".")).
    rewrite (split_go_copy is_term [SPACE] _ [] None None eq_refl).
    cbn [rev app].
    rewrite (IH t2 [SPACE] None Hrest). reflexivity.
Qed.

Lemma filter_nonblank_spaced (ts : list jstr) :
  Forall (fun s => nonblank s = true) ts ->
  filter nonblank (map (cons SPACE) ts ++ [[]]) = map (cons SPACE) ts.
Proof.
  induction 1 as [|t ts Ht Hts IH]; [reflexivity|].
  cbn [map app filter]. rewrite nonblank_space, Ht, IH. reflexivity.
Qed.

(** Shortened text read again: as many sentences as were joined. *)
Lemma sentences_joined (ts : list jstr) :
  Forall (fun s => none_of is_term s = true /\ nonblank s = true) ts ->
  length (sentences (join (js ". ") ts ++ js ".")) = length ts.
Proof.
  intros Hall. destruct ts as [|t ts]; [reflexivity|].
  unfold sentences. rewrite split_re_plus_cls, split_by_run.
  assert (Hn : Forall (fun s => none_of is_term s = true) (t :: ts)).
  { eapply Forall_impl; [|exact Hall]. simpl. tauto. }
  assert (Hb : Forall (fun s => nonblank s = true) (t :: ts)).
  { eapply Forall_impl; [|exact Hall]. simpl. tauto. }
  rewrite (split_joined ts t [] None Hn).
  cbn [rev app filter].
  inversion Hb as [|? ? Ht Hts]; subst. rewrite Ht.
  rewrite (filter_nonblank_spaced ts Hts). cbn [length]. rewrite length_map.
  reflexivity.
Qed.

Lemma trimmed_sentences (t : jstr) :
  Forall (fun s => none_of is_term s = true /\ nonblank s = true)
         (map trim (sentences t)).
Proof.
  apply Forall_map. eapply Forall_impl; [|apply sentences_pieces].
  intros s [Hn Hb]. split; [apply none_of_trim; exact Hn|].
  rewrite nonblank_trim. exact Hb.
Qed.

(** C2: with at most one sentence [shortenText] returns its input; with
    N > 1 sentences it returns the first ceil(0.7 N) of them, in order,
    trimmed, joined with ". " and closed with "."; read again, the
    result has exactly ceil(0.7 N) sentences (N itself when N <= 1);
    [ceil_0_7] is the ceiling of 7N/10; four sentences give three, as
    the meeting notes of the specification do. *)
Theorem C2_shorten_keeps_ceil_70_percent (t : jstr) :
  let ss := sentences t in
  let N := length ss in
  let k := ceil_0_7 N in
  (shortenText t =
     if Nat.leb N 1 then t
     else join (js ". ") (firstn k (map trim ss)) ++ js ".")
  /\ length (firstn k (map trim ss)) = (if Nat.leb N 1 then N else k)
  /\ length (sentences (shortenText t)) = (if Nat.leb N 1 then N else k)
  /\ 7 * N <= 10 * k < 7 * N + 10
  /\ ceil_0_7 4 = 3
  /\ length (sentences meeting_notes) = 4
  /\ shortenText meeting_notes
     = js "The meeting went well. We discussed the budget. Everyone agreed to the plan."
  /\ length (sentences (shortenText meeting_notes)) = 3.
Proof.
  intros ss N k.
  pose proof (ceil_0_7_spec N) as Hk. fold k in Hk.
  assert (Hshort : shortenText t =
                   if Nat.leb N 1 then t
                   else join (js ". ") (firstn k (map trim ss)) ++ js ".").
  { unfold shortenText. fold ss. fold N. fold k.
    destruct (Nat.leb N 1); [reflexivity|].
    rewrite filter_index_firstn, Nat.sub_0_r. reflexivity. }
  assert (Hlen : length (firstn k (map trim ss)) = if Nat.leb N 1 then N else k).
  { rewrite length_firstn, length_map. fold N.
    destruct (Nat.leb N 1) eqn:HN.
    - apply Nat.leb_le in HN. lia.
    - lia. }
  split; [exact Hshort|]. split; [exact Hlen|]. split.
  - rewrite Hshort. destruct (Nat.leb N 1) eqn:HN; [reflexivity|].
    rewrite sentences_joined; [exact Hlen|].
    apply Forall_firstn_keep. apply trimmed_sentences.
  - split; [exact Hk|]. repeat split; vm_compute; reflexivity.
Qed.

(** ** convertToTable *)

(** The rows the [forEach] of [convertToTable] appends, from index [i]. *)
Lemma forEach_row_concat (ss : list jstr) :
  forall (i : nat) (table : jstr),
    forEach_row i ss table
    = table ++ concat (map (fun x => table_row (fst x) (snd x))
                           (combine (seq i (length ss)) ss)).
Proof.
  induction ss as [|s ss IH]; intros i table; simpl.
  - rewrite app_nil_r. reflexivity.
  - rewrite IH, <- app_assoc. reflexivity.
Qed.



(** ** The edit entry point *)

Lemma summarizeText_ok (t : jstr) : exists e, summarizeText t = Ok e.
Proof.
  unfold summarizeText.
  destruct (Nat.leb _ 20); [eexists; reflexivity|].
  rewrite (split_re_plus_cls fl_g is_term).
  destruct (split_by (run_matcher is_term) t) eqn:E.
  - exfalso. exact (split_run_nonempty is_term t E).
  - eexists. reflexivity.
Qed.

Lemma edit_switch_ok (h : Host) (ty sel cp : jstr) :
  exists edited msg, edit_switch h ty sel cp = Ok (edited, msg).
Proof.
  unfold edit_switch.
  repeat match goal with
         | |- context [if ?b then _ else _] => destruct b
         end;
    try (eexists; eexists; reflexivity).
  destruct (summarizeText_ok sel) as [e He]. rewrite He.
  eexists; eexists; reflexivity.
Qed.

(** [getTextEdit] always resolves, and what it resolves with reports
    the selection and the requested type as they were passed. *)
Lemma getTextEdit_resolves (h : Host) (ty sel : jstr) (cp : option jstr) :
  exists edited msg,
    getTextEdit h ty sel cp
    = Resolved {| originalText := sel; editedText := edited;
                  edit_message := msg; editType := ty |}.
Proof.
  unfold getTextEdit.
  destruct (edit_switch_ok h ty sel (default_empty cp))
    as [edited [msg E]].
  rewrite E. exists edited, msg. reflexivity.
Qed.

(** C9: for every edit type, known or not, and every selection, the
    result [getTextEdit] resolves with has [originalText] equal to the
    selection passed in and [editType] equal to the type passed in. *)
Theorem C9_original_reported_unchanged (h : Host) (ty sel : jstr)
    (cp : option jstr) :
  exists r,
    getTextEdit h ty sel cp = Resolved r
    /\ originalText r = sel
    /\ editType r = ty.
Proof.
  destruct (getTextEdit_resolves h ty sel cp) as [edited [msg E]].
  eexists. split; [exact E|]. split; reflexivity.
Qed.

(** ** The simulation chat engine *)

Lemma random_index_lt (len : nat) (d : draw) :
  0 < len -> random_index len d < len.
Proof.
  intros Hlen. unfold random_index.
  apply Nat.Div0.div_lt_upper_bound. nia.
Qed.

Lemma canned_response_defined (d : draw) :
  nth_error responses (random_index (length responses) d) <> None.
Proof.
  apply nth_error_Some. apply random_index_lt. simpl. lia.
Qed.

(** Every turn of the simulation is well formed. *)
Lemma simulateAIResponse_valid (h : Host) (msg doc : jstr) (d : draw) :
  valid_turn (simulateAIResponse h msg doc d) = true.
Proof.
  unfold simulateAIResponse.
  destruct (asks_improve _); [reflexivity|].
  destruct (asks_add _); [reflexivity|].
  destruct (asks_summary _); [destruct (trim doc); reflexivity|].
  destruct (asks_format _); [reflexivity|].
  unfold valid_turn. cbn [message action newContent].
  pose proof (canned_response_defined d) as Hd.
  destruct (nth_error responses _); [reflexivity|contradiction].
Qed.

(** C10: a message whose lower-cased text asks for a summary (and hits
    none of the triggers tried before it), sent while the document is
    empty or white space only, is answered with action [chat] and no
    [newContent]; no [modify] turn comes back, so the caller leaves the
    document alone. *)
Theorem C10_summary_of_blank_document (h : Host) (msg doc : jstr) (d : draw) :
  asks_summary (toLowerCase h msg) = true ->
  asks_improve (toLowerCase h msg) = false ->
  asks_add (toLowerCase h msg) = false ->
  trim doc = [] ->
  simulateAIResponse h msg doc d
  = {| action := chat; message := Some nothing_to_summarize; newContent := None |}
  /\ action (simulateAIResponse h msg doc d) <> modify
  /\ newContent (simulateAIResponse h msg doc d) = None.
Proof.
  intros Hs Hi Ha Hd.
  assert (E : simulateAIResponse h msg doc d
              = {| action := chat; message := Some nothing_to_summarize;
                   newContent := None |}).
  { unfold simulateAIResponse. rewrite Hi, Ha, Hs, Hd. reflexivity. }
  rewrite E. split; [reflexivity|]. split; [discriminate|reflexivity].
Qed.

Lemma C10_witness :
  simulateAIResponse plainHost (js "Please summarize this") (js "   ")
    {| dnum := 0; dgap := 0 |}
  = {| action := chat; message := Some nothing_to_summarize; newContent := None |}.
Proof.
  apply (C10_summary_of_blank_document plainHost (js "Please summarize this")
           (js "   ") {| dnum := 0; dgap := 0 |});
    vm_compute; reflexivity.
Defined.

(** ** The entry points *)

Lemma getChatResponse_never_rejects (h : Host) (net : Network) (svc : AIService)
    (msg : jstr) (doc : option jstr) (d1 d2 : draw) (e : thrown) :
  getChatResponse h net svc msg doc d1 d2 <> Rejected e.
Proof.
  unfold getChatResponse. destruct (callAI _ _ _ _ _ _ _); discriminate.
Qed.

(** C1: [getChatResponse] never rejects, whatever the network does;
    when the call through the active provider fails, for any reason,
    it resolves with the turn of the simulation chat engine, which is a
    well-formed [ChatTurn]; and [getTextEdit] resolves, for every edit
    type, selection and instruction, with a result whose [editedText]
    is a string. *)
Theorem C1_entry_points_never_reject (h : Host) (net : Network) (svc : AIService)
    (msg : jstr) (doc : option jstr) (d1 d2 : draw) :
  (forall e, getChatResponse h net svc msg doc d1 d2 <> Rejected e)
  /\ (forall e,
        callAI h net svc msg (default_empty doc) (js "chat") d1 = Rejected e ->
        getChatResponse h net svc msg doc d1 d2
        = Resolved (Turn (simulateAIResponse h msg (default_empty doc) d2))
        /\ valid_turn (simulateAIResponse h msg (default_empty doc) d2) = true)
  /\ (forall (ty sel : jstr) (cp : option jstr),
        exists edited msg',
          getTextEdit h ty sel cp
          = Resolved {| originalText := sel; editedText := edited;
                        edit_message := msg'; editType := ty |}).
Proof.
  split; [|split].
  - intros e. apply getChatResponse_never_rejects.
  - intros e He. split; [|apply simulateAIResponse_valid].
    unfold getChatResponse. fold (default_empty doc). rewrite He. reflexivity.
  - intros ty sel cp. apply getTextEdit_resolves.
Qed.

Lemma C1_witness :
  getChatResponse plainHost network_down (constructor env_openai)
    (js "hello") (Some (js "a draft")) {| dnum := 1; dgap := 2 |}
    {| dnum := 1; dgap := 2 |}
  = Resolved (Turn {| action := chat; message := nth_error responses 2;
                      newContent := None |}).
Proof.
  destruct (C1_entry_points_never_reject plainHost network_down
              (constructor env_openai) (js "hello") (Some (js "a draft"))
              {| dnum := 1; dgap := 2 |} {| dnum := 1; dgap := 2 |})
    as [_ [H _]].
  destruct (H (ProviderFailure 503) eq_refl) as [E _].
  rewrite E. vm_compute. reflexivity.
Defined.

(** ** The improve scenario *)


(** The toolbar's [improve] intent goes through [improveWriting], which
    has nothing to change in the same text. *)
Lemma improveWriting_cat_note (h : Host) :
  improveWriting h cat_note = cat_note.
Proof. vm_compute. reflexivity. Qed.



(** ** A custom edit without an instruction *)

Lemma customEdit_no_prompt (h : Host) (t : jstr) :
  customEdit h t [] = improveWriting h t.
Proof. reflexivity. Qed.

(** C6 as stated fails: with the custom intent and an empty instruction
    [getTextEdit] still rewrites the selection; "stuff" comes back as
    "material". *)
Lemma C6_counterexample :
  ~ (forall (h : Host) (t : jstr) (cp : option jstr),
        cp = None \/ cp = Some [] ->
        exists r,
          getTextEdit h (js "custom") t cp = Resolved r /\ editedText r = t).
Proof.
  intros H.
  destruct (H plainHost (js "stuff") (Some []) (or_intror eq_refl)) as [r [E Er]].
  vm_compute in E. injection E as <-. vm_compute in Er. discriminate.
Qed.

(** C6, amended: with the custom intent and an empty or omitted
    instruction nothing fails.  The handlers of the interface make no
    call to the service: [handleEditWithAI] opens the preview with an
    empty suggestion, and the Generate handler ignores a blank prompt.
    [getTextEdit] itself, called with such an instruction, resolves
    with the selection put through [improveWriting], the default of
    [customEdit]. *)
Theorem C6_custom_without_instruction (h : Host) (st : AppState) (t : jstr)
    (cp : option jstr) :
  cp = None \/ cp = Some [] ->
  getTextEdit h (js "custom") t cp
  = Resolved {| originalText := t;
                editedText := improveWriting h t;
                edit_message := js "Custom edit applied: ";
                editType := js "custom" |}
  /\ snd (handleEditWithAI h st (js "custom") t) = []
  /\ aiSuggestion (fst (handleEditWithAI h st (js "custom") t)) = []
  /\ isAiLoading (fst (handleEditWithAI h st (js "custom") t)) = isAiLoading st
  /\ (forall p, trim p = [] -> modal_handleCustomEdit h st p = (st, [])).
Proof.
  intros Hcp. split; [|split; [|split; [|split]]].
  - destruct Hcp as [-> | ->]; reflexivity.
  - reflexivity.
  - reflexivity.
  - reflexivity.
  - intros p Hp. unfold modal_handleCustomEdit. rewrite Hp. reflexivity.
Qed.

Lemma C6_witness :
  getTextEdit plainHost (js "custom") (js "stuff") None
  = Resolved {| originalText := js "stuff";
                editedText := js "material";
                edit_message := js "Custom edit applied: ";
                editType := js "custom" |}.
Proof.
  destruct (C6_custom_without_instruction plainHost app_idle (js "stuff") None
              (or_introl eq_refl)) as [E _].
  rewrite E. vm_compute. reflexivity.
Defined.

(** ** Word-bounded, case-insensitive literals *)

Lemma canon_word (x : char) : is_word (canon x) = is_word x.
Proof.
  unfold canon, is_lower_az, in_range.
  destruct (N.leb 97 x) eqn:H1; [|reflexivity].
  destruct (N.leb x 122) eqn:H2; [|reflexivity].
  cbn [andb]. apply N.leb_le in H1. apply N.leb_le in H2.
  unfold is_word, in_range.
  assert (E1 : N.leb 65 (x - 32) = true) by (apply N.leb_le; lia).
  assert (E2 : N.leb (x - 32) 90 = true) by (apply N.leb_le; lia).
  assert (E3 : N.leb 97 x = true) by (apply N.leb_le; lia).
  assert (E4 : N.leb x 122 = true) by (apply N.leb_le; lia).
  rewrite E1, E2, E3, E4. cbn [andb]. rewrite !orb_true_r. reflexivity.
Qed.

Lemma canon_eq_word (a c : char) :
  N.eqb (canon a) (canon c) = true -> is_word a = is_word c.
Proof.
  intros H. apply N.eqb_eq in H.
  rewrite <- (canon_word a), <- (canon_word c), H. reflexivity.
Qed.

Lemma ci_eqb_sym (a b : jstr) : ci_eqb a b = ci_eqb b a.
Proof.
  revert b. induction a as [|x a IH]; intros [|y b]; simpl; try reflexivity.
  rewrite N.eqb_sym, IH. reflexivity.
Qed.

Lemma ci_prefix_length (p s : jstr) :
  ci_prefix p s = true -> length p <= length s.
Proof.
  revert s. induction p as [|a p IH]; intros [|x s] H; simpl in *;
    try discriminate; try lia.
  apply andb_true_iff in H. destruct H as [_ H]. apply IH in H. lia.
Qed.

Lemma length_skipn_sub (n : nat) (s : jstr) :
  n <= length s -> length s - length (skipn n s) = n.
Proof. intros H. rewrite length_skipn. lia. Qed.

(** The matcher on a literal: it passes over the pattern when the text
    starts with it, up to case. *)
Lemma rmatch_lits (A : Type) (p : jstr) :
  forall (b : option char) (s : jstr) (c : list (nat * jstr))
         (k : mstate -> option A),
    rmatch fl_gi (lits p) {| before := b; rest := s; caps := c |} k
    = if ci_prefix p s
      then k {| before := before_after b (firstn (length p) s);
                rest := skipn (length p) s; caps := c |}
      else None.
Proof.
  induction p as [|a p IH]; intros b s c k.
  - reflexivity.
  - destruct s as [|x s]; [reflexivity|].
    change (lits (a :: p)) with (Seq (Lit a) (lits p)).
    cbn [rmatch rest]. unfold char_eq. cbn [ignoreCase fl_gi ci_prefix].
    destruct (N.eqb (canon a) (canon x)); [|reflexivity].
    unfold step. cbn [caps andb]. rewrite IH. reflexivity.
Qed.

Lemma before_after_word (p : jstr) :
  forall (s : jstr) (b : option char),
    p <> [] ->
    ci_prefix p s = true ->
    is_word_opt (before_after b (firstn (length p) s)) = is_word (last p 0%N).
Proof.
  induction p as [|a p IH]; intros s b Hne H; [contradiction|].
  destruct s as [|x s]; [discriminate|].
  simpl in H. apply andb_true_iff in H. destruct H as [Hax H].
  destruct p as [|a' p].
  - cbn. symmetry. apply canon_eq_word. exact Hax.
  - change (last (a :: a' :: p) 0%N) with (last (a' :: p) 0%N).
    rewrite <- (IH s (Some x)); [reflexivity|discriminate|exact H].
Qed.

Lemma ci_prefix_head_word (p s : jstr) :
  wf_word p = true -> ci_prefix p s = true ->
  is_word_opt (hd_error s) = true.
Proof.
  destruct p as [|a p]; [discriminate|]. destruct s as [|x s]; [discriminate|].
  simpl. intros Hwf H.
  apply andb_true_iff in Hwf. apply andb_true_iff in H.
  destruct Hwf as [Ha _]. destruct H as [Hax _].
  rewrite <- (canon_eq_word a x Hax). exact Ha.
Qed.

Lemma wf_word_last (p : jstr) : wf_word p = true -> is_word (last p 0%N) = true.
Proof.
  destruct p as [|a p]; [discriminate|]. unfold wf_word.
  intros H. apply andb_true_iff in H. tauto.
Qed.

Lemma wf_word_nonempty (p : jstr) : wf_word p = true -> p <> [].
Proof. destruct p; [discriminate|discriminate]. Qed.

(** [exec] on [/\bp\b/gi] is the closed form. *)
Lemma exec_wordre (p : jstr) (prev : option char) (s : jstr) :
  wf_word p = true ->
  exec fl_gi (Seq Bnd (Seq (lits p) Bnd)) prev s = word_matcher p prev s.
Proof.
  intros Hwf. unfold exec, word_matcher, word_at, tail_at.
  rewrite rmatch_Seq. cbn [rmatch before rest].
  destruct (ci_prefix p s) eqn:Hp.
  - rewrite (ci_prefix_head_word p s Hwf Hp), xorb_true_r.
    destruct (negb (is_word_opt prev)); [|reflexivity].
    rewrite rmatch_lits, Hp. cbn [rmatch before rest].
    rewrite (before_after_word p s prev (wf_word_nonempty p Hwf) Hp).
    rewrite (wf_word_last p Hwf). unfold ends_here.
    destruct (is_word_opt (hd_error (skipn (length p) s))); [reflexivity|].
    cbn [xorb negb andb rest caps].
    rewrite (length_skipn_sub _ _ (ci_prefix_length p s Hp)).
    reflexivity.
  - rewrite andb_false_r.
    destruct (xorb _ _); [|reflexivity].
    rewrite rmatch_lits, Hp. reflexivity.
Qed.

Lemma replace_all_wordre (p r : string) (t : jstr) :
  wf_word (js p) = true ->
  replace_all fl_gi (wordre p) (js r) t = pass (js p) (js r) None t.
Proof.
  intros Hwf. unfold replace_all, replace_with, pass, wordre, text.
  apply replace_go_ext. intros prev s. apply exec_wordre. exact Hwf.
Qed.

(** ** One pass of a rule *)

(** Splits a boolean conjunction in a hypothesis into its conjuncts. *)
Ltac split_andb H :=
  repeat match type of H with
         | (_ && _) = true =>
             let H1 := fresh H in
             apply andb_true_iff in H; destruct H as [H H1]; try split_andb H1
         end.

Lemma replace_go_skip (m : matcher) (f : jstr -> list (nat * jstr) -> jstr)
    (a : jstr) :
  forall (s : jstr) (prev : option char),
    replace_go m f (length a) prev (a ++ s)
    = replace_go m f 0 (before_after prev a) s.
Proof.
  induction a as [|c a IH]; intros s prev; [reflexivity|].
  simpl. apply IH.
Qed.

Lemma tail_at_cons (a c : char) (p s : jstr) :
  tail_at (a :: p) (c :: s) = N.eqb (canon a) (canon c) && tail_at p s.
Proof. unfold tail_at. simpl. rewrite andb_assoc. reflexivity. Qed.

Lemma tail_at_nil (s : jstr) : tail_at [] s = ends_here s.
Proof. reflexivity. Qed.

Lemma word_at_tail (q : jstr) (prev : option char) (s : jstr) :
  word_at q prev s = true ->
  is_word_opt prev = false /\ tail_at q s = true
  /\ ends_here (skipn (length q) s) = true.
Proof.
  unfold word_at. intros H. split_andb H.
  apply negb_true_iff in H. split; [exact H|]. split; [exact H0|].
  unfold tail_at in H0. split_andb H0. exact H1.
Qed.

(** A match of a pattern covers a whole word of the text: the first
    word of the pattern is the first word of the text, up to case. *)
Lemma tail_at_first_word (p : jstr) :
  forall o, tail_at p o = true -> ci_eqb (first_word p) (first_word o) = true.
Proof.
  induction p as [|a p IH]; intros o H.
  - rewrite tail_at_nil in H. unfold ends_here in H.
    destruct o as [|c o]; [reflexivity|].
    simpl in H. apply negb_true_iff in H. unfold first_word. simpl.
    rewrite H. reflexivity.
  - destruct o as [|c o]; [discriminate|].
    rewrite tail_at_cons in H. split_andb H.
    unfold first_word. simpl. rewrite <- (canon_eq_word a c H).
    destruct (is_word a); [|reflexivity].
    simpl. rewrite H. apply IH. exact H0.
Qed.

Lemma first_word_app (x o : jstr) :
  ends_here o = true -> first_word (x ++ o) = first_word x.
Proof.
  intros Ho. unfold first_word. induction x as [|c x IH]; simpl.
  - destruct o as [|d o]; [reflexivity|].
    unfold ends_here in Ho. simpl in Ho. apply negb_true_iff in Ho.
    simpl. rewrite Ho. reflexivity.
  - destruct (is_word c); [rewrite IH|]; reflexivity.
Qed.

Lemma tail_at_head_word (p : jstr) (c : char) (o : jstr) :
  wf_word p = true -> tail_at p (c :: o) = true -> is_word c = true.
Proof.
  intros Hwf H. unfold tail_at in H. split_andb H.
  exact (ci_prefix_head_word p (c :: o) Hwf H).
Qed.

(** No match of [p] starts inside an inserted replacement. *)
Lemma nomatch_inserted (p : jstr) :
  wf_word p = true ->
  forall (x : jstr) (pw : bool) (o : jstr),
    avoids (first_word p) pw x = true ->
    ends_here o = true ->
    nomatch p (match x with [] => pw | _ :: _ => is_word (last x 0%N) end) o = true ->
    nomatch p pw (x ++ o) = true.
Proof.
  intros Hp. induction x as [|c x IH]; intros pw o Hav Ho Hn; [exact Hn|].
  simpl in Hav. split_andb Hav.
  change ((c :: x) ++ o) with (c :: (x ++ o)).
  cbn [nomatch]. apply andb_true_iff. split.
  - destruct pw; [reflexivity|]. simpl.
    destruct (tail_at p (c :: x ++ o)) eqn:Ht; [|reflexivity]. exfalso.
    pose proof (tail_at_head_word p c (x ++ o) Hp Ht) as Hw.
    pose proof (tail_at_first_word _ _ Ht) as Hfw.
    change (c :: x ++ o) with ((c :: x) ++ o) in Hfw.
    rewrite (first_word_app (c :: x) o Ho), ci_eqb_sym in Hfw.
    rewrite Hw, Hfw in Hav. discriminate.
  - apply IH; [exact Hav0|exact Ho|].
    destruct x as [|c' x]; exact Hn.
Qed.

Lemma nomatch_weaken (p : jstr) (pw : bool) (s : jstr) :
  nomatch p pw s = true -> nomatch p true s = true.
Proof.
  destruct s as [|c s]; [reflexivity|]. simpl.
  intros H. split_andb H. exact H0.
Qed.

Lemma nomatch_skipn (p : jstr) (n : nat) :
  forall (pw : bool) (s : jstr),
    nomatch p pw s = true -> nomatch p true (skipn n s) = true.
Proof.
  induction n as [|n IH]; intros pw s H.
  - exact (nomatch_weaken p pw s H).
  - destruct s as [|c s]; [reflexivity|].
    simpl in H. split_andb H.
    exact (IH (is_word c) s H0).
Qed.

Section OnePass.

(** The rule: pattern [q], replacement [r], both starting and ending
    with a word character, as every rule of the source does. *)
Variables q r : jstr.
Hypothesis Hq : wf_word q = true.
Hypothesis Hr : wf_word r = true.

Lemma word_at_nil (prev : option char) : word_at q prev [] = false.
Proof.
  destruct q as [|a q']; [discriminate|].
  unfold word_at, tail_at. simpl. apply andb_false_r.
Qed.

Lemma pass_nil (prev : option char) : pass q r prev [] = [].
Proof.
  unfold pass. simpl. unfold word_matcher.
  rewrite (word_at_nil prev). reflexivity.
Qed.

Lemma pass_miss (prev : option char) (c : char) (s : jstr) :
  word_at q prev (c :: s) = false ->
  pass q r prev (c :: s) = c :: pass q r (Some c) s.
Proof.
  intros H. unfold pass. simpl. unfold word_matcher. rewrite H. reflexivity.
Qed.

(** At a match the replacement is written and the pass resumes after
    the matched text, whose last unit is a word character. *)
Lemma pass_hit (prev : option char) (s : jstr) :
  word_at q prev s = true ->
  exists prev',
    is_word_opt prev' = true
    /\ pass q r prev s = r ++ pass q r prev' (skipn (length q) s).
Proof.
  intros H.
  assert (Hp : ci_prefix q s = true).
  { destruct (word_at_tail q prev s H) as [_ [Ht _]].
    unfold tail_at in Ht. split_andb Ht. exact Ht. }
  destruct s as [|c s]; [rewrite (word_at_nil prev) in H; discriminate|].
  exists (before_after prev (firstn (length q) (c :: s))). split.
  - rewrite (before_after_word q (c :: s) prev (wf_word_nonempty q Hq) Hp).
    apply wf_word_last. exact Hq.
  - pose proof (ci_prefix_length _ _ Hp) as Hlen.
    unfold pass. simpl replace_go. unfold word_matcher at 1. rewrite H.
    cbn [span groups]. f_equal.
    destruct q as [|a q']; [discriminate|].
    cbn [length] in *. cbn [firstn skipn].
    rewrite <- (firstn_skipn (length q') s) at 1.
    assert (E : length (firstn (length q') s) = length q')
      by (rewrite length_firstn; lia).
    rewrite <- E at 1. rewrite replace_go_skip. reflexivity.
Qed.

(** Where its pattern does not occur, a pass changes nothing. *)
Lemma pass_fixed (s : jstr) :
  forall prev, nomatch q (is_word_opt prev) s = true -> pass q r prev s = s.
Proof.
  induction s as [|c s IH]; intros prev H.
  - apply pass_nil.
  - simpl in H. split_andb H. apply negb_true_iff in H.
    rewrite pass_miss; [|exact H]. f_equal. apply IH. exact H0.
Qed.

Lemma ends_here_pass (prev : option char) (s : jstr) :
  ends_here s = true -> ends_here (pass q r prev s) = true.
Proof.
  intros H. destruct s as [|c s]; [rewrite pass_nil; reflexivity|].
  assert (Hm : word_at q prev (c :: s) = false).
  { destruct (word_at q prev (c :: s)) eqn:E; [|reflexivity].
    destruct (word_at_tail q prev (c :: s) E) as [_ [Ht _]].
    apply (tail_at_head_word q c s Hq) in Ht.
    unfold ends_here in H. simpl in H. rewrite Ht in H. discriminate. }
  rewrite pass_miss; [exact H|exact Hm].
Qed.

(** What follows a position in the output of a pass was there in the
    input, unless the replacement starts a word of the pattern. *)
Lemma pass_tail_stable :
  forall (p : jstr) (prev : option char) (s : jstr),
    avoids (first_word r) (is_word_opt prev) p = true ->
    tail_at p (pass q r prev s) = true ->
    tail_at p s = true.
Proof.
  induction p as [|a p IH]; intros prev s Hav H.
  - rewrite tail_at_nil in *. destruct s as [|c s]; [reflexivity|].
    destruct (word_at q prev (c :: s)) eqn:Hm.
    + destruct (pass_hit prev (c :: s) Hm) as [prev' [_ E]].
      rewrite E in H. destruct r as [|r0 r']; [discriminate|].
      unfold wf_word in Hr. split_andb Hr.
      unfold ends_here in H. simpl in H. rewrite Hr in H. discriminate.
    + rewrite pass_miss in H; [exact H|exact Hm].
  - destruct s as [|c s]; [rewrite pass_nil in H; discriminate|].
    destruct (word_at q prev (c :: s)) eqn:Hm.
    + exfalso.
      destruct (pass_hit prev (c :: s) Hm) as [prev' [_ E]].
      destruct (word_at_tail q prev (c :: s) Hm) as [Hprev [_ Hend]].
      rewrite E in H.
      pose proof (tail_at_first_word _ _ H) as Hfw.
      rewrite first_word_app in Hfw by (apply ends_here_pass; exact Hend).
      simpl in Hav. rewrite Hprev, Hfw in Hav.
      destruct r as [|r0 r']; [discriminate|].
      simpl in H. rewrite tail_at_cons in H. split_andb H.
      unfold wf_word in Hr. split_andb Hr.
      rewrite (canon_eq_word a r0 H), Hr in Hav. discriminate.
    + rewrite pass_miss in H; [|exact Hm].
      rewrite tail_at_cons in *. split_andb H.
      rewrite H. simpl. apply (IH (Some c) s); [|exact H0].
      simpl in Hav. split_andb Hav.
      simpl. rewrite <- (canon_eq_word a c H). exact Hav0.
Qed.

(** A pass leaves no match of its own pattern, and brings in no match
    of a pattern that had none, when pattern and replacement share no
    word. *)
Lemma pass_keeps_quiet (p : jstr) :
  wf_word p = true ->
  apart p r = true ->
  forall (n : nat) (s : jstr) (prev : option char),
    length s <= n ->
    p = q \/ nomatch p (is_word_opt prev) s = true ->
    nomatch p (is_word_opt prev) (pass q r prev s) = true.
Proof.
  intros Hp Hap. unfold apart in Hap. split_andb Hap.
  induction n as [|n IH]; intros s prev Hlen Hs.
  - destruct s; [|simpl in Hlen; lia]. rewrite pass_nil. reflexivity.
  - destruct s as [|c s]; [rewrite pass_nil; reflexivity|].
    destruct (word_at q prev (c :: s)) eqn:Hm.
    + destruct (pass_hit prev (c :: s) Hm) as [prev' [Hw' E]].
      destruct (word_at_tail q prev (c :: s) Hm) as [Hprev [Ht Hend]].
      rewrite E, Hprev.
      apply (nomatch_inserted p Hp).
      * exact Hap0.
      * apply ends_here_pass. exact Hend.
      * assert (G : nomatch p (is_word_opt prev')
                      (pass q r prev' (skipn (length q) (c :: s))) = true).
        { apply IH.
          - rewrite length_skipn. simpl in Hlen.
            pose proof (wf_word_nonempty q Hq). destruct q; [contradiction|].
            simpl. lia.
          - destruct Hs as [Hs|Hs]; [left; exact Hs|right].
            rewrite Hw'. exact (nomatch_skipn p _ _ _ Hs). }
        rewrite Hw' in G.
        destruct r as [|r0 r']; [discriminate|].
        rewrite (wf_word_last _ Hr). exact G.
    + rewrite pass_miss; [|exact Hm].
      cbn [nomatch]. apply andb_true_iff. split.
      * destruct (is_word_opt prev) eqn:Hprev; [reflexivity|]. simpl.
        destruct (tail_at p (c :: pass q r (Some c) s)) eqn:Ht; [|reflexivity].
        exfalso.
        rewrite <- (pass_miss prev c s Hm) in Ht.
        apply (pass_tail_stable p prev (c :: s)) in Ht;
          [|rewrite Hprev; exact Hap].
        destruct Hs as [Hs|Hs].
        -- subst p. unfold word_at in Hm. rewrite ?Hprev, Ht in Hm. discriminate.
        -- simpl in Hs. rewrite ?Hprev, Ht in Hs. discriminate.
      * apply (IH s (Some c)); [simpl in Hlen; lia|].
        destruct Hs as [Hs|Hs]; [left; exact Hs|right].
        simpl in Hs. split_andb Hs. exact Hs0.
Qed.

End OnePass.

(** ** Chains of rules *)

Lemma chain_ok_wf (todo : list (jstr * jstr)) :
  forall done, chain_ok done todo = true ->
  forall pr, In pr todo -> wf_word (fst pr) = true.
Proof.
  induction todo as [|[q r] todo IH]; intros done H pr Hin; [contradiction|].
  simpl in H. split_andb H.
  destruct Hin as [<-|Hin]; [exact H|].
  eapply IH; eassumption.
Qed.

Lemma replace_chain_pass (rules : list (string * string)) :
  (forall pr, In pr (js_rules rules) -> wf_word (fst pr) = true) ->
  forall t, replace_chain rules t = chain (js_rules rules) t.
Proof.
  unfold replace_chain, chain.
  induction rules as [|[p r] rules IH]; intros Hwf t; [reflexivity|].
  cbn [fold_left js_rules map fst snd].
  rewrite replace_all_wordre by (apply (Hwf (js p, js r)); left; reflexivity).
  apply IH. intros pr Hin. apply Hwf. right. exact Hin.
Qed.

(** After a chain, none of its patterns matches, nor any pattern that
    did not match before. *)
Lemma chain_quiets (todo : list (jstr * jstr)) :
  forall (done : list jstr) (t : jstr),
    chain_ok done todo = true ->
    forallb wf_word done = true ->
    quiet done t = true ->
    quiet (rev (map fst todo) ++ done) (chain todo t) = true.
Proof.
  induction todo as [|[q r] todo IH]; intros done t Hok Hwf Hqt; [exact Hqt|].
  cbn [chain_ok forallb] in Hok.
  apply andb_true_iff in Hok. destruct Hok as [Hok Hrest].
  apply andb_true_iff in Hok. destruct Hok as [Hok Hap].
  apply andb_true_iff in Hok. destruct Hok as [Hwq Hwr].
  apply andb_true_iff in Hap. destruct Hap as [Hapq Hapd].
  cbn [map fst rev]. rewrite <- app_assoc. cbn [app].
  unfold chain. cbn [fold_left fst snd]. fold (chain todo (pass q r None t)).
  apply IH.
  - exact Hrest.
  - simpl. rewrite Hwq. exact Hwf.
  - unfold quiet. cbn [forallb]. apply andb_true_iff. split.
    + apply (pass_keeps_quiet q r Hwq Hwr q Hwq Hapq (length t) t None (le_n _)).
      left. reflexivity.
    + apply forallb_forall. intros p Hin.
      apply (pass_keeps_quiet q r Hwq Hwr p
               (proj1 (forallb_forall _ _) Hwf p Hin)
               (proj1 (forallb_forall _ _) Hapd p Hin)
               (length t) t None (le_n _)).
      right. exact (proj1 (forallb_forall _ _) Hqt p Hin).
Qed.

Lemma chain_fixed (rules : list (jstr * jstr)) (t : jstr) :
  (forall pr, In pr rules ->
              wf_word (fst pr) = true /\ nomatch (fst pr) false t = true) ->
  chain rules t = t.
Proof.
  unfold chain. induction rules as [|[q r] rules IH]; intros H; [reflexivity|].
  cbn [fold_left fst snd].
  destruct (H (q, r) (or_introl eq_refl)) as [Hw Hn].
  rewrite (pass_fixed q r Hw t None Hn).
  apply IH. intros pr Hin. apply H. right. exact Hin.
Qed.

(** A chain whose replacements bring back no word of an earlier
    pattern, or of their own, changes nothing when applied again. *)
Lemma chain_idempotent (rules : list (jstr * jstr)) (t : jstr) :
  chain_ok [] rules = true ->
  chain rules (chain rules t) = chain rules t.
Proof.
  intros Hok. apply chain_fixed. intros pr Hin.
  split; [exact (chain_ok_wf rules [] Hok pr Hin)|].
  pose proof (chain_quiets rules [] t Hok eq_refl eq_refl) as Hqt.
  rewrite app_nil_r in Hqt. unfold quiet in Hqt.
  apply (proj1 (forallb_forall _ _) Hqt).
  apply -> in_rev. apply in_map. exact Hin.
Qed.

Lemma formal_rules_ok : chain_ok [] (js_rules formal_rules) = true.
Proof. vm_compute. reflexivity. Qed.

Lemma casual_rules_ok : chain_ok [] (js_rules casual_rules) = true.
Proof. vm_compute. reflexivity. Qed.

Lemma makeFormal_chain (x : jstr) : makeFormal x = chain (js_rules formal_rules) x.
Proof.
  unfold makeFormal. apply replace_chain_pass.
  exact (chain_ok_wf _ [] formal_rules_ok).
Qed.

Lemma makeCasual_chain (x : jstr) : makeCasual x = chain (js_rules casual_rules) x.
Proof.
  unfold makeCasual. apply replace_chain_pass.
  exact (chain_ok_wf _ [] casual_rules_ok).
Qed.

(** C4: [makeFormal] and [makeCasual] are idempotent: applied to its
    own output, each returns that output unchanged, for every input. *)
Theorem C4_formal_casual_idempotent (x : jstr) :
  makeFormal (makeFormal x) = makeFormal x
  /\ makeCasual (makeCasual x) = makeCasual x.
Proof.
  split.
  - rewrite !makeFormal_chain. apply chain_idempotent. exact formal_rules_ok.
  - rewrite !makeCasual_chain. apply chain_idempotent. exact casual_rules_ok.
Qed.

(** ** Worked examples

    The matcher, [split] and [replace] on inputs whose results in
    JavaScript are well known, and the transformations on short texts. *)

Example split_keeps_last_piece :
  split_re fl_g (Plus (Cls is_term)) (js "a.b!?c.") = [js "a"; js "b"; js "c"; []].
Proof. vm_compute. reflexivity. Qed.

Example split_of_empty_string :
  split_re fl_g (Plus (Cls is_term)) [] = [[]].
Proof. vm_compute. reflexivity. Qed.

Example split_on_empty_matches :
  split_re fl_g (Star (Lit (chr "x"))) (js "a,b") = [js "a"; js ","; js "b"].
Proof. vm_compute. reflexivity. Qed.

Example replace_on_empty_matches :
  replace_all fl_g (Star (Lit (chr "x"))) (js "-") (js "axxb") = js "-a--b-".
Proof. vm_compute. reflexivity. Qed.

Example replace_between_word_boundaries :
  replace_all fl_gi (wordre "can't") (js "cannot") (js "I CAN'T, can't. scan't can'tx")
  = js "I cannot, cannot. scan't can'tx".
Proof. vm_compute. reflexivity. Qed.

Example improveText_sample :
  improveText (js "  hello   world..  how are you??  i was  were here.")
  = js "Hello world. How are you? I were here.".
Proof. vm_compute. reflexivity. Qed.

Example improveWriting_sample :
  improveWriting plainHost (js "Very Good things, very odd stuff. I got a lot of thing")
  = js "exceptional elements, very odd material. I obtained numerous element".
Proof. vm_compute. reflexivity. Qed.

Example lengthenText_sample :
  lengthenText plainHost (js "This is Good. It is nice.")
  = js "this particular aspect is excellent and well-executed. Furthermore, It is pleasant and appealing. This demonstrates the complexity and importance of the matter at hand.".
Proof. vm_compute. reflexivity. Qed.

Example makeFormal_sample :
  makeFormal (js "I think you guys can't, maybe. Kind of okay")
  = js "It is my opinion that you individuals cannot, perhaps. somewhat acceptable".
Proof. vm_compute. reflexivity. Qed.

Example makeCasual_sample :
  makeCasual (js "It is my opinion that you individuals cannot, perhaps.")
  = js "I think you people can't, maybe.".
Proof. vm_compute. reflexivity. Qed.

Example convertToTable_sample :
  convertToTable (js "The meeting went well. We discussed the budget!")
  = js "| Item | Description |" ++ [LF]
    ++ js "|------|-------------|" ++ [LF]
    ++ js "| 1 | The meeting went well |" ++ [LF]
    ++ js "| 2 | We discussed the budget |" ++ [LF].
Proof. vm_compute. reflexivity. Qed.

Example convertToList_sample :
  convertToList (js "One. Two")
  = [BULLET; SPACE] ++ js "One" ++ [LF] ++ [BULLET; SPACE] ++ js "Two".
Proof. vm_compute. reflexivity. Qed.

Example formatDocument_sample :
  formatDocument (js "Title here" ++ [LF] ++ js "- item one" ++ [LF] ++ js "x.Y")
  = js "# Title here" ++ [LF] ++ [BULLET; SPACE] ++ js "item one" ++ [LF] ++ js "x. Y".
Proof. vm_compute. reflexivity. Qed.

Example constructor_with_openai_key :
  currentProvider (constructor env_openai) = js "openai".
Proof. vm_compute. reflexivity. Qed.

Example constructor_without_keys :
  currentProvider
    (constructor {| REACT_APP_OPENAI_API_KEY := None;
                    REACT_APP_CLAUDE_API_KEY := Some [];
                    REACT_APP_HUGGINGFACE_API_KEY := None;
                    REACT_APP_GROQ_API_KEY := None |})
  = js "simulation".
Proof. vm_compute. reflexivity. Qed.

Example chat_falls_back_when_network_is_down :
  getChatResponse plainHost network_down (constructor env_openai)
    (js "fix grammar please") (Some cat_note)
    {| dnum := 0; dgap := 0 |} {| dnum := 0; dgap := 0 |}
  = Resolved (Turn {| action := modify;
                      message := Some (js "I've improved the grammar and style of your document!");
                      newContent := Some (js "I think the cat is nice.") |}).
Proof. vm_compute. reflexivity. Qed.

(** * Further properties *)

(** ** The matcher reports words of the pattern *)

Lemma caps_ok_set_cap (P : nat -> jstr -> Prop) (n : nat) (from to : mstate)
    (w : jstr) :
  rest from = w ++ rest to ->
  P n w ->
  caps_ok P (caps to) ->
  caps_ok P (caps (set_cap n from to)).
Proof.
  intros E Hw Hc. unfold set_cap, caps_ok. cbn [caps].
  constructor; [|exact Hc]. cbn [fst snd].
  rewrite E, length_app, Nat.add_sub, firstn_app, Nat.sub_diag, firstn_all.
  cbn [firstn]. rewrite app_nil_r. exact Hw.
Qed.

Section Soundness.

Variable fl : flags.
Variable P : nat -> jstr -> Prop.

Lemma star_loop_sound (A : Type) (r : regex) :
  (forall (st : mstate) (k : mstate -> option A) (a : A),
      rmatch fl r st k = Some a -> @reaches fl P A r st k a) ->
  forall (n : nat) (st : mstate) (k : mstate -> option A) (a : A),
    star_loop (rmatch fl r) k n st = Some a -> @reaches fl P A (Star r) st k a.
Proof.
  intros IHr. induction n as [|n IHn]; intros st k a H.
  - exists st, []. repeat split; auto. apply L_star_nil.
  - rewrite star_loop_S in H.
    destruct (rmatch fl r st _) as [a'|] eqn:E.
    + injection H as ->.
      destruct (IHr _ _ _ E) as [st1 [w1 [E1 [L1 [C1 K1]]]]].
      destruct (Nat.ltb (length (rest st1)) (length (rest st))); [|discriminate].
      destruct (IHn _ _ _ K1) as [st2 [w2 [E2 [L2 [C2 K2]]]]].
      exists st2, (w1 ++ w2). repeat split.
      * rewrite E1, E2, app_assoc. reflexivity.
      * apply L_star_cons; assumption.
      * auto.
      * exact K2.
    + exists st, []. repeat split; auto. apply L_star_nil.
Qed.

Lemma rmatch_sound (A : Type) (r : regex) :
  groups_in P fl r ->
  forall (st : mstate) (k : mstate -> option A) (a : A),
    rmatch fl r st k = Some a -> @reaches fl P A r st k a.
Proof.
  induction r as [|c|p|r1 IH1 r2 IH2|r1 IH1 r2 IH2|r1 IH1|n r1 IH1| | |];
    intros G st k a H.
  - exists st, []. repeat split; auto. apply L_eps.
  - cbn [rmatch] in H. destruct st as [b s c0]. cbn [rest] in *.
    destruct s as [|x s]; [discriminate|].
    destruct (char_eq fl c x) eqn:E; [|discriminate].
    exists (step x s {| before := b; rest := x :: s; caps := c0 |}), [x].
    repeat split; auto. apply L_lit. exact E.
  - cbn [rmatch] in H. destruct st as [b s c0]. cbn [rest] in *.
    destruct s as [|x s]; [discriminate|].
    destruct (p x) eqn:E; [|discriminate].
    exists (step x s {| before := b; rest := x :: s; caps := c0 |}), [x].
    repeat split; auto. apply L_cls. exact E.
  - destruct G as [G1 G2]. rewrite rmatch_Seq in H.
    destruct (IH1 G1 _ _ _ H) as [st1 [w1 [E1 [L1 [C1 K1]]]]].
    destruct (IH2 G2 _ _ _ K1) as [st2 [w2 [E2 [L2 [C2 K2]]]]].
    exists st2, (w1 ++ w2). repeat split.
    + rewrite E1, E2, app_assoc. reflexivity.
    + apply L_seq; assumption.
    + auto.
    + exact K2.
  - destruct G as [G1 G2]. cbn [rmatch] in H.
    destruct (rmatch fl r1 st k) as [a'|] eqn:E.
    + injection H as ->.
      destruct (IH1 G1 _ _ _ E) as [st1 [w1 [E1 [L1 [C1 K1]]]]].
      exists st1, w1. repeat split; auto. apply L_alt_l. exact L1.
    + destruct (IH2 G2 _ _ _ H) as [st1 [w1 [E1 [L1 [C1 K1]]]]].
      exists st1, w1. repeat split; auto. apply L_alt_r. exact L1.
  - rewrite rmatch_Star in H.
    apply (star_loop_sound A r1 (IH1 G) _ _ _ _ H).
  - destruct G as [Gn G1]. cbn [rmatch] in H.
    destruct (IH1 G1 _ _ _ H) as [st1 [w1 [E1 [L1 [C1 K1]]]]].
    exists (set_cap n st st1), w1. repeat split.
    + exact E1.
    + apply L_grp. exact L1.
    + intros Hc. apply (caps_ok_set_cap P n st st1 w1 E1 (Gn w1 L1) (C1 Hc)).
    + exact K1.
  - cbn [rmatch] in H. destruct (xorb _ _); [|discriminate].
    exists st, []. repeat split; auto. apply L_bnd.
  - cbn [rmatch] in H.
    assert (K : k st = Some a).
    { destruct (before st); [destruct (_ && _); [exact H|discriminate]|exact H]. }
    exists st, []. repeat split; auto. apply L_bol.
  - cbn [rmatch] in H.
    assert (K : k st = Some a).
    { destruct (rest st); [exact H|destruct (_ && _); [exact H|discriminate]]. }
    exists st, []. repeat split; auto. apply L_eol.
Qed.

(** A reported match is a word of the pattern at the start of the
    text, and its captures are words of their groups. *)
Lemma exec_sound (r : regex) (prev : option char) (s : jstr) (fd : found) :
  groups_in P fl r ->
  exec fl r prev s = Some fd ->
  span fd <= length s
  /\ lang fl r (firstn (span fd) s)
  /\ caps_ok P (groups fd).
Proof.
  intros G H. unfold exec in H.
  destruct (rmatch fl r _ _) as [st|] eqn:E; [|discriminate].
  injection H as <-. cbn [span groups].
  destruct (rmatch_sound mstate r G _ _ _ E) as [st' [w [E1 [L1 [C1 K1]]]]].
  injection K1 as ->. cbn [rest caps] in *.
  rewrite E1, length_app, Nat.add_sub.
  split; [lia|]. split.
  - rewrite firstn_app, Nat.sub_diag, firstn_all. cbn [firstn].
    rewrite app_nil_r. exact L1.
  - apply C1. constructor.
Qed.

End Soundness.

(** ** Global replace, match by match *)

Lemma exec_bounded (fl : flags) (r : regex) (prev : option char) (s : jstr)
    (fd : found) :
  exec fl r prev s = Some fd -> span fd <= length s.
Proof.
  unfold exec. destruct (rmatch fl r _ _); [|discriminate].
  intros H. injection H as <-. cbn [span]. lia.
Qed.

Lemma before_after_cons (prev : option char) (c : char) (a : jstr) :
  before_after prev (c :: a) = before_after (Some c) a.
Proof. reflexivity. Qed.

(** [replace_go] produces what [Replaced] describes, for a matcher
    whose matches lie within the text. *)
Lemma replace_go_Replaced (m : matcher) (f : jstr -> list (nat * jstr) -> jstr) :
  (forall prev s fd, m prev s = Some fd -> span fd <= length s) ->
  forall (n : nat) (s : jstr) (prev : option char),
    length s <= n ->
    Replaced m f prev s (replace_go m f 0 prev s).
Proof.
  intros Hb. induction n as [|n IH]; intros s prev Hn.
  - destruct s; [|simpl in Hn; lia]. simpl.
    destruct (m prev []) eqn:E; [apply Rp_end_match|apply Rp_end]; exact E.
  - destruct s as [|c s].
    + simpl. destruct (m prev []) eqn:E; [apply Rp_end_match|apply Rp_end]; exact E.
    + simpl in Hn. cbn [replace_go].
      destruct (m prev (c :: s)) as [fd|] eqn:E.
      * destruct (span fd) as [|k] eqn:Ek.
        -- eapply Rp_empty; [exact E|exact Ek|]. apply IH. lia.
        -- pose proof (Hb _ _ _ E) as Hle. rewrite Ek in Hle. cbn [length] in Hle.
           rewrite <- Ek.
           replace (replace_go m f k (Some c) s)
             with (replace_go m f 0 (before_after prev (firstn (span fd) (c :: s)))
                     (skipn (span fd) (c :: s))).
           ++ apply Rp_match; [exact E|lia|cbn [length]; lia|].
              apply IH. rewrite length_skipn. cbn [length]. lia.
           ++ rewrite Ek. cbn [firstn skipn]. rewrite before_after_cons.
              assert (Hk : length (firstn k s) = k) by (rewrite length_firstn; lia).
              pose proof (replace_go_skip m f (firstn k s) (skipn k s) (Some c)) as R.
              rewrite firstn_skipn, Hk in R. symmetry. exact R.
      * apply Rp_copy; [exact E|]. apply IH. lia.
Qed.

Lemma replace_with_Replaced (fl : flags) (r : regex)
    (f : jstr -> list (nat * jstr) -> jstr) (s : jstr) :
  Replaced (exec fl r) f None s (replace_with fl r f s).
Proof.
  unfold replace_with.
  apply (replace_go_Replaced (exec fl r) f (exec_bounded fl r) (length s)).
  apply le_n.
Qed.

Section PerMatch.

Variable m : matcher.
Variable f : jstr -> list (nat * jstr) -> jstr.

(** No replacement is shorter than what it replaces: the text does not
    shrink. *)
Lemma Replaced_length (prev : option char) (s o : jstr) :
  (forall prev s fd, m prev s = Some fd ->
                     span fd <= length (f (firstn (span fd) s) (groups fd))) ->
  Replaced m f prev s o -> length s <= length o.
Proof.
  intros Hf H. induction H as [| | prev c s o E _ IH | prev c s o fd E Ek _ IH
                              | prev s o fd E Hpos Hle _ IH].
  - apply le_n.
  - simpl. lia.
  - simpl. lia.
  - rewrite length_app. simpl. lia.
  - rewrite length_app. pose proof (Hf _ _ _ E) as Hm.
    rewrite length_skipn in IH. lia.
Qed.

(** No match gives way to the empty text: a text that is not empty
    stays so. *)
Lemma Replaced_nonempty (prev : option char) (s o : jstr) :
  (forall prev s fd, m prev s = Some fd -> 0 < span fd ->
                     f (firstn (span fd) s) (groups fd) <> []) ->
  Replaced m f prev s o -> s <> [] -> o <> [].
Proof.
  intros Hf H. destruct H as [| | prev c s o E _ | prev c s o fd E Ek _
                             | prev s o fd E Hpos Hle _]; intros Hs.
  - contradiction.
  - contradiction.
  - discriminate.
  - destruct (f [] (groups fd)); discriminate.
  - pose proof (Hf _ _ _ E Hpos) as Hm.
    destruct (f (firstn (span fd) s) (groups fd)); [contradiction|discriminate].
Qed.

(** A property of every unit of the text that every replacement has
    too holds of every unit of the result. *)
Lemma Replaced_forallb (q : char -> bool) (prev : option char) (s o : jstr) :
  (forall prev s fd, m prev s = Some fd ->
                     forallb q (f (firstn (span fd) s) (groups fd)) = true) ->
  Replaced m f prev s o -> forallb q s = true -> forallb q o = true.
Proof.
  intros Hf H. induction H as [| prev fd E | prev c s o E _ IH
                              | prev c s o fd E Ek _ IH
                              | prev s o fd E Hpos Hle _ IH]; intros Hs.
  - reflexivity.
  - pose proof (Hf _ _ _ E) as Hm. destruct (span fd); exact Hm.
  - simpl in *. apply andb_true_iff in Hs. destruct Hs as [Hc Hs].
    rewrite Hc. apply IH. exact Hs.
  - pose proof (Hf _ _ _ E) as Hm. rewrite Ek in Hm. cbn [firstn] in Hm.
    simpl in Hs. apply andb_true_iff in Hs. destruct Hs as [Hc Hs].
    rewrite forallb_app, Hm. simpl. rewrite Hc. apply IH. exact Hs.
  - rewrite forallb_app, (Hf _ _ _ E). simpl. apply IH.
    rewrite <- (firstn_skipn (span fd) s), forallb_app in Hs.
    apply andb_true_iff in Hs. tauto.
Qed.

End PerMatch.

(** ** Literals *)

Lemma lang_lits_length (fl : flags) (p : jstr) :
  forall w, lang fl (lits p) w -> length w = length p.
Proof.
  induction p as [|a p IH]; intros w H.
  - inversion H. reflexivity.
  - change (lits (a :: p)) with (Seq (Lit a) (lits p)) in H.
    inversion H as [| | |r1 r2 w1 w2 H1 H2| | | | | | | |]; subst.
    inversion H1; subst. simpl. f_equal. apply IH. exact H2.
Qed.

Lemma lang_lits_ci (p : jstr) :
  forall w, lang fl_gi (lits p) w -> ci_eqb p w = true.
Proof.
  induction p as [|a p IH]; intros w H.
  - inversion H. reflexivity.
  - change (lits (a :: p)) with (Seq (Lit a) (lits p)) in H.
    inversion H as [| | |r1 r2 w1 w2 H1 H2| | | | | | | |]; subst.
    inversion H1 as [|c x Hc| | | | | | | | | |]; subst.
    simpl. unfold char_eq in Hc. cbn [ignoreCase fl_gi] in Hc.
    rewrite Hc. apply IH. exact H2.
Qed.

Lemma lang_lits_exact (p : jstr) :
  forall w, lang fl_g (lits p) w -> w = p.
Proof.
  induction p as [|a p IH]; intros w H.
  - inversion H. reflexivity.
  - change (lits (a :: p)) with (Seq (Lit a) (lits p)) in H.
    inversion H as [| | |r1 r2 w1 w2 H1 H2| | | | | | | |]; subst.
    inversion H1 as [|c x Hc| | | | | | | | | |]; subst.
    unfold char_eq in Hc. cbn [ignoreCase fl_g] in Hc. apply N.eqb_eq in Hc.
    subst x. simpl. f_equal. apply IH. exact H2.
Qed.

(** A word between two boundaries: the boundaries add nothing. *)
Lemma lang_bounded (fl : flags) (r : regex) (w : jstr) :
  lang fl (Seq Bnd (Seq r Bnd)) w -> lang fl r w.
Proof.
  intros H.
  inversion H as [| | |r1 r2 w1 w2 H1 H2| | | | | | | |]; subst.
  inversion H1; subst.
  inversion H2 as [| | |r1 r2 w3 w4 H3 H4| | | | | | | |]; subst.
  inversion H4; subst. rewrite app_nil_r. exact H3.
Qed.

Lemma lower_char_of_canon (a x : char) :
  is_lower_az a = true ->
  N.eqb (canon a) (canon x) = true ->
  is_ascii x = true /\ lower_char x = a.
Proof.
  unfold canon, lower_char, is_lower_az, is_upper_AZ, is_ascii, in_range.
  intros Ha H. rewrite Ha in H. apply N.eqb_eq in H.
  apply andb_true_iff in Ha. destruct Ha as [Ha1 Ha2].
  apply N.leb_le in Ha1. apply N.leb_le in Ha2.
  destruct (N.leb 97 x) eqn:X1; destruct (N.leb x 122) eqn:X2;
    destruct (N.leb 65 x) eqn:X3; destruct (N.leb x 90) eqn:X4;
    cbn [andb] in *;
    repeat match goal with
           | H : N.leb _ _ = true |- _ => apply N.leb_le in H
           | H : N.leb _ _ = false |- _ => apply N.leb_gt in H
           end;
    (split; [apply N.ltb_lt; lia|lia]).
Qed.

Lemma lower_of_ci (p : jstr) :
  forallb is_lower_az p = true ->
  forall w, ci_eqb p w = true ->
            forallb is_ascii w = true /\ map lower_char w = p.
Proof.
  induction p as [|a p IH]; intros Hp [|x w] H; try discriminate.
  - split; reflexivity.
  - simpl in Hp, H. apply andb_true_iff in Hp. apply andb_true_iff in H.
    destruct Hp as [Ha Hp]. destruct H as [Hx H].
    destruct (lower_char_of_canon a x Ha Hx) as [A1 A2].
    destruct (IH Hp w H) as [B1 B2].
    simpl. rewrite A1, A2, B1, B2. split; reflexivity.
Qed.

(** A match of a lower-case literal under [/i] lower-cases to it. *)
Lemma toLowerCase_of_match (h : Host) (p w : jstr) :
  forallb is_lower_az p = true ->
  lang fl_gi (lits p) w ->
  toLowerCase h w = p.
Proof.
  intros Hp H. destruct (lower_of_ci p Hp w (lang_lits_ci p w H)) as [A B].
  unfold toLowerCase. rewrite A. exact B.
Qed.

(** ** lengthenText *)

Lemma span_is_length (fl : flags) (r : regex) (prev : option char) (s : jstr)
    (fd : found) :
  exec fl r prev s = Some fd -> length (firstn (span fd) s) = span fd.
Proof.
  intros H. pose proof (exec_bounded fl r prev s fd H). rewrite length_firstn. lia.
Qed.

Lemma groups_in_trivial (fl : flags) (r : regex) :
  groups_in (fun _ _ => True) fl r.
Proof.
  induction r; simpl; auto.
Qed.

(** A reported match is a word of the pattern. *)
Lemma exec_lang (fl : flags) (r : regex) (prev : option char) (s : jstr)
    (fd : found) :
  exec fl r prev s = Some fd -> lang fl r (firstn (span fd) s).
Proof.
  intros H.
  destruct (exec_sound fl (fun _ _ => True) r prev s fd (groups_in_trivial fl r) H)
    as [_ [L _]].
  exact L.
Qed.

(** Every match of [good|bad|nice|great] finds its expansion in the
    table, whatever its case. *)
Lemma expansion_found (h : Host) (w : jstr) :
  lang fl_gi (Seq Bnd (Seq (Grp 1 (Alt (text "good") (Alt (text "bad")
                               (Alt (text "nice") (text "great"))))) Bnd)) w ->
  exists v, In v (map snd expansions)
            /\ table_or h expansions (toLowerCase h w) w = v
            /\ length w < length v.
Proof.
  intros H. apply lang_bounded in H.
  inversion H as [| | | | | | | |n r w0 H1| | |]; subst.
  inversion H1 as [| | | |r1 r2 w0 Hg|r1 r2 w0 H2| | | | | |]; subst.
  - exists (js "excellent and well-executed").
    rewrite (toLowerCase_of_match h (js "good") w eq_refl Hg).
    rewrite (lang_lits_length _ _ _ Hg).
    split; [simpl; tauto|]. split; [reflexivity|]. vm_compute. lia.
  - inversion H2 as [| | | |r1 r2 w0 Hg|r1 r2 w0 H3| | | | | |]; subst.
    + exists (js "problematic and concerning").
      rewrite (toLowerCase_of_match h (js "bad") w eq_refl Hg).
      rewrite (lang_lits_length _ _ _ Hg).
      split; [simpl; tauto|]. split; [reflexivity|]. vm_compute. lia.
    + inversion H3 as [| | | |r1 r2 w0 Hg|r1 r2 w0 Hg| | | | | |]; subst.
      * exists (js "pleasant and appealing").
        rewrite (toLowerCase_of_match h (js "nice") w eq_refl Hg).
        rewrite (lang_lits_length _ _ _ Hg).
        split; [simpl; tauto|]. split; [reflexivity|]. vm_compute. lia.
      * exists (js "outstanding and remarkable").
        rewrite (toLowerCase_of_match h (js "great") w eq_refl Hg).
        rewrite (lang_lits_length _ _ _ Hg).
        split; [simpl; tauto|]. split; [reflexivity|]. vm_compute. lia.
Qed.

Lemma replace_all_longer (fl : flags) (r : regex) (by_ s : jstr) :
  (forall w, lang fl r w -> length w <= length by_) ->
  length s <= length (replace_all fl r by_ s).
Proof.
  intros Hw. unfold replace_all.
  apply (Replaced_length (exec fl r) (fun _ _ => by_) None s);
    [|apply replace_with_Replaced].
  intros prev s0 fd E.
  rewrite <- (span_is_length fl r prev s0 fd E).
  apply Hw. exact (exec_lang fl r prev s0 fd E).
Qed.

Lemma lengthenText_longer (h : Host) (t : jstr) :
  length t + 71 <= length (lengthenText h t).
Proof.
  unfold lengthenText. rewrite length_app.
  change (length (js " This demonstrates the complexity and importance of the matter at hand."))
    with 71.
  apply Nat.add_le_mono_r.
  eapply Nat.le_trans; [|apply replace_all_longer].
  - eapply Nat.le_trans; [|apply replace_all_longer].
    + eapply Replaced_length; cycle 1; [apply replace_with_Replaced|].
      intros prev s fd E. cbv beta.
      destruct (expansion_found h _ (exec_lang _ _ _ _ _ E)) as [v [_ [Ev Hv]]].
      rewrite Ev. rewrite (span_is_length _ _ _ _ _ E) in Hv. lia.
    + intros w Hw. unfold text in Hw.
      rewrite (lang_lits_length _ _ _ Hw). vm_compute. lia.
  - intros w Hw. apply lang_bounded in Hw. unfold text in Hw.
    rewrite (lang_lits_length _ _ _ Hw). vm_compute. lia.
Qed.

(** X1: [lengthenText] always lengthens: its result is at least 71
    code units longer than the text it was given (every substitution it
    makes is longer than what it replaces, and the closing sentence is
    appended). *)
Theorem X1_lengthenText_lengthens (h : Host) (t : jstr) :
  length t + 71 <= length (lengthenText h t).
Proof. apply lengthenText_longer. Qed.

(** ** The preview of a lengthened selection *)

Lemma jstr_eqb_length (a b : jstr) : jstr_eqb a b = true -> length a = length b.
Proof. intros H. apply jstr_eqb_eq in H. subst. reflexivity. Qed.

(** X2: for the lengthen intent the preview always labels the
    suggestion as lengthened: [handleEditWithAI] stores
    [lengthenText] of the selection as the suggestion, and the modal's
    diff of the original against it is never same, shortened or
    modified. *)
Theorem X2_lengthen_preview_label (h : Host) (st : AppState) (t : jstr) :
  let st' := fst (handleEditWithAI h st (js "lengthen") t) in
  aiSuggestion st' = lengthenText h t
  /\ app_originalText st' = t
  /\ modal_diff (app_originalText st') (aiSuggestion st')
     = Some (diff_lengthened, lengthenText h t).
Proof.
  assert (E : aiSuggestion (fst (handleEditWithAI h st (js "lengthen") t))
              = lengthenText h t) by reflexivity.
  assert (O : app_originalText (fst (handleEditWithAI h st (js "lengthen") t)) = t)
    by reflexivity.
  cbv zeta. rewrite E, O. split; [reflexivity|]. split; [reflexivity|].
  pose proof (lengthenText_longer h t) as L.
  unfold modal_diff. destruct (lengthenText h t) as [|c l] eqn:El;
    [simpl in L; lia|].
  f_equal. unfold getDiffHighlight.
  destruct (jstr_eqb t (c :: l)) eqn:Eq.
  - apply jstr_eqb_length in Eq. lia.
  - assert (A : Nat.ltb (length (c :: l)) (length t) = false)
      by (apply Nat.ltb_ge; lia).
    assert (B : Nat.ltb (length t) (length (c :: l)) = true)
      by (apply Nat.ltb_lt; lia).
    rewrite A, B. reflexivity.
Qed.

(** ** Sentences of the transformed text *)

Lemma shortenText_closed (t : jstr) :
  shortenText t =
  if Nat.leb (length (sentences t)) 1 then t
  else join (js ". ")
            (firstn (ceil_0_7 (length (sentences t))) (map trim (sentences t)))
       ++ js ".".
Proof.
  unfold shortenText. destruct (Nat.leb _ 1); [reflexivity|].
  rewrite filter_index_firstn, Nat.sub_0_r. reflexivity.
Qed.

Lemma shortenText_count (t : jstr) :
  length (sentences (shortenText t)) =
  if Nat.leb (length (sentences t)) 1 then length (sentences t)
  else ceil_0_7 (length (sentences t)).
Proof.
  rewrite shortenText_closed.
  destruct (Nat.leb (length (sentences t)) 1) eqn:HN; [reflexivity|].
  rewrite sentences_joined
    by (apply Forall_firstn_keep; apply trimmed_sentences).
  rewrite length_firstn, length_map.
  pose proof (ceil_0_7_spec (length (sentences t))). lia.
Qed.

(** X3: [shortenText] drops a sentence only from four sentences on: a
    text of at most three sentences comes back with as many sentences
    as it had, a longer one with fewer. *)
Theorem X3_shortenText_keeps_up_to_three (t : jstr) :
  Nat.eqb (length (sentences (shortenText t))) (length (sentences t))
  = Nat.leb (length (sentences t)) 3
  /\ length (sentences (shortenText t)) <= length (sentences t).
Proof.
  rewrite shortenText_count.
  pose proof (ceil_0_7_spec (length (sentences t))) as Hk.
  destruct (Nat.leb (length (sentences t)) 1) eqn:H1.
  - apply Nat.leb_le in H1. rewrite Nat.eqb_refl. split; [|lia].
    symmetry. apply Nat.leb_le. lia.
  - apply Nat.leb_gt in H1. split; [|lia].
    destruct (Nat.leb (length (sentences t)) 3) eqn:H3.
    + apply Nat.leb_le in H3. apply Nat.eqb_eq. lia.
    + apply Nat.leb_gt in H3. apply Nat.eqb_neq. lia.
Qed.

(** A text without sentence terminators is one sentence at most. *)
Lemma sentences_unterminated (s : jstr) :
  none_of is_term s = true -> length (sentences s) <= 1.
Proof.
  intros H. unfold sentences. rewrite split_re_plus_cls, split_by_run.
  rewrite <- (app_nil_r s) at 1.
  rewrite (split_go_copy is_term s [] [] None None H).
  cbn [split_go filter]. destruct (nonblank _); simpl; lia.
Qed.

Lemma dec_digits (d : Decimal.uint) :
  none_of is_term (js (NilEmpty.string_of_uint d)) = true.
Proof.
  induction d; simpl; try reflexivity; exact IHd.
Qed.

Lemma none_of_concat (p : char -> bool) (parts : list jstr) :
  Forall (fun s => none_of p s = true) parts ->
  none_of p (concat parts) = true.
Proof.
  induction 1 as [|x l Hx _ IH]; [reflexivity|].
  simpl. rewrite none_of_app, Hx, IH. reflexivity.
Qed.

Lemma none_of_join (p : char -> bool) (sep : jstr) (parts : list jstr) :
  none_of p sep = true ->
  Forall (fun s => none_of p s = true) parts ->
  none_of p (join sep parts) = true.
Proof.
  intros Hsep. induction 1 as [|x l Hx Hl IH]; [reflexivity|].
  destruct l as [|y l]; [exact Hx|].
  change (join sep (x :: y :: l)) with (x ++ sep ++ join sep (y :: l)).
  rewrite !none_of_app, Hx, Hsep, IH. reflexivity.
Qed.

Lemma table_rows_unterminated (ss : list jstr) :
  Forall (fun s => none_of is_term s = true /\ nonblank s = true) ss ->
  forall i,
    Forall (fun s => none_of is_term s = true)
           (map (fun x => table_row (fst x) (snd x)) (combine (seq i (length ss)) ss)).
Proof.
  induction 1 as [|s ss [Hs _] _ IH]; intros i; [constructor|].
  simpl. constructor; [|apply IH].
  unfold table_row, dec. rewrite !none_of_app, dec_digits.
  rewrite (none_of_trim is_term s Hs). reflexivity.
Qed.

(** X4: [convertToTable] leaves no sentence terminator in a text it
    converts, so applying it again changes nothing: it is idempotent. *)
Theorem X4_convertToTable_idempotent (t : jstr) :
  convertToTable (convertToTable t) = convertToTable t
  /\ (Nat.ltb (length (sentences t)) 2
      || none_of is_term (convertToTable t) = true).
Proof.
  assert (H : Nat.ltb (length (sentences t)) 2 = true /\ convertToTable t = t
              \/ Nat.ltb (length (sentences t)) 2 = false
                 /\ none_of is_term (convertToTable t) = true).
  { unfold convertToTable.
    destruct (Nat.ltb (length (sentences t)) 2); [left; auto|right].
    split; [reflexivity|].
    rewrite forEach_row_concat, none_of_app. apply andb_true_iff.
    split; [reflexivity|].
    apply none_of_concat. apply table_rows_unterminated. apply sentences_pieces. }
  destruct H as [[Hn E]|[Hn E]].
  - rewrite E, Hn. split; [exact E|reflexivity].
  - rewrite Hn, E. split; [|reflexivity].
    pose proof (sentences_unterminated _ E) as Hle.
    unfold convertToTable at 1.
    assert (L : Nat.ltb (length (sentences (convertToTable t))) 2 = true)
      by (apply Nat.ltb_lt; lia).
    rewrite L. reflexivity.
Qed.

(** X5: [convertToList] leaves no sentence terminator in a text it
    converts either, and is idempotent. *)
Theorem X5_convertToList_idempotent (t : jstr) :
  convertToList (convertToList t) = convertToList t
  /\ (Nat.ltb (length (sentences t)) 2
      || none_of is_term (convertToList t) = true).
Proof.
  assert (H : Nat.ltb (length (sentences t)) 2 = true /\ convertToList t = t
              \/ Nat.ltb (length (sentences t)) 2 = false
                 /\ none_of is_term (convertToList t) = true).
  { unfold convertToList.
    destruct (Nat.ltb (length (sentences t)) 2); [left; auto|right].
    split; [reflexivity|].
    apply none_of_join; [reflexivity|].
    apply Forall_map. eapply Forall_impl; [|apply sentences_pieces].
    intros s [Hs _]. cbn [none_of forallb].
    change (forallb (fun c => negb (is_term c)) (trim s)) with (none_of is_term (trim s)).
    rewrite (none_of_trim is_term s Hs). reflexivity. }
  destruct H as [[Hn E]|[Hn E]].
  - rewrite E, Hn. split; [exact E|reflexivity].
  - rewrite Hn, E. split; [|reflexivity].
    pose proof (sentences_unterminated _ E) as Hle.
    unfold convertToList at 1.
    assert (L : Nat.ltb (length (sentences (convertToList t))) 2 = true)
      by (apply Nat.ltb_lt; lia).
    rewrite L. reflexivity.
Qed.

(** ** What a chain leaves behind *)

Lemma nomatch_at (p : jstr) :
  wf_word p = true ->
  forall (a b : jstr) (prev : option char),
    nomatch p (is_word_opt prev) (a ++ b) = true ->
    word_at p (before_after prev a) b = false.
Proof.
  intros Hp. induction a as [|c a IH]; intros b prev H.
  - destruct b as [|c b]; [apply word_at_nil; exact Hp|].
    cbn [app nomatch] in H. apply andb_true_iff in H. destruct H as [H _].
    apply negb_true_iff in H. exact H.
  - cbn [app nomatch] in H. apply andb_true_iff in H. destruct H as [_ H].
    rewrite before_after_cons. apply (IH b (Some c)). exact H.
Qed.

Lemma chain_leaves_no_match (rules : list (string * string)) (x : jstr) (n : nat) :
  chain_ok [] (js_rules rules) = true ->
  no_rule_matches_at rules (chain (js_rules rules) x) n = true.
Proof.
  intros Hok. unfold no_rule_matches_at. apply forallb_forall. intros pr Hin.
  assert (Hin' : In (js (fst pr), js (snd pr)) (js_rules rules)).
  { unfold js_rules. apply (in_map (fun pr => (js (fst pr), js (snd pr)))). exact Hin. }
  pose proof (chain_ok_wf _ [] Hok _ Hin') as Hwf. cbn [fst] in Hwf.
  pose proof (chain_quiets (js_rules rules) [] x Hok eq_refl eq_refl) as Hq.
  rewrite app_nil_r in Hq. unfold quiet in Hq.
  assert (Hn : nomatch (js (fst pr)) false (chain (js_rules rules) x) = true).
  { apply (proj1 (forallb_forall _ _) Hq). apply -> in_rev.
    apply (in_map fst) in Hin'. exact Hin'. }
  unfold wordre, text. rewrite (exec_wordre _ _ _ Hwf). unfold word_matcher.
  rewrite <- (firstn_skipn n (chain (js_rules rules) x)) in Hn.
  rewrite (nomatch_at _ Hwf _ _ None Hn). reflexivity.
Qed.

(** X6: after [makeFormal] none of its nine informal phrases is left:
    at no offset of the result does [/\bcan't\b/gi], or the pattern of
    any other rule, match. *)
Theorem X6_makeFormal_leaves_no_informal_phrase (x : jstr) (n : nat) :
  no_rule_matches_at formal_rules (makeFormal x) n = true.
Proof.
  rewrite makeFormal_chain. apply chain_leaves_no_match. exact formal_rules_ok.
Qed.

(** X7: after [makeCasual] none of its nine formal phrases is left, at
    any offset of the result. *)
Theorem X7_makeCasual_leaves_no_formal_phrase (x : jstr) (n : nat) :
  no_rule_matches_at casual_rules (makeCasual x) n = true.
Proof.
  rewrite makeCasual_chain. apply chain_leaves_no_match. exact casual_rules_ok.
Qed.

(** ** The provider in use *)

Lemma truthy_or_null (v : option jstr) : truthy (or_null v) = truthy v.
Proof.
  unfold or_null. destruct (truthy v) eqn:E; [exact E|reflexivity].
Qed.

Lemma constructor_provider (env : Env) :
  currentProvider (constructor env) = chosen_provider env.
Proof.
  unfold constructor, detectAvailableProvider, chosen_provider.
  cbn [providers priority detect_loop].
  unfold isProviderAvailable.
  cbn [openaiKey claudeKey huggingFaceKey].
  rewrite !truthy_or_null.
  change (jstr_eqb (js "openai") (js "openai")) with true.
  change (jstr_eqb (js "claude") (js "openai")) with false.
  change (jstr_eqb (js "claude") (js "claude")) with true.
  change (jstr_eqb (js "groq") (js "openai")) with false.
  change (jstr_eqb (js "groq") (js "claude")) with false.
  change (jstr_eqb (js "groq") (js "huggingface")) with false.
  change (jstr_eqb (js "groq") (js "groq")) with true.
  change (jstr_eqb (js "huggingface") (js "openai")) with false.
  change (jstr_eqb (js "huggingface") (js "claude")) with false.
  change (jstr_eqb (js "huggingface") (js "huggingface")) with true.
  change (jstr_eqb (js "simulation") (js "openai")) with false.
  change (jstr_eqb (js "simulation") (js "claude")) with false.
  change (jstr_eqb (js "simulation") (js "huggingface")) with false.
  change (jstr_eqb (js "simulation") (js "groq")) with false.
  change (jstr_eqb (js "simulation") (js "simulation")) with true.
  cbv iota.
  destruct (truthy (REACT_APP_OPENAI_API_KEY env)); [reflexivity|].
  destruct (truthy (REACT_APP_CLAUDE_API_KEY env)); [reflexivity|].
  destruct (truthy (REACT_APP_GROQ_API_KEY env)); [reflexivity|].
  destruct (truthy (REACT_APP_HUGGINGFACE_API_KEY env)); reflexivity.
Qed.

(** X8: the constructor's choice read off the keys (a key that is the
    empty string counts as unset; groq ranks before huggingface), and
    what [callAI] then does: it hands the prompt to the adapter of the
    chosen provider, or answers from the simulation; the error for an
    unknown provider is never raised. *)
Theorem X8_callAI_uses_the_chosen_provider (h : Host) (net : Network) (env : Env)
    (msg doc ty : jstr) (d : draw) :
  currentProvider (constructor env) = chosen_provider env
  /\ callAI h net (constructor env) msg doc ty d =
     if truthy (REACT_APP_OPENAI_API_KEY env)
     then callOpenAI net (buildPrompt msg doc ty)
     else if truthy (REACT_APP_CLAUDE_API_KEY env)
     then callClaude net (buildPrompt msg doc ty)
     else if truthy (REACT_APP_GROQ_API_KEY env)
     then callGroq net (buildPrompt msg doc ty)
     else if truthy (REACT_APP_HUGGINGFACE_API_KEY env)
     then callHuggingFace net (buildPrompt msg doc ty)
     else if jstr_eqb ty (js "chat")
     then Resolved (Turn (simulateAIResponse h msg doc d))
     else match getTextEdit h msg doc None with
          | Resolved r => Resolved (Edit r)
          | Rejected e => Rejected e
          | Pending => Pending
          end.
Proof.
  split; [apply constructor_provider|].
  unfold callAI. rewrite constructor_provider. unfold chosen_provider.
  destruct (truthy (REACT_APP_OPENAI_API_KEY env)); [reflexivity|].
  destruct (truthy (REACT_APP_CLAUDE_API_KEY env)); [reflexivity|].
  destruct (truthy (REACT_APP_GROQ_API_KEY env)); [reflexivity|].
  destruct (truthy (REACT_APP_HUGGINGFACE_API_KEY env)); reflexivity.
Qed.

(** X9: without credentials the chat works offline: whatever the
    network would do, [getChatResponse] resolves with the turn of the
    simulation, and that turn is well formed. *)
Theorem X9_offline_chat (h : Host) (net : Network) (env : Env) (msg : jstr)
    (doc : option jstr) (d1 d2 : draw) :
  no_credentials env = true ->
  getChatResponse h net (constructor env) msg doc d1 d2
  = Resolved (Turn (simulateAIResponse h msg (default_empty doc) d1))
  /\ valid_turn (simulateAIResponse h msg (default_empty doc) d1) = true.
Proof.
  intros H. unfold no_credentials in H.
  apply andb_true_iff in H. destruct H as [H H4].
  apply andb_true_iff in H. destruct H as [H H3].
  apply andb_true_iff in H. destruct H as [H1 H2].
  apply negb_true_iff in H1, H2, H3, H4.
  split; [|apply simulateAIResponse_valid].
  unfold getChatResponse, callAI. rewrite constructor_provider.
  unfold chosen_provider. rewrite H1, H2, H3, H4. reflexivity.
Qed.

Lemma X9_witness :
  getChatResponse plainHost network_down (constructor env_empty_keys)
    (js "summarize") (Some (js "  ")) {| dnum := 0; dgap := 0 |}
    {| dnum := 0; dgap := 0 |}
  = Resolved (Turn {| action := chat; message := Some nothing_to_summarize;
                      newContent := None |}).
Proof.
  destruct (X9_offline_chat plainHost network_down env_empty_keys
              (js "summarize") (Some (js "  ")) {| dnum := 0; dgap := 0 |}
              {| dnum := 0; dgap := 0 |} eq_refl) as [E _].
  rewrite E. vm_compute. reflexivity.
Defined.

(** ** One-unit separators *)

Lemma exec_cls (fl : flags) (p : char -> bool) (prev : option char) (s : jstr) :
  exec fl (Cls p) prev s = char_matcher p prev s.
Proof.
  unfold exec, char_matcher. destruct s as [|x s]; [reflexivity|].
  cbn [rmatch rest]. destruct (p x); [|reflexivity].
  unfold step. cbn [rest caps length]. f_equal. f_equal. lia.
Qed.

Lemma exec_one_lit (c : char) (prev : option char) (s : jstr) :
  exec fl_g (lits [c]) prev s = char_matcher (N.eqb c) prev s.
Proof.
  unfold exec, char_matcher. destruct s as [|x s]; [reflexivity|].
  cbn [lits fold_right rmatch rest]. unfold char_eq. cbn [ignoreCase fl_g].
  destruct (N.eqb c x); [|reflexivity].
  unfold step. cbn [rest caps length]. f_equal. f_equal. lia.
Qed.

(** Splitting on a one-unit separator gives one piece more than there
    are separators. *)
Lemma split_go_char_count (p : char -> bool) (s : jstr) :
  forall cur prev,
    length (split_go (char_matcher p) 0 cur prev s) = S (count_if p s).
Proof.
  induction s as [|c s IH]; intros cur prev; [reflexivity|].
  cbn [split_go char_matcher count_if]. destruct (p c).
  - cbn [span length]. rewrite IH. reflexivity.
  - rewrite IH. reflexivity.
Qed.

Lemma split_str_count (c : char) (s : jstr) :
  length (split_str [c] s) = S (count_if (N.eqb c) s).
Proof.
  unfold split_str, split_re.
  rewrite (split_by_ext _ (char_matcher (N.eqb c)) s (exec_one_lit c)).
  destruct s as [|x s]; [reflexivity|].
  unfold split_by. apply split_go_char_count.
Qed.

(** X10: the word count in the summary the simulation appends is the
    number of space characters of the document plus one (each single
    space separates two "words", so runs of spaces and other white
    space are not what is counted), and the document itself is kept in
    front of the summary. *)
Theorem X10_summary_counts_spaces (h : Host) (msg doc : jstr) (d : draw) :
  asks_improve (toLowerCase h msg) = false ->
  asks_add (toLowerCase h msg) = false ->
  asks_summary (toLowerCase h msg) = true ->
  nonblank doc = true ->
  simulateAIResponse h msg doc d
  = {| action := modify;
       message := Some (js "I've added a summary to your document!");
       newContent :=
         Some (doc ++ summary_block (S (count_if (N.eqb SPACE) doc))) |}.
Proof.
  intros Hi Ha Hs Hd. unfold simulateAIResponse. rewrite Hi, Ha, Hs.
  unfold nonblank in Hd. destruct (trim doc) as [|c l]; [discriminate|].
  rewrite split_str_count. reflexivity.
Qed.

Lemma X10_witness :
  newContent (simulateAIResponse plainHost (js "summary please") (js "a  b")
                {| dnum := 0; dgap := 0 |})
  = Some (js "a  b" ++ summary_block 3).
Proof.
  rewrite (X10_summary_counts_spaces plainHost (js "summary please") (js "a  b")
             {| dnum := 0; dgap := 0 |} eq_refl eq_refl eq_refl eq_refl).
  reflexivity.
Defined.

(** ** The document between editor, chat and socket *)

Lemma last_cons_default (D : Type) (l : list D) (a d : D) :
  last (a :: l) d = last l a.
Proof.
  revert a. induction l as [|b l IH]; intros a; [reflexivity|].
  change (last (b :: l) d = last (b :: l) a). apply last_default.
Qed.

Lemma last_app_default (D : Type) (l1 l2 : list D) (d : D) :
  last (l1 ++ l2) d = last l2 (last l1 d).
Proof.
  revert d. induction l1 as [|a l1 IH]; intros d; [reflexivity|].
  change (last (a :: (l1 ++ l2)) d = last l2 (last (a :: l1) d)).
  rewrite !last_cons_default. apply IH.
Qed.

Section SessionFacts.

Variable D : Type.

Lemma session_document (evs : list (event D)) :
  forall s, s_document (session_run s evs) = last (all_writes evs) (s_document s).
Proof.
  induction evs as [|ev evs IH]; intros s; [reflexivity|].
  unfold session_run in *. cbn [fold_left]. rewrite IH.
  destruct ev as [html t|c|f|rs]; cbn [session_step all_writes].
  - rewrite last_cons_default. reflexivity.
  - rewrite last_cons_default. reflexivity.
  - rewrite last_app_default. cbn [s_document].
    rewrite <- (receive_last_stored D [f] (s_document s)). reflexivity.
  - reflexivity.
Qed.

Lemma session_documentText (evs : list (event D)) :
  forall s,
    s_documentText (session_run s evs) = last (editor_texts evs) (s_documentText s).
Proof.
  induction evs as [|ev evs IH]; intros s; [reflexivity|].
  unfold session_run in *. cbn [fold_left]. rewrite IH.
  destruct ev as [html t|c|f|rs]; cbn [session_step editor_texts]; try reflexivity.
  rewrite last_cons_default. reflexivity.
Qed.

Lemma session_sent (evs : list (event D)) :
  forall s,
    exists new,
      s_sent (session_run s evs) = s_sent s ++ new
      /\ Forall (fun m => type_ m = js "update" /\ In (data m) (local_writes evs)) new
      /\ length new <= length (local_writes evs).
Proof.
  induction evs as [|ev evs IH]; intros s.
  - exists []. rewrite app_nil_r. repeat split; [constructor|apply le_n].
  - unfold session_run in *. cbn [fold_left].
    destruct (IH (session_step s ev)) as [new [E [F L]]]. rewrite E.
    assert (Hup : forall c,
               exists new',
                 s_sent (updateDocument s c) ++ new = s_sent s ++ new'
                 /\ Forall (fun m => type_ m = js "update"
                                     /\ In (data m) (c :: local_writes evs)) new'
                 /\ length new' <= S (length (local_writes evs))).
    { intros c. unfold updateDocument. cbn [s_sent].
      assert (F' : Forall (fun m => type_ m = js "update"
                                    /\ In (data m) (c :: local_writes evs)) new).
      { eapply Forall_impl; [|exact F]. intros m [A B]. split; [exact A|right; exact B]. }
      destruct (socket_open s).
      - exists ({| type_ := js "update"; data := c |} :: new).
        rewrite <- app_assoc. split; [reflexivity|]. split.
        + constructor; [split; [reflexivity|left; reflexivity]|exact F'].
        + simpl. lia.
      - exists new. split; [reflexivity|]. split; [exact F'|lia]. }
    destruct ev as [html t|c|f|rs]; cbn [session_step local_writes].
    + exact (Hup html).
    + exact (Hup c).
    + exists new. cbn [s_sent]. auto.
    + exists new. cbn [s_sent]. auto.
Qed.

Lemma session_never_opened (evs : list (event D)) :
  forall s,
    socket_open s = false ->
    never_opened evs = true ->
    s_sent (session_run s evs) = s_sent s.
Proof.
  induction evs as [|ev evs IH]; intros s Hs Hn; [reflexivity|].
  unfold session_run in *. cbn [fold_left].
  destruct ev as [html t|c|f|rs]; cbn [never_opened] in Hn.
  - rewrite IH; [| |exact Hn].
    + cbn [session_step]. unfold handleEditorChange, updateDocument, socket_open.
      cbn [s_readyState s_sent]. unfold socket_open in Hs. rewrite Hs. reflexivity.
    + exact Hs.
  - rewrite IH; [| |exact Hn].
    + cbn [session_step]. unfold handleDocumentUpdate, updateDocument.
      rewrite Hs. reflexivity.
    + exact Hs.
  - rewrite IH; [reflexivity|exact Hs|exact Hn].
  - apply andb_true_iff in Hn. destruct Hn as [Hrs Hn].
    rewrite IH; [reflexivity| |exact Hn].
    unfold socket_open. cbn [session_step s_readyState].
    apply negb_true_iff. exact Hrs.
Qed.

End SessionFacts.

(** X11: through any sequence of editor changes, chat updates, inbound
    frames and socket state changes, [App] keeps these: the document is
    the last one written, locally or by an inbound init or update;
    [documentText] is the text of the last editor change, whatever
    arrived since; every message sent is an update carrying a locally
    written document, at most one per local write, so inbound data is
    never sent back; and when the socket never opens nothing is sent,
    neither at the time of an edit nor later. *)
Theorem X11_session_invariants (D : Type) (s : Session D) (evs : list (event D)) :
  s_document (session_run s evs) = last (all_writes evs) (s_document s)
  /\ s_documentText (session_run s evs)
     = last (editor_texts evs) (s_documentText s)
  /\ (exists new,
        s_sent (session_run s evs) = s_sent s ++ new
        /\ Forall (fun m => type_ m = js "update"
                            /\ In (data m) (local_writes evs)) new
        /\ length new <= length (local_writes evs))
  /\ (socket_open s = false -> never_opened evs = true ->
      s_sent (session_run s evs) = s_sent s).
Proof.
  split; [apply session_document|].
  split; [apply session_documentText|].
  split; [apply session_sent|].
  apply session_never_opened.
Qed.

Lemma X11_witness :
  s_sent (session_run session_start events_never_open) = []
  /\ s_document (session_run session_start events_never_open) = js "<p>improved</p>"
  /\ s_documentText (session_run session_start events_never_open) = js "draft".
Proof.
  destruct (X11_session_invariants jstr session_start events_never_open)
    as [Hd [Ht [_ Hs]]].
  rewrite (Hs eq_refl eq_refl), Hd, Ht. repeat split.
Defined.

(** ** One-unit patterns in closed form *)

Lemma exec_lit (c : char) (prev : option char) (s : jstr) :
  exec fl_g (Lit c) prev s = char_matcher (N.eqb c) prev s.
Proof.
  unfold exec, char_matcher. destruct s as [|x s]; [reflexivity|].
  cbn [rmatch rest]. unfold char_eq. cbn [ignoreCase fl_g].
  destruct (N.eqb c x); [|reflexivity].
  unfold step. cbn [rest caps length]. f_equal. f_equal. lia.
Qed.

Lemma replace_go_char (p : char -> bool) (by_ : jstr) (s : jstr) :
  forall prev,
    replace_go (char_matcher p) (fun _ _ => by_) 0 prev s = substitute p by_ s.
Proof.
  induction s as [|c s IH]; intros prev; [reflexivity|].
  cbn [replace_go char_matcher substitute flat_map]. destruct (p c).
  - cbn [span]. rewrite IH. reflexivity.
  - rewrite IH. reflexivity.
Qed.

Lemma replace_all_cls (fl : flags) (p : char -> bool) (by_ s : jstr) :
  replace_all fl (Cls p) by_ s = substitute p by_ s.
Proof.
  unfold replace_all, replace_with.
  rewrite (replace_go_ext _ (char_matcher p) _ (exec_cls fl p)).
  apply replace_go_char.
Qed.

Lemma replace_all_lit (c : char) (by_ s : jstr) :
  replace_all fl_g (Lit c) by_ s = substitute (N.eqb c) by_ s.
Proof.
  unfold replace_all, replace_with.
  rewrite (replace_go_ext _ (char_matcher (N.eqb c)) _ (exec_lit c)).
  apply replace_go_char.
Qed.

Lemma substitute_nil (p : char -> bool) (s : jstr) :
  substitute p [] s = filter (fun c => negb (p c)) s.
Proof.
  induction s as [|c s IH]; [reflexivity|].
  unfold substitute in *. cbn [flat_map filter]. rewrite IH.
  destruct (p c); reflexivity.
Qed.

Lemma filter_count (p : char -> bool) (s : jstr) :
  length (filter (fun c => negb (p c)) s) + count_if p s = length s.
Proof.
  induction s as [|c s IH]; [reflexivity|].
  cbn [filter count_if length]. destruct (p c); cbn [negb length]; lia.
Qed.

(** ** Document statistics *)

Lemma word_starts_dropWhile (s : jstr) :
  word_starts true (dropWhile is_space s) = word_starts true s.
Proof.
  induction s as [|c s IH]; [reflexivity|].
  cbn [dropWhile]. destruct (is_space c) eqn:E; [|reflexivity].
  cbn [word_starts]. rewrite E. exact IH.
Qed.

Lemma length_dropWhile (p : char -> bool) (s : jstr) :
  length (dropWhile p s) <= length s.
Proof.
  induction s as [|c s IH]; [apply le_n|].
  cbn [dropWhile]. destruct (p c); cbn [length]; lia.
Qed.

Lemma count_pieces (n : nat) :
  forall (s cur : jstr) (prev : option char),
    length s <= n ->
    length (filter (fun word => Nat.ltb 0 (length word))
              (split_go (run_matcher is_space) 0 cur prev s))
    = (match cur with [] => 0 | _ :: _ => 1 end)
      + word_starts (match cur with [] => true | _ :: _ => false end) s.
Proof.
  induction n as [|n IH]; intros s cur prev Hn.
  - destruct s; [|simpl in Hn; lia].
    cbn [split_go filter word_starts]. rewrite length_rev.
    destruct cur; reflexivity.
  - destruct s as [|c s].
    + cbn [split_go filter word_starts]. rewrite length_rev.
      destruct cur; reflexivity.
    + cbn [length] in Hn. destruct (is_space c) eqn:E.
      * rewrite (split_go_sep is_space c s cur prev None E).
        assert (Hd : length (dropWhile is_space s) <= n).
        { pose proof (length_dropWhile is_space s). lia. }
        pose proof (IH (dropWhile is_space s) [] None Hd) as R.
        rewrite word_starts_dropWhile in R. cbn [plus] in R.
        cbn [word_starts]. rewrite E, andb_false_r.
        cbn [filter]. rewrite length_rev.
        destruct cur as [|x cur]; cbn [length Nat.ltb Nat.leb];
          [exact R|exact (f_equal S R)].
      * cbn [split_go run_matcher]. rewrite E.
        rewrite (IH s (c :: cur) (Some c)) by lia.
        cbn [word_starts]. rewrite E. destruct cur; reflexivity.
Qed.

Lemma words_of_count (content : jstr) :
  length (words_of content) = word_starts true content.
Proof.
  unfold words_of. rewrite split_re_plus_cls, split_by_run.
  apply (count_pieces (length content)). apply le_n.
Qed.

Lemma word_starts_le (s : jstr) :
  forall b, word_starts b s <= length (filter (fun c => negb (is_space c)) s).
Proof.
  induction s as [|c s IH]; intros b; [apply le_n|].
  cbn [word_starts filter]. specialize (IH (is_space c)).
  destruct (is_space c), b; cbn [andb negb length]; lia.
Qed.

(** X12: the statistics of a document count what they name: the words
    are the places where a unit that is not white space stands first
    or after white space; the characters without spaces and the white
    space units add up to the characters; the lines are the line feeds
    plus one; and there are never more words than characters that are
    not white space. *)
Theorem X12_getDocumentStats_counts (getFileSize : jstr -> jstr) (content : jstr) :
  words (getDocumentStats getFileSize content) = word_starts true content
  /\ charactersNoSpaces (getDocumentStats getFileSize content)
     + count_if is_space content
     = characters (getDocumentStats getFileSize content)
  /\ lines (getDocumentStats getFileSize content)
     = S (count_if (N.eqb LF) content)
  /\ words (getDocumentStats getFileSize content)
     <= charactersNoSpaces (getDocumentStats getFileSize content).
Proof.
  cbn [getDocumentStats words charactersNoSpaces characters lines].
  rewrite words_of_count, replace_all_cls, substitute_nil.
  split; [reflexivity|]. split; [apply filter_count|].
  split; [apply split_str_count|apply word_starts_le].
Qed.

(** ** The file name field *)

Lemma forallb_filter_self (p : char -> bool) (s : jstr) :
  forallb p (filter p s) = true.
Proof.
  induction s as [|c s IH]; [reflexivity|].
  cbn [filter]. destruct (p c) eqn:E; [|exact IH].
  cbn [forallb]. rewrite E. exact IH.
Qed.

Lemma filter_keeps_all (p : char -> bool) (s : jstr) :
  forallb p s = true -> filter p s = s.
Proof.
  induction s as [|c s IH]; [reflexivity|].
  cbn [forallb filter]. intros H. apply andb_true_iff in H. destruct H as [Hc H].
  rewrite Hc, (IH H). reflexivity.
Qed.

(** X13: the file name field keeps what was typed with exactly the
    nine refused characters removed, the rest in its order; so the
    stored name holds none of them, and typing into a field that holds
    none changes nothing else. *)
Theorem X13_handleFilenameChange_filters (value : jstr) :
  handleFilenameChange value
  = filter (fun c => negb (is_invalid_filename_char c)) value
  /\ none_of is_invalid_filename_char (handleFilenameChange value) = true
  /\ handleFilenameChange (handleFilenameChange value) = handleFilenameChange value.
Proof.
  unfold handleFilenameChange. rewrite !replace_all_cls, !substitute_nil.
  split; [reflexivity|]. split.
  - apply forallb_filter_self.
  - apply filter_keeps_all. apply forallb_filter_self.
Qed.

(** ** The RTF export *)

Lemma flat_map_nest (f g : char -> jstr) (s : jstr) :
  flat_map f (flat_map g s) = flat_map (fun x => flat_map f (g x)) s.
Proof.
  induction s as [|c s IH]; [reflexivity|].
  cbn [flat_map]. rewrite flat_map_app, IH. reflexivity.
Qed.

(** The four passes act as one substitution made at once: none of them
    touches what an earlier one wrote. *)
Lemma rtf_content_closed (content : jstr) :
  rtf_content content = flat_map rtf_escape content.
Proof.
  unfold rtf_content. rewrite !replace_all_lit. unfold substitute.
  rewrite !flat_map_nest. apply flat_map_ext. intros c.
  unfold rtf_escape.
  destruct (N.eqb_spec c BACKSLASH) as [->|H1]; [reflexivity|].
  destruct (N.eqb_spec c (chr "{")) as [->|H2]; [reflexivity|].
  destruct (N.eqb_spec c (chr "}")) as [->|H3]; [reflexivity|].
  destruct (N.eqb_spec c LF) as [->|H4]; [reflexivity|].
  apply N.eqb_neq in H1, H2, H3, H4.
  rewrite (N.eqb_sym BACKSLASH c), H1. cbn [flat_map app].
  rewrite (N.eqb_sym (chr "{") c), H2. cbn [flat_map app].
  rewrite (N.eqb_sym (chr "}") c), H3. cbn [flat_map app].
  rewrite (N.eqb_sym LF c), H4. reflexivity.
Qed.

Lemma rtf_escape_cases (c : char) :
  (exists y, rtf_escape c = [BACKSLASH; y]
             /\ (c = y /\ (y = BACKSLASH \/ y = chr "{" \/ y = chr "}")))
  \/ (c = LF /\ rtf_escape c = BACKSLASH :: js "par ")
  \/ (c <> BACKSLASH /\ rtf_escape c = [c]).
Proof.
  unfold rtf_escape.
  destruct (N.eqb_spec c BACKSLASH) as [->|H1];
    [left; exists BACKSLASH; tauto|].
  destruct (N.eqb_spec c (chr "{")) as [->|H2];
    [left; exists (chr "{"); tauto|].
  destruct (N.eqb_spec c (chr "}")) as [->|H3];
    [left; exists (chr "}"); tauto|].
  destruct (N.eqb_spec c LF) as [->|H4]; [right; left; tauto|].
  right; right; tauto.
Qed.

Lemma rtf_escape_injective (a : jstr) :
  forall b, flat_map rtf_escape a = flat_map rtf_escape b -> a = b.
Proof.
  induction a as [|x a IH]; intros [|y b] H.
  - reflexivity.
  - exfalso. cbn [flat_map] in H.
    destruct (rtf_escape_cases y) as [[z [E _]]|[[_ E]|[_ E]]];
      rewrite E in H; discriminate.
  - exfalso. cbn [flat_map] in H.
    destruct (rtf_escape_cases x) as [[z [E _]]|[[_ E]|[_ E]]];
      rewrite E in H; discriminate.
  - cbn [flat_map] in H.
    destruct (rtf_escape_cases x) as [[z [E [-> Z]]]|[[-> E]|[N E]]];
      destruct (rtf_escape_cases y) as [[z' [E' [-> Z']]]|[[-> E']|[N' E']]];
      rewrite E in H; try rewrite E' in H;
      cbn [app js map list_ascii_of_string N_of_ascii] in H.
    + injection H as Hz Hr. subst z'. f_equal. apply IH. exact Hr.
    + exfalso. injection H as Hz Hr.
      destruct Z as [Z|[Z|Z]]; subst z; discriminate.
    + exfalso. injection H as Hz Hr. apply N'. symmetry. exact Hz.
    + exfalso. injection H as Hz Hr.
      destruct Z' as [Z|[Z|Z]]; subst z'; discriminate.
    + f_equal. apply IH. apply (app_inv_head (BACKSLASH :: js "par ")).
      exact H.
    + exfalso. injection H as Hz Hr. apply N'. symmetry. exact Hz.
    + exfalso. injection H as Hz Hr. apply N. exact Hz.
    + exfalso. injection H as Hz Hr. apply N. exact Hz.
    + injection H as Hz Hr. subst y. f_equal. apply IH. exact Hr.
Qed.

Lemma jstr_eqb_of_iff (a b c d : jstr) :
  (a = b <-> c = d) -> jstr_eqb a b = jstr_eqb c d.
Proof.
  intros H.
  destruct (jstr_eqb a b) eqn:E1; destruct (jstr_eqb c d) eqn:E2; try reflexivity.
  - apply jstr_eqb_eq in E1. apply H in E1. apply jstr_eqb_eq in E1. congruence.
  - apply jstr_eqb_eq in E2. apply H in E2. apply jstr_eqb_eq in E2. congruence.
Qed.

(** X14: the RTF export escapes the content unit by unit, as if the
    four replacements were made at once (backslash, the two braces and
    the line feed; everything else is kept), and it loses nothing: two
    contents give the same RTF text only when they are the same. *)
Theorem X14_convertToRTF_escapes_losslessly (a b : jstr) :
  rtf_content a = flat_map rtf_escape a
  /\ jstr_eqb (convertToRTF a) (convertToRTF b) = jstr_eqb a b.
Proof.
  split; [apply rtf_content_closed|].
  apply jstr_eqb_of_iff. split; [|intros ->; reflexivity].
  unfold convertToRTF. intros H.
  repeat match type of H with
         | ?p ++ _ = ?p ++ _ => apply app_inv_head in H
         end.
  apply app_inv_tail in H.
  rewrite !rtf_content_closed in H. apply rtf_escape_injective. exact H.
Qed.

(** ** Generated file names *)

(** What a replace whose matches are never empty leaves: the
    replacements, and the units no match started at. *)
Lemma Replaced_forallb_from (m : matcher) (f : jstr -> list (nat * jstr) -> jstr)
    (q0 q : char -> bool) (prev : option char) (s o : jstr) :
  (forall prev s fd, m prev s = Some fd ->
                     forallb q (f (firstn (span fd) s) (groups fd)) = true) ->
  (forall prev s fd, m prev s = Some fd -> 0 < span fd) ->
  (forall prev c s, m prev (c :: s) = None -> q0 c = true -> q c = true) ->
  Replaced m f prev s o -> forallb q0 s = true -> forallb q o = true.
Proof.
  intros Hf Hpos Hc H. induction H as [| prev fd E | prev c s o E _ IH
                                      | prev c s o fd E Ek _ IH
                                      | prev s o fd E Hp Hle _ IH]; intros Hs.
  - reflexivity.
  - pose proof (Hf _ _ _ E) as Hm. destruct (span fd); exact Hm.
  - cbn [forallb] in *. apply andb_true_iff in Hs. destruct Hs as [H0 Hs].
    rewrite (Hc _ _ _ E H0). apply IH. exact Hs.
  - pose proof (Hpos _ _ _ E). lia.
  - rewrite forallb_app, (Hf _ _ _ E). cbn [andb]. apply IH.
    rewrite <- (firstn_skipn (span fd) s), forallb_app in Hs.
    apply andb_true_iff in Hs. tauto.
Qed.

Lemma forallb_firstn (q : char -> bool) (n : nat) (s : jstr) :
  forallb q s = true -> forallb q (firstn n s) = true.
Proof.
  revert s. induction n as [|n IH]; intros [|c s] H; try reflexivity.
  cbn [firstn forallb] in *. apply andb_true_iff in H. destruct H as [Hc H].
  rewrite Hc. apply IH. exact H.
Qed.

Lemma forallb_impl (q1 q2 : char -> bool) (s : jstr) :
  (forall c, q1 c = true -> q2 c = true) ->
  forallb q1 s = true -> forallb q2 s = true.
Proof.
  intros Hi. induction s as [|c s IH]; [reflexivity|].
  cbn [forallb]. intros H. apply andb_true_iff in H. destruct H as [Hc H].
  rewrite (Hi c Hc). apply IH. exact H.
Qed.

Lemma forallb_map_lower (s : jstr) :
  forallb (fun c => is_lower_az c || is_upper_AZ c || is_digit c || N.eqb c (chr "_")) s
  = true ->
  forallb is_ascii s = true /\ forallb is_filename_unit (map lower_char s) = true.
Proof.
  induction s as [|c s IH]; [split; reflexivity|].
  cbn [forallb map]. intros H. apply andb_true_iff in H. destruct H as [Hc H].
  destruct (IH H) as [A B]. rewrite A, B, !andb_true_r. clear IH H A B.
  unfold is_ascii, is_filename_unit, lower_char, is_lower_az, is_upper_AZ,
    is_digit, in_range in *.
  change (chr "_") with 95%N in *.
  destruct (N.leb_spec 97 c), (N.leb_spec c 122), (N.leb_spec 65 c),
    (N.leb_spec c 90), (N.leb_spec 48 c), (N.leb_spec c 57), (N.eqb_spec c 95);
    cbn [andb orb] in Hc |- *; try discriminate;
    (split; [apply N.ltb_lt; lia|]);
    repeat match goal with
           | |- context [N.leb ?a ?b] => destruct (N.leb_spec a b); try lia
           | |- context [N.eqb ?a ?b] => destruct (N.eqb_spec a b); try lia
           end; reflexivity.
Qed.

(** The name made of the first line holds only lower-case letters,
    digits and underscores. *)
Lemma slug_units (h : Host) (firstLine : jstr) :
  forallb is_filename_unit
    (toLowerCase h
       (replace_all fl_g (Plus (Cls is_space)) (js "_")
          (replace_all fl_g (Cls (fun c => negb (is_alnum_or_space c))) []
             firstLine))) = true.
Proof.
  rewrite replace_all_cls, substitute_nil.
  set (kept := filter _ firstLine).
  assert (Hk : forallb is_alnum_or_space kept = true).
  { subst kept.
    apply (forallb_impl (fun c => negb (negb (is_alnum_or_space c)))).
    - intros c Hc. rewrite negb_involutive in Hc. exact Hc.
    - apply forallb_filter_self. }
  set (q := fun c => is_lower_az c || is_upper_AZ c || is_digit c
                     || N.eqb c (chr "_")).
  assert (Hq : forallb q
                 (replace_all fl_g (Plus (Cls is_space)) (js "_") kept) = true).
  { unfold replace_all.
    apply (Replaced_forallb_from (exec fl_g (Plus (Cls is_space)))
             (fun _ _ => js "_") is_alnum_or_space q None kept);
      [| | |apply replace_with_Replaced|exact Hk].
    - intros. reflexivity.
    - intros prev s fd E. rewrite exec_plus_cls in E. unfold run_matcher in E.
      destruct s as [|c s]; [discriminate|].
      destruct (is_space c); [|discriminate].
      injection E as <-. cbn [span]. lia.
    - intros prev c s E Hc. rewrite exec_plus_cls in E. unfold run_matcher in E.
      destruct (is_space c) eqn:Es; [discriminate|].
      unfold is_alnum_or_space in Hc. rewrite Es, orb_false_r in Hc.
      unfold q. rewrite Hc. reflexivity. }
  destruct (forallb_map_lower _ Hq) as [A B].
  unfold toLowerCase. rewrite A. exact B.
Qed.

Lemma split_str_first (c : char) (s : jstr) :
  exists first rest_, split_str [c] s = first :: rest_.
Proof.
  pose proof (split_str_count c s) as H.
  destruct (split_str [c] s) as [|first rest_]; [discriminate|].
  exists first, rest_. reflexivity.
Qed.

Lemma filename_stem_safe (h : Host) (content : jstr) :
  exists stem,
    filename_stem h content = Ok stem
    /\ stem <> []
    /\ stem <> js "_"
    /\ length stem <= 30
    /\ forallb is_filename_unit stem = true.
Proof.
  unfold filename_stem.
  destruct (split_str_first LF content) as [first [rest_ ->]].
  cbv zeta.
  match goal with |- context [jstr_eqb ?f []] => set (filename := f) end.
  assert (Hf : length filename <= 30 /\ forallb is_filename_unit filename = true).
  { subst filename. destruct (_ && _).
    - split; [rewrite length_firstn; lia|].
      apply forallb_firstn. apply slug_units.
    - split; [vm_compute; lia|reflexivity]. }
  destruct Hf as [Hl Hu].
  destruct (negb (truthy (Some filename)) || jstr_eqb filename []
            || jstr_eqb filename (js "_")) eqn:E.
  - exists (js "document"). split; [reflexivity|].
    split; [discriminate|]. split; [discriminate|].
    split; [vm_compute; lia|reflexivity].
  - exists filename. split; [reflexivity|].
    apply orb_false_iff in E. destruct E as [E E2].
    apply orb_false_iff in E. destruct E as [E0 E1].
    split; [|split; [|split; [exact Hl|exact Hu]]].
    + intros ->. discriminate.
    + intros ->. discriminate.
Qed.

(** X15: a generated file name never fails to be made and is safe to
    use: the part before the time stamp is not empty, is at most 30
    units long and holds only lower-case letters, digits and
    underscores, whatever the document starts with. *)
Theorem X15_generateFilename_is_safe (h : Host) (iso content : jstr)
    (extension : option jstr) :
  exists stem rest_,
    generateFilename h iso content extension
    = Ok (stem ++ chr "_" :: rest_)
    /\ filename_stem h content = Ok stem
    /\ stem <> []
    /\ length stem <= 30
    /\ forallb is_filename_unit stem = true.
Proof.
  destruct (filename_stem_safe h content) as [stem [E [Hn [_ [Hl Hu]]]]].
  unfold generateFilename. rewrite E.
  exists stem. eexists. split; [reflexivity|]. tauto.
Qed.

(** ** improveWriting *)

Lemma writing_rules_ok : chain_ok [] (js_rules writing_rules) = true.
Proof. vm_compute. reflexivity. Qed.

Lemma improveWriting_tail (h : Host) (t : jstr) :
  exists y, improveWriting h t = chain (js_rules writing_rules) y.
Proof.
  eexists. rewrite <- replace_chain_pass by exact (chain_ok_wf _ [] writing_rules_ok).
  reflexivity.
Qed.

(** X16: after [improveWriting] none of [stuff], [got] and [a lot of]
    is left as a word, in any case, at any offset of the result. *)
Theorem X16_improveWriting_leaves_no_filler (h : Host) (t : jstr) (n : nat) :
  no_rule_matches_at writing_rules (improveWriting h t) n = true.
Proof.
  destruct (improveWriting_tail h t) as [y ->].
  apply chain_leaves_no_match. exact writing_rules_ok.
Qed.

(** ** Suggestions that are not empty *)

Lemma app_nonempty_r (a b : jstr) : b <> [] -> a ++ b <> [].
Proof. intros Hb E. apply app_eq_nil in E. tauto. Qed.

Lemma app_nonempty_l (a b : jstr) : a <> [] -> a ++ b <> [].
Proof. intros Ha E. apply app_eq_nil in E. tauto. Qed.

(** A replacement that is never empty for a match that is not keeps a
    text from becoming empty. *)
Lemma replace_with_nonempty (fl : flags) (r : regex)
    (f : jstr -> list (nat * jstr) -> jstr) (s : jstr) :
  (forall prev s fd, exec fl r prev s = Some fd -> 0 < span fd ->
                     f (firstn (span fd) s) (groups fd) <> []) ->
  s <> [] -> replace_with fl r f s <> [].
Proof.
  intros Hf Hs.
  apply (Replaced_nonempty (exec fl r) f None s _ Hf (replace_with_Replaced fl r f s) Hs).
Qed.

Lemma replace_all_nonempty (fl : flags) (r : regex) (by_ s : jstr) :
  by_ <> [] -> s <> [] -> replace_all fl r by_ s <> [].
Proof.
  intros Hb. apply replace_with_nonempty. intros. exact Hb.
Qed.

Lemma match_nonempty (fl : flags) (r : regex) (prev : option char) (s : jstr)
    (fd : found) :
  exec fl r prev s = Some fd -> 0 < span fd -> firstn (span fd) s <> [].
Proof.
  intros E Hp Hn. pose proof (span_is_length fl r prev s fd E) as L.
  rewrite Hn in L. cbn [length] in L. lia.
Qed.

Lemma own_get_in (table : list (jstr * jstr)) (key v : jstr) :
  own_get table key = Some v -> In v (map snd table).
Proof.
  induction table as [|[k x] table IH]; [discriminate|].
  cbn [own_get map snd]. destruct (jstr_eqb k key).
  - intros H. injection H as ->. left. reflexivity.
  - intros H. right. apply IH. exact H.
Qed.

Lemma table_or_nonempty (h : Host) (table : list (jstr * jstr)) (key m : jstr) :
  (forall k v, inheritedText h k = Some v -> v <> []) ->
  Forall (fun v => v <> []) (map snd table) ->
  m <> [] ->
  table_or h table key m <> [].
Proof.
  intros Hh Ht Hm. unfold table_or.
  destruct (own_get table key) as [v|] eqn:E.
  - apply own_get_in in E. exact (proj1 (Forall_forall _ _) Ht v E).
  - destruct (inheritedText h key) as [v|] eqn:E'; [|exact Hm].
    exact (Hh _ _ E').
Qed.

Lemma shortenText_nonempty (t : jstr) : t <> [] -> shortenText t <> [].
Proof.
  intros Ht. unfold shortenText. destruct (Nat.leb _ 1); [exact Ht|].
  apply app_nonempty_r. discriminate.
Qed.

Lemma improveWriting_nonempty (h : Host) (t : jstr) :
  (forall k v, inheritedText h k = Some v -> v <> []) ->
  t <> [] -> improveWriting h t <> [].
Proof.
  intros Hh Ht. unfold improveWriting.
  repeat (apply replace_all_nonempty; [discriminate|]).
  apply replace_with_nonempty; [intros; discriminate|].
  apply replace_with_nonempty; [|exact Ht].
  intros prev s fd E Hp. cbv beta.
  apply table_or_nonempty; [exact Hh| |exact (match_nonempty _ _ _ _ _ E Hp)].
  repeat constructor; discriminate.
Qed.

Lemma replace_chain_nonempty (rules : list (string * string)) :
  Forall (fun pr => js (snd pr) <> []) rules ->
  forall t, t <> [] -> replace_chain rules t <> [].
Proof.
  unfold replace_chain.
  induction rules as [|pr rules IH]; intros Hr t Ht; [exact Ht|].
  cbn [fold_left]. inversion Hr as [|x l Hx Hl]; subst.
  apply IH; [exact Hl|]. apply replace_all_nonempty; assumption.
Qed.

Lemma convertToTable_nonempty (t : jstr) : t <> [] -> convertToTable t <> [].
Proof.
  intros Ht. unfold convertToTable. destruct (Nat.ltb _ 2); [exact Ht|].
  rewrite forEach_row_concat. apply app_nonempty_l. discriminate.
Qed.

Lemma convertToList_nonempty (t : jstr) : t <> [] -> convertToList t <> [].
Proof.
  intros Ht. unfold convertToList.
  destruct (sentences t) as [|s1 [|s2 ss]]; try exact Ht.
  cbn [length Nat.ltb Nat.leb map join]. discriminate.
Qed.

Lemma summarizeText_nonempty (t : jstr) :
  t <> [] -> exists e, summarizeText t = Ok e /\ e <> [].
Proof.
  intros Ht. unfold summarizeText.
  destruct (Nat.leb _ 20); [exists t; split; [reflexivity|exact Ht]|].
  rewrite (split_re_plus_cls fl_g is_term).
  destruct (split_by (run_matcher is_term) t) eqn:E.
  - exfalso. exact (split_run_nonempty is_term t E).
  - eexists. split; [reflexivity|discriminate].
Qed.

(** Every option of the toolbar gives a suggestion that is not empty. *)
Lemma toolbar_edit_nonempty (h : Host) (ty t : jstr) :
  (forall k v, inheritedText h k = Some v -> v <> []) ->
  In ty toolbar_options ->
  t <> [] ->
  exists edited msg,
    edit_switch h ty t [] = Ok (edited, msg) /\ edited <> [].
Proof.
  intros Hh Hin Ht. unfold toolbar_options in Hin. cbn [In] in Hin.
  destruct Hin as [<-|[<-|[<-|[<-|[<-|[<-|[<-|[<-|[]]]]]]]]].
  - exists (shortenText t). eexists. split; [reflexivity|].
    apply shortenText_nonempty. exact Ht.
  - exists (lengthenText h t). eexists. split; [reflexivity|].
    pose proof (lengthenText_longer h t) as L. intros E. rewrite E in L.
    cbn [length] in L. lia.
  - exists (improveWriting h t). eexists. split; [reflexivity|].
    apply improveWriting_nonempty; assumption.
  - exists (makeFormal t). eexists. split; [reflexivity|].
    apply replace_chain_nonempty; [|exact Ht]. repeat constructor; discriminate.
  - exists (makeCasual t). eexists. split; [reflexivity|].
    apply replace_chain_nonempty; [|exact Ht]. repeat constructor; discriminate.
  - exists (convertToTable t). eexists. split; [reflexivity|].
    apply convertToTable_nonempty. exact Ht.
  - exists (convertToList t). eexists. split; [reflexivity|].
    apply convertToList_nonempty. exact Ht.
  - destruct (summarizeText_nonempty t Ht) as [e [E He]].
    exists e. eexists. split; [|exact He].
    change (edit_switch h (js "summarize") t [])
      with (match summarizeText t with
            | Ok e => Ok (e, js "Text summarized")
            | Throw x => Throw x
            end).
    rewrite E. reflexivity.
Qed.

Lemma toolbar_option_not_custom (ty : jstr) :
  In ty toolbar_options -> jstr_eqb ty (js "custom") = false.
Proof.
  unfold toolbar_options. cbn [In].
  intros [<-|[<-|[<-|[<-|[<-|[<-|[<-|[<-|[]]]]]]]]]; reflexivity.
Qed.

(** X17: every option of the toolbar, applied to a selection that is
    not empty, leaves a suggestion in the preview that is not empty
    (the one [getTextEdit] resolved with), so that confirming it
    replaces the selected range by it: the guard of
    [handleConfirmEdit] on the suggestion never drops an edit. *)
Theorem X17_toolbar_edit_is_applied (h : Host) (st : AppState)
    (editType text_ : jstr) (r : Range) :
  (forall key v, inheritedText h key = Some v -> v <> []) ->
  In editType toolbar_options ->
  text_ <> [] ->
  exists edited msg,
    getTextEdit h editType text_ None
    = Resolved {| originalText := text_; editedText := edited;
                  edit_message := msg; editType := editType |}
    /\ edited <> []
    /\ aiSuggestion (fst (handleEditWithAI h st editType text_)) = edited
    /\ snd (handleConfirmEdit (fst (handleEditWithAI h st editType text_))
              (Some r) true)
       = [ {| at_range := r; with_text := edited |} ].
Proof.
  intros Hh Hin Ht.
  destruct (toolbar_edit_nonempty h editType text_ Hh Hin Ht)
    as [edited [msg [E He]]].
  exists edited, msg.
  assert (G : getTextEdit h editType text_ None
              = Resolved {| originalText := text_; editedText := edited;
                            edit_message := msg; editType := editType |}).
  { unfold getTextEdit. cbn [default_empty]. rewrite E. reflexivity. }
  assert (S : aiSuggestion (fst (handleEditWithAI h st editType text_)) = edited).
  { unfold handleEditWithAI. rewrite (toolbar_option_not_custom _ Hin).
    cbn [negb fst aiSuggestion]. unfold settle_edit.
    cbn [call_editType call_text call_prompt]. rewrite G. reflexivity. }
  split; [exact G|]. split; [exact He|]. split; [exact S|].
  unfold handleConfirmEdit. cbn [snd]. rewrite S.
  destruct edited; [contradiction|reflexivity].
Qed.

Lemma X17_witness :
  exists edited,
    edited <> []
    /\ snd (handleConfirmEdit
              (fst (handleEditWithAI plainHost app_idle (js "shorten") meeting_notes))
              (Some {| from := 0; to := 22 |}) true)
       = [ {| at_range := {| from := 0; to := 22 |}; with_text := edited |} ].
Proof.
  destruct (X17_toolbar_edit_is_applied plainHost app_idle (js "shorten")
              meeting_notes {| from := 0; to := 22 |})
    as [edited [msg [_ [He [_ Hc]]]]].
  - intros key v H. discriminate.
  - left. reflexivity.
  - discriminate.
  - exists edited. split; [exact He|exact Hc].
Defined.

(** ** What a chat request changes *)

(** Replacements that hold a unit with property [q] exactly when the
    match they replace does keep the text's having such a unit. *)
Lemma Replaced_existsb (m : matcher) (f : jstr -> list (nat * jstr) -> jstr)
    (q : char -> bool) (prev : option char) (s o : jstr) :
  (forall prev s fd, m prev s = Some fd ->
                     existsb q (f (firstn (span fd) s) (groups fd))
                     = existsb q (firstn (span fd) s)) ->
  Replaced m f prev s o -> existsb q o = existsb q s.
Proof.
  intros Hf H. induction H as [| prev fd E | prev c s o E _ IH
                              | prev c s o fd E Ek _ IH
                              | prev s o fd E Hp Hle _ IH].
  - reflexivity.
  - pose proof (Hf _ _ _ E) as Hm. rewrite firstn_nil in Hm. exact Hm.
  - cbn [existsb]. rewrite IH. reflexivity.
  - pose proof (Hf _ _ _ E) as Hm. rewrite Ek in Hm. cbn [firstn] in Hm.
    rewrite existsb_app, Hm. cbn [existsb orb]. rewrite IH. reflexivity.
  - rewrite existsb_app, (Hf _ _ _ E), IH.
    rewrite <- (firstn_skipn (span fd) s) at 3. rewrite existsb_app. reflexivity.
Qed.

Lemma lang_star_cls (fl : flags) (p : char -> bool) (w : jstr) :
  lang fl (Star (Cls p)) w -> forallb p w = true.
Proof.
  intros H. remember (Star (Cls p)) as r eqn:Er.
  induction H as [| | | | | | |r0 w1 w2 H1 _ H2 IH2| | | |]; try discriminate.
  - reflexivity.
  - injection Er as ->. rewrite forallb_app, (IH2 eq_refl), andb_true_r.
    inversion H1 as [| |p0 x Hx| | | | | | | | |]; subst.
    cbn [forallb]. rewrite Hx. reflexivity.
Qed.

Lemma lang_plus_cls (fl : flags) (p : char -> bool) (w : jstr) :
  lang fl (Plus (Cls p)) w -> forallb p w = true.
Proof.
  intros H. unfold Plus in H.
  inversion H as [| | |r1 r2 w1 w2 H1 H2| | | | | | | |]; subst.
  rewrite forallb_app, (lang_star_cls _ _ _ H2), andb_true_r.
  inversion H1 as [| |p0 x Hx| | | | | | | | |]; subst.
  cbn [forallb]. rewrite Hx. reflexivity.
Qed.

Lemma lang_plus_lit (c : char) (w : jstr) :
  lang fl_g (Plus (Lit c)) w -> exists w', w = c :: w'.
Proof.
  intros H. unfold Plus in H.
  inversion H as [| | |r1 r2 w1 w2 H1 H2| | | | | | | |]; subst.
  inversion H1 as [|c0 x Hx| | | | | | | | | |]; subst.
  unfold char_eq in Hx. cbn [ignoreCase fl_g] in Hx. apply N.eqb_eq in Hx.
  subst x. exists w2. reflexivity.
Qed.

Lemma existsb_forallb_neg (p : char -> bool) (w : jstr) :
  forallb p w = true -> existsb (fun c => negb (p c)) w = false.
Proof.
  induction w as [|c w IH]; [reflexivity|].
  cbn [forallb existsb]. intros H. apply andb_true_iff in H. destruct H as [Hc H].
  rewrite Hc, (IH H). reflexivity.
Qed.

(** Squeezing a run of one mark that is not white space into one mark
    keeps a text blank or not blank. *)
Lemma squeeze_mark_nonblank (c : char) (s : jstr) :
  is_space c = false ->
  nonblank (replace_all fl_g (Plus (Lit c)) [c] s) = nonblank s.
Proof.
  intros Hc. rewrite !nonblank_spec. unfold replace_all.
  apply (Replaced_existsb (exec fl_g (Plus (Lit c))) (fun _ _ => [c]) _ None s);
    [|apply replace_with_Replaced].
  intros prev s0 fd E.
  destruct (lang_plus_lit c _ (exec_lang _ _ _ _ _ E)) as [w' ->].
  cbn [existsb]. rewrite Hc. reflexivity.
Qed.

Lemma squeeze_space_nonblank (s : jstr) :
  nonblank (replace_all fl_g (Plus (Cls is_space)) (js " ") s) = nonblank s.
Proof.
  rewrite !nonblank_spec. unfold replace_all.
  apply (Replaced_existsb (exec fl_g (Plus (Cls is_space))) (fun _ _ => js " ")
           _ None s); [|apply replace_with_Replaced].
  intros prev s0 fd E.
  rewrite (existsb_forallb_neg is_space _
             (lang_plus_cls _ _ _ (exec_lang _ _ _ _ _ E))).
  reflexivity.
Qed.

Lemma word_pass_nonblank (p : string) (by_ s : jstr) :
  nonblank (js p) = true -> nonblank by_ = true ->
  nonblank (replace_all fl_g (wordre p) by_ s) = nonblank s.
Proof.
  intros Hp Hb. rewrite !nonblank_spec. unfold replace_all.
  apply (Replaced_existsb (exec fl_g (wordre p)) (fun _ _ => by_) _ None s);
    [|apply replace_with_Replaced].
  intros prev s0 fd E.
  pose proof (exec_lang _ _ _ _ _ E) as L. unfold wordre in L.
  apply lang_bounded in L. unfold text in L. apply lang_lits_exact in L.
  rewrite L, <- !nonblank_spec, Hp, Hb. reflexivity.
Qed.

(** The last group of a pattern that ends in a one-unit group is that
    unit. *)
Lemma exec_last_group (fl : flags) (A : regex) (n : nat) (p : char -> bool)
    (prev : option char) (s : jstr) (fd : found) :
  exec fl (Seq A (Grp n (Cls p))) prev s = Some fd ->
  exists x, group n (groups fd) = [x].
Proof.
  unfold exec. rewrite rmatch_Seq.
  destruct (rmatch fl A _ _) as [st|] eqn:E; [|discriminate].
  intros H. injection H as <-. cbn [groups].
  destruct (rmatch_sound fl (fun _ _ => True) _ A (groups_in_trivial fl A) _ _ _ E)
    as [st' [w [_ [_ [_ K]]]]].
  cbn [rmatch] in K. destruct (rest st') as [|x s'] eqn:Er; [discriminate|].
  destruct (p x); [|discriminate]. injection K as <-.
  exists x. unfold set_cap, step. cbn [caps group rest]. rewrite Nat.eqb_refl, Er.
  cbn [length]. replace (S (length s') - length s') with 1 by lia. reflexivity.
Qed.

Lemma trim_blank (s : jstr) : nonblank s = false -> trim s = [].
Proof.
  unfold nonblank. destruct (trim s); [reflexivity|discriminate].
Qed.

(** [improveText] gives the empty text exactly for a blank one. *)
Lemma improveText_empty (t : jstr) :
  match improveText t with
  | [] => nonblank t = false
  | _ :: _ => nonblank t = true
  end.
Proof.
  destruct t as [|c0 t0]; [reflexivity|]. set (t := c0 :: t0).
  unfold improveText. fold t.
  set (squeezed := replace_all fl_g (Plus (Lit (chr ","))) _ _).
  assert (Hb : nonblank squeezed = nonblank t).
  { subst squeezed.
    rewrite !squeeze_mark_nonblank by reflexivity.
    rewrite squeeze_space_nonblank.
    apply word_pass_nonblank; reflexivity. }
  destruct (nonblank t) eqn:Ht.
  - assert (Hn : trim squeezed <> []).
    { unfold nonblank in Hb. destruct (trim squeezed); [discriminate|discriminate]. }
    match goal with
    | |- match ?x with [] => _ | _ :: _ => _ end =>
        assert (Hx : x <> []); [|destruct x; [contradiction|reflexivity]]
    end.
    repeat (apply replace_all_nonempty; [discriminate|]).
    apply replace_with_nonempty; [|exact Hn].
    intros prev s fd E _. cbv beta.
    destruct (exec_last_group _ _ _ _ _ _ _ E) as [x ->].
    apply app_nonempty_r. discriminate.
  - rewrite (trim_blank _ Hb). reflexivity.
Qed.

Lemma join_nonempty (sep p : jstr) (rest_ : list jstr) :
  p <> [] -> join sep (p :: rest_) <> [].
Proof.
  intros Hp. destruct rest_ as [|q rest_]; [exact Hp|].
  cbn [join]. apply app_nonempty_l. exact Hp.
Qed.

Lemma formatDocument_nonempty (t : jstr) : t <> [] -> formatDocument t <> [].
Proof.
  intros Ht. destruct t as [|c0 t0]; [contradiction|]. set (t := c0 :: t0).
  unfold formatDocument. fold t.
  set (formatted := replace_with fl_gm _ _ _).
  assert (Hf : formatted <> []).
  { subst formatted.
    apply replace_with_nonempty; [intros; discriminate|].
    apply replace_all_nonempty; [discriminate|].
    apply replace_with_nonempty; [intros; discriminate|]. exact Ht. }
  destruct (split_str [LF] formatted) as [|line0 lines_]; [exact Hf|].
  destruct (_ && _); [|exact Hf].
  apply join_nonempty. discriminate.
Qed.

Lemma addedContent_nonempty (doc lowerMessage : jstr) :
  doc ++ addedContent lowerMessage <> [].
Proof.
  apply app_nonempty_r. unfold addedContent.
  destruct (_ || _); [discriminate|]. destruct (includes _ _); discriminate.
Qed.

(** X18: which chat requests change the document when the simulation
    answers: a request to improve or to summarise does on a document
    that is not blank, a request to add content always, a request to
    format on a document that is not empty, and nothing else; on a
    blank document the improve reply says [modify] but carries the
    empty text, which the sidebar does not hand on.  What is handed on
    is the reply's new content, never an empty document. *)
Theorem X18_what_a_chat_request_changes (h : Host) (msg doc : jstr) (d : draw) :
  match document_update (simulateAIResponse h msg doc d) with
  | Some c =>
      changes_document (toLowerCase h msg) doc = true
      /\ newContent (simulateAIResponse h msg doc d) = Some c
      /\ c <> []
  | None => changes_document (toLowerCase h msg) doc = false
  end.
Proof.
  unfold simulateAIResponse, changes_document.
  destruct (asks_improve (toLowerCase h msg)).
  - unfold document_update. cbn [action newContent].
    pose proof (improveText_empty doc) as H.
    destruct (improveText doc); [exact H|].
    split; [exact H|]. split; [reflexivity|discriminate].
  - destruct (asks_add (toLowerCase h msg)).
    + unfold document_update. cbn [action newContent].
      pose proof (addedContent_nonempty doc (toLowerCase h msg)) as H.
      destruct (doc ++ addedContent (toLowerCase h msg)); [contradiction|].
      split; [reflexivity|]. split; [reflexivity|discriminate].
    + destruct (asks_summary (toLowerCase h msg)).
      * unfold nonblank. destruct (trim doc) as [|c l]; [reflexivity|].
        unfold document_update. cbn [action newContent].
        match goal with
        | |- match match ?x with [] => _ | _ :: _ => _ end with _ => _ end =>
            assert (Hx : x <> []) by (apply app_nonempty_r; discriminate);
              destruct x; [contradiction|]
        end.
        split; [reflexivity|]. split; [reflexivity|discriminate].
      * destruct (asks_format (toLowerCase h msg)); [|reflexivity].
        unfold document_update. cbn [action newContent].
        destruct doc as [|c0 doc0]; [reflexivity|].
        pose proof (formatDocument_nonempty (c0 :: doc0)) as H.
        destruct (formatDocument (c0 :: doc0)); [exfalso; apply H; [discriminate|reflexivity]|].
        split; [reflexivity|]. split; [reflexivity|discriminate].
Qed.

(** ** Custom edits *)

Lemma customEdit_cases (h : Host) (t prompt : jstr) :
  In (customEdit h t prompt)
     [makeFormal t; makeCasual t; shortenText t; lengthenText h t;
      improveWriting h t].
Proof.
  unfold customEdit. cbn [In].
  destruct (_ || _); [tauto|]. destruct (_ || _); [tauto|].
  destruct (_ || _); [tauto|]. destruct (_ || _); tauto.
Qed.

Lemma customEdit_nonempty (h : Host) (t prompt : jstr) :
  (forall k v, inheritedText h k = Some v -> v <> []) ->
  t <> [] -> customEdit h t prompt <> [].
Proof.
  intros Hh Ht.
  pose proof (customEdit_cases h t prompt) as H. cbn [In] in H.
  destruct H as [<-|[<-|[<-|[<-|[<-|[]]]]]].
  - apply replace_chain_nonempty; [|exact Ht]. repeat constructor; discriminate.
  - apply replace_chain_nonempty; [|exact Ht]. repeat constructor; discriminate.
  - apply shortenText_nonempty. exact Ht.
  - pose proof (lengthenText_longer h t) as L. intros E. rewrite E in L.
    cbn [length] in L. lia.
  - apply improveWriting_nonempty; assumption.
Qed.

(** X19: a custom edit, whatever the instruction, suggests one of five
    rewrites of the text the preview was opened on (formal, casual,
    shortened, lengthened, or improved writing when the instruction
    names none of them), never the empty text for a text that is not
    empty; confirming it replaces the selected range by it. *)
Theorem X19_custom_edit_is_applied (h : Host) (st : AppState)
    (customPrompt : jstr) (r : Range) :
  (forall key v, inheritedText h key = Some v -> v <> []) ->
  app_originalText st <> [] ->
  aiSuggestion (fst (handleCustomEdit h st customPrompt))
  = customEdit h (app_originalText st) customPrompt
  /\ In (customEdit h (app_originalText st) customPrompt)
        [makeFormal (app_originalText st); makeCasual (app_originalText st);
         shortenText (app_originalText st); lengthenText h (app_originalText st);
         improveWriting h (app_originalText st)]
  /\ snd (handleConfirmEdit (fst (handleCustomEdit h st customPrompt)) (Some r) true)
     = [ {| at_range := r;
            with_text := customEdit h (app_originalText st) customPrompt |} ].
Proof.
  intros Hh Ht.
  assert (S : aiSuggestion (fst (handleCustomEdit h st customPrompt))
              = customEdit h (app_originalText st) customPrompt) by reflexivity.
  split; [exact S|]. split; [apply customEdit_cases|].
  unfold handleConfirmEdit. cbn [snd]. rewrite S.
  pose proof (customEdit_nonempty h _ customPrompt Hh Ht) as Hn.
  destruct (customEdit h (app_originalText st) customPrompt);
    [contradiction|reflexivity].
Qed.

Lemma X19_witness :
  aiSuggestion
    (fst (handleCustomEdit plainHost
            (fst (handleEditWithAI plainHost app_idle (js "custom") meeting_notes))
            (js "make it formal")))
  = makeFormal meeting_notes.
Proof.
  destruct (X19_custom_edit_is_applied plainHost
              (fst (handleEditWithAI plainHost app_idle (js "custom") meeting_notes))
              (js "make it formal") {| from := 0; to := 22 |})
    as [S _].
  - intros key v H. discriminate.
  - discriminate.
  - rewrite S. reflexivity.
Defined.

(** ** Trimming *)

Lemma starts_clean_dropWhile (s : jstr) :
  starts_clean (dropWhile is_space s) = true.
Proof.
  induction s as [|c s IH]; [reflexivity|].
  cbn [dropWhile]. destruct (is_space c) eqn:E; [exact IH|].
  cbn [starts_clean]. rewrite E. reflexivity.
Qed.

Lemma dropWhile_fixed (s : jstr) :
  starts_clean s = true -> dropWhile is_space s = s.
Proof.
  destruct s as [|c s]; [reflexivity|].
  cbn [starts_clean dropWhile]. intros H. apply negb_true_iff in H.
  rewrite H. reflexivity.
Qed.

(** A text is what [rev (dropWhile is_space (rev l))] keeps of it,
    followed by the white space at its end. *)
Lemma strip_end (l : jstr) :
  l = rev (dropWhile is_space (rev l)) ++ rev (takeWhile is_space (rev l)).
Proof.
  rewrite <- rev_app_distr, (take_drop_while is_space (rev l)), rev_involutive.
  reflexivity.
Qed.

Lemma starts_clean_app (x y : jstr) :
  x <> [] -> starts_clean (x ++ y) = starts_clean x.
Proof. destruct x; [contradiction|reflexivity]. Qed.

Lemma starts_clean_strip_end (l : jstr) :
  starts_clean l = true ->
  starts_clean (rev (dropWhile is_space (rev l))) = true.
Proof.
  intros H. pose proof (strip_end l) as E.
  destruct (rev (dropWhile is_space (rev l))) as [|c x] eqn:Ex; [reflexivity|].
  rewrite E in H. exact H.
Qed.

Lemma starts_clean_trim (s : jstr) : starts_clean (trim s) = true.
Proof.
  unfold trim. apply starts_clean_strip_end. apply starts_clean_dropWhile.
Qed.

Lemma starts_clean_rev_trim (s : jstr) : starts_clean (rev (trim s)) = true.
Proof.
  unfold trim. rewrite rev_involutive. apply starts_clean_dropWhile.
Qed.

Lemma trim_fixed (x : jstr) :
  starts_clean x = true -> starts_clean (rev x) = true -> trim x = x.
Proof.
  intros H1 H2. unfold trim.
  rewrite (dropWhile_fixed x H1), (dropWhile_fixed (rev x) H2).
  apply rev_involutive.
Qed.

Lemma trim_idem (s : jstr) : trim (trim s) = trim s.
Proof.
  apply trim_fixed; [apply starts_clean_trim|apply starts_clean_rev_trim].
Qed.

(** ** summarizeText *)

Lemma space_runs_dropWhile (s : jstr) :
  space_runs false (dropWhile is_space s) = space_runs true s.
Proof.
  induction s as [|c s IH]; [reflexivity|].
  cbn [dropWhile space_runs]. destruct (is_space c) eqn:E.
  - cbn [negb andb]. exact IH.
  - cbn [space_runs]. rewrite E. reflexivity.
Qed.

(** Splitting on runs of white space gives one piece more than there
    are runs. *)
Lemma count_split_runs (n : nat) :
  forall (s cur : jstr) (prev : option char),
    length s <= n ->
    length (split_go (run_matcher is_space) 0 cur prev s)
    = S (space_runs false s).
Proof.
  induction n as [|n IH]; intros s cur prev Hn.
  - destruct s; [reflexivity|simpl in Hn; lia].
  - destruct s as [|c s]; [reflexivity|].
    cbn [length] in Hn. destruct (is_space c) eqn:E.
    + rewrite (split_go_sep is_space c s cur prev None E).
      cbn [length space_runs]. rewrite E. cbn [negb andb].
      rewrite IH by (pose proof (length_dropWhile is_space s); lia).
      rewrite space_runs_dropWhile. reflexivity.
    + cbn [split_go run_matcher]. rewrite E.
      rewrite (IH s (c :: cur) (Some c)) by lia.
      cbn [space_runs]. rewrite E. reflexivity.
Qed.

Lemma words_count (t : jstr) :
  length (split_re fl_g (Plus (Cls is_space)) t) = S (space_runs false t).
Proof.
  rewrite split_re_plus_cls, split_by_run.
  apply (count_split_runs (length t)). apply le_n.
Qed.

Lemma split_by_pieces (p : char -> bool) (s : jstr) :
  Forall (fun piece => none_of p piece = true) (split_by (run_matcher p) s).
Proof.
  rewrite split_by_run. apply split_go_pieces. reflexivity.
Qed.

Lemma Forall_filter (P : jstr -> Prop) (f : jstr -> bool) (l : list jstr) :
  Forall P l -> Forall (fun x => P x /\ f x = true) (filter f l).
Proof.
  induction 1 as [|x l Hx _ IH]; [constructor|].
  cbn [filter]. destruct (f x) eqn:E; [|exact IH].
  constructor; [split; assumption|exact IH].
Qed.

Lemma Forall_firstn (P : jstr -> Prop) (n : nat) (l : list jstr) :
  Forall P l -> Forall P (firstn n l).
Proof.
  revert l. induction n as [|n IH]; intros l H; [constructor|].
  destruct H as [|x l Hx H]; [constructor|].
  cbn [firstn]. constructor; [exact Hx|apply IH; exact H].
Qed.

(** X20: [summarizeText] never fails, and it rewrites a text only from
    twenty runs of white space on (twenty-one pieces between them);
    the summary it then writes quotes a first sentence without
    sentence terminator or outer white space, and at most five key
    terms, each longer than five units and free of white space. *)
Theorem X20_summarizeText_shape (t : jstr) :
  if Nat.leb (space_runs false t) 19 then summarizeText t = Ok t
  else
    exists first keys,
      summarizeText t
      = Ok (js "Summary: " ++ first ++ js ". Key terms: "
            ++ join (js ", ") keys ++ js ".")
      /\ none_of is_term first = true
      /\ trim first = first
      /\ length keys <= 5
      /\ Forall (fun w => none_of is_space w = true /\ 5 < length w) keys.
Proof.
  unfold summarizeText. rewrite words_count.
  change (Nat.leb (S (space_runs false t)) 20)
    with (Nat.leb (space_runs false t) 19).
  destruct (Nat.leb (space_runs false t) 19); [reflexivity|].
  pose proof (split_by_pieces is_term t) as Hp.
  rewrite (split_re_plus_cls fl_g is_term).
  destruct (split_by (run_matcher is_term) t) as [|first rest_] eqn:E.
  - exfalso. exact (split_run_nonempty is_term t E).
  - exists (trim first). eexists. split; [reflexivity|].
    split; [apply none_of_trim; inversion Hp; assumption|].
    split.
    + apply trim_idem.
    + split; [rewrite length_firstn; lia|].
      apply Forall_firstn.
      rewrite (split_re_plus_cls fl_g is_space).
      pose proof (Forall_filter _ (fun w => Nat.ltb 5 (length w)) _
                    (split_by_pieces is_space t)) as Hk.
      eapply Forall_impl; [|exact Hk].
      cbv beta. intros w [A B]. split; [exact A|]. apply Nat.ltb_lt. exact B.
Qed.

(** ** White space after improveText *)

Lemma ends_clean_last (x : jstr) :
  ends_clean x = true -> x <> [] /\ is_space (last x 0%N) = false.
Proof.
  destruct x as [|c x]; [discriminate|].
  unfold ends_clean. intros H. apply negb_true_iff in H.
  split; [discriminate|exact H].
Qed.

Lemma ends_clean_cons (c : char) (x : jstr) :
  x <> [] -> ends_clean (c :: x) = ends_clean x.
Proof. destruct x; [contradiction|reflexivity]. Qed.

Lemma ends_clean_app (x y : jstr) :
  y <> [] -> ends_clean (x ++ y) = ends_clean y.
Proof.
  intros Hy. induction x as [|c x IH]; [reflexivity|].
  cbn [app]. rewrite ends_clean_cons; [exact IH|].
  intros E. apply app_eq_nil in E. tauto.
Qed.

(** After a piece that ends cleanly the rest starts afresh. *)
Lemma single_spaced_app (x y : jstr) :
  ends_clean x = true ->
  forall b, single_spaced b (x ++ y) = single_spaced b x && single_spaced false y.
Proof.
  induction x as [|c x IH]; [discriminate|]. intros Hx b.
  destruct x as [|c' x].
  - unfold ends_clean in Hx. cbn [last] in Hx. apply negb_true_iff in Hx.
    cbn [app single_spaced]. rewrite Hx. reflexivity.
  - rewrite ends_clean_cons in Hx by discriminate.
    change ((c :: c' :: x) ++ y) with (c :: (c' :: x) ++ y).
    cbn [single_spaced]. destruct (is_space c).
    + rewrite (IH Hx true). rewrite !andb_assoc. reflexivity.
    + apply (IH Hx false).
Qed.

Lemma last_app_nonempty (x y : jstr) (d : char) :
  y <> [] -> last (x ++ y) d = last y d.
Proof.
  intros Hy. induction x as [|c x IH]; [reflexivity|].
  cbn [app]. destruct (x ++ y) eqn:E.
  - apply app_eq_nil in E. tauto.
  - exact IH.
Qed.

(** A replace whose matches and replacements end cleanly, and whose
    replacements are spaced as well as what they replace, keeps a text
    single-spaced and keeps its end clean. *)
Lemma Replaced_single_spaced (m : matcher) (f : jstr -> list (nat * jstr) -> jstr)
    (prev : option char) (s o : jstr) :
  (forall prev s fd, m prev s = Some fd ->
     ends_clean (firstn (span fd) s) = true
     /\ ends_clean (f (firstn (span fd) s) (groups fd)) = true
     /\ forall b, single_spaced b (firstn (span fd) s) = true ->
                  single_spaced b (f (firstn (span fd) s) (groups fd)) = true) ->
  Replaced m f prev s o ->
  (s = [] <-> o = [])
  /\ (forall b, single_spaced b s = true -> single_spaced b o = true)
  /\ (is_space (last s 0%N) = false -> is_space (last o 0%N) = false).
Proof.
  intros Hf H. induction H as [| prev fd E | prev c s o E _ IH
                              | prev c s o fd E Ek _ IH
                              | prev s o fd E Hp Hle _ IH].
  - repeat split; auto.
  - destruct (Hf _ _ _ E) as [A _]. rewrite firstn_nil in A. discriminate.
  - destruct IH as [I0 [I1 I2]]. split; [split; discriminate|]. split.
    + intros b. cbn [single_spaced]. destruct (is_space c).
      * intros H. apply andb_true_iff in H. destruct H as [H1 H2].
        rewrite H1. apply I1. exact H2.
      * apply I1.
    + destruct s as [|c' s].
      * rewrite (proj1 I0 eq_refl). auto.
      * intros H. destruct o as [|c'' o].
        -- exfalso. pose proof (proj2 I0 eq_refl). discriminate.
        -- exact (I2 H).
  - destruct (Hf _ _ _ E) as [A _]. rewrite Ek in A. discriminate.
  - destruct (Hf _ _ _ E) as [A [B C]]. destruct IH as [I0 [I1 I2]].
    set (w := firstn (span fd) s) in *.
    set (r := f w (groups fd)) in *.
    assert (Es : s = w ++ skipn (span fd) s)
      by (symmetry; apply firstn_skipn).
    split; [|split].
    + split.
      * intros ->. subst w. rewrite firstn_nil in A. discriminate.
      * intros Eo. apply app_eq_nil in Eo. destruct Eo as [Er _].
        rewrite Er in B. discriminate.
    + intros b H. rewrite Es, (single_spaced_app _ _ A) in H.
      apply andb_true_iff in H. destruct H as [H1 H2].
      rewrite (single_spaced_app _ _ B), (C b H1), (I1 false H2). reflexivity.
    + intros H. destruct o as [|c o].
      * rewrite app_nil_r. apply ends_clean_last. exact B.
      * rewrite last_app_nonempty by discriminate.
        apply I2. destruct (skipn (span fd) s) as [|c' s'] eqn:Ek.
        -- pose proof (proj1 I0 eq_refl). discriminate.
        -- rewrite Es in H. rewrite last_app_nonempty in H by discriminate.
           exact H.
Qed.

Lemma skipn_takeWhile (p : char -> bool) (s : jstr) :
  skipn (length (takeWhile p s)) s = dropWhile p s.
Proof.
  induction s as [|c s IH]; [reflexivity|].
  cbn [takeWhile dropWhile]. destruct (p c); [exact IH|reflexivity].
Qed.

(** Runs of white space replaced by one space each. *)
Lemma squeezed_single_spaced (prev : option char) (s o : jstr) :
  Replaced (exec fl_g (Plus (Cls is_space))) (fun _ _ => js " ") prev s o ->
  single_spaced false o = true
  /\ (starts_clean s = true -> single_spaced true o = true).
Proof.
  intros H. induction H as [| prev fd E | prev c s o E _ IH
                              | prev c s o fd E Ek _ IH
                              | prev s o fd E Hp Hle _ IH].
  - split; reflexivity.
  - rewrite exec_plus_cls in E. discriminate.
  - rewrite exec_plus_cls in E. unfold run_matcher in E.
    destruct (is_space c) eqn:Ec; [discriminate|].
    cbn [single_spaced]. rewrite Ec. split; [tauto|]. intros _. tauto.
  - rewrite exec_plus_cls in E. unfold run_matcher in E.
    destruct (is_space c); [|discriminate]. injection E as <-. discriminate.
  - rewrite exec_plus_cls in E. unfold run_matcher in E.
    destruct s as [|c s]; [discriminate|].
    destruct (is_space c) eqn:Ec; [|discriminate]. injection E as <-.
    cbn [span skipn] in IH. rewrite skipn_takeWhile in IH.
    destruct IH as [_ I]. specialize (I (starts_clean_dropWhile s)).
    split.
    + change (js " " ++ o) with (SPACE :: o). cbn [single_spaced].
      change (is_space SPACE) with true. cbv iota. rewrite I. reflexivity.
    + cbn [starts_clean]. rewrite Ec. discriminate.
Qed.
Lemma single_spaced_weaken (s : jstr) (b : bool) :
  single_spaced true s = true -> single_spaced b s = true.
Proof.
  destruct s as [|c s]; [reflexivity|].
  cbn [single_spaced]. destruct (is_space c); [|auto].
  rewrite andb_false_r. discriminate.
Qed.

Lemma single_spaced_dropWhile (s : jstr) :
  forall b b', single_spaced b s = true ->
               single_spaced b' (dropWhile is_space s) = true.
Proof.
  induction s as [|c s IH]; intros b b' H; [reflexivity|].
  cbn [dropWhile]. cbn [single_spaced] in H. destruct (is_space c) eqn:E.
  - apply andb_true_iff in H. destruct H as [_ H]. exact (IH true b' H).
  - cbn [single_spaced]. rewrite E. exact H.
Qed.

Lemma single_spaced_prefix (x z : jstr) :
  forall b, single_spaced b (x ++ z) = true -> single_spaced b x = true.
Proof.
  induction x as [|c x IH]; intros b H; [reflexivity|].
  cbn [app single_spaced] in *. destruct (is_space c).
  - apply andb_true_iff in H. destruct H as [H1 H2].
    rewrite H1. exact (IH true H2).
  - exact (IH false H).
Qed.

Lemma last_of_rev (x : jstr) :
  starts_clean (rev x) = true -> is_space (last x 0%N) = false.
Proof.
  induction x as [|a x _] using rev_ind; [reflexivity|].
  rewrite rev_app_distr. cbn [rev app starts_clean].
  rewrite last_last. apply negb_true_iff.
Qed.

(** Trimming a single-spaced text leaves it tidy. *)
Lemma trim_tidy (s : jstr) :
  single_spaced false s = true -> tidy (trim s) = true.
Proof.
  intros H. unfold tidy.
  rewrite (last_of_rev _ (starts_clean_rev_trim s)), andb_true_r.
  unfold trim.
  pose proof (single_spaced_dropWhile s false true H) as Hy.
  rewrite (strip_end (dropWhile is_space s)) in Hy.
  exact (single_spaced_prefix _ _ true Hy).
Qed.

Lemma pass_tidy (fl : flags) (r : regex) (f : jstr -> list (nat * jstr) -> jstr)
    (s : jstr) :
  (forall prev s fd, exec fl r prev s = Some fd ->
     ends_clean (firstn (span fd) s) = true
     /\ ends_clean (f (firstn (span fd) s) (groups fd)) = true
     /\ forall b, single_spaced b (firstn (span fd) s) = true ->
                  single_spaced b (f (firstn (span fd) s) (groups fd)) = true) ->
  tidy s = true -> tidy (replace_with fl r f s) = true.
Proof.
  intros Hf H. unfold tidy in *. apply andb_true_iff in H. destruct H as [H1 H2].
  apply negb_true_iff in H2.
  destruct (Replaced_single_spaced (exec fl r) f None s _ Hf
              (replace_with_Replaced fl r f s)) as [_ [I1 I2]].
  rewrite (I1 true H1), (I2 H2). reflexivity.
Qed.

Lemma forallb_last (q : char -> bool) (w : jstr) (d : char) :
  w <> [] -> forallb q w = true -> q (last w d) = true.
Proof.
  induction w as [|c w IH]; [contradiction|]. intros _ H.
  cbn [forallb] in H. apply andb_true_iff in H. destruct H as [Hc H].
  destruct w as [|c' w]; [exact Hc|]. apply IH; [discriminate|exact H].
Qed.

Lemma lang_star_lit (c : char) (w : jstr) :
  lang fl_g (Star (Lit c)) w -> forallb (N.eqb c) w = true.
Proof.
  intros H. remember (Star (Lit c)) as r eqn:Er.
  induction H as [| | | | | | |r0 w1 w2 H1 _ H2 IH2| | | |]; try discriminate.
  - reflexivity.
  - injection Er as ->. rewrite forallb_app, (IH2 eq_refl), andb_true_r.
    inversion H1 as [|c0 x Hx| | | | | | | | | |]; subst.
    cbn [forallb]. unfold char_eq in Hx. cbn [ignoreCase fl_g] in Hx.
    rewrite Hx. reflexivity.
Qed.

Lemma lang_plus_lit_all (c : char) (w : jstr) :
  lang fl_g (Plus (Lit c)) w -> w <> [] /\ forallb (N.eqb c) w = true.
Proof.
  intros H. unfold Plus in H.
  inversion H as [| | |r1 r2 w1 w2 H1 H2| | | | | | | |]; subst.
  inversion H1 as [|c0 x Hx| | | | | | | | | |]; subst.
  split; [discriminate|]. cbn [app forallb].
  unfold char_eq in Hx. cbn [ignoreCase fl_g] in Hx.
  rewrite Hx, (lang_star_lit _ _ H2). reflexivity.
Qed.

Lemma pass_spaced (fl : flags) (r : regex) (f : jstr -> list (nat * jstr) -> jstr)
    (s : jstr) (b : bool) :
  (forall prev s fd, exec fl r prev s = Some fd ->
     ends_clean (firstn (span fd) s) = true
     /\ ends_clean (f (firstn (span fd) s) (groups fd)) = true
     /\ forall b, single_spaced b (firstn (span fd) s) = true ->
                  single_spaced b (f (firstn (span fd) s) (groups fd)) = true) ->
  single_spaced b s = true -> single_spaced b (replace_with fl r f s) = true.
Proof.
  intros Hf H.
  destruct (Replaced_single_spaced (exec fl r) f None s _ Hf
              (replace_with_Replaced fl r f s)) as [_ [I1 _]].
  exact (I1 b H).
Qed.

(** Squeezing runs of a mark keeps a text single-spaced. *)
Lemma squeeze_mark_spaced (c : char) (s : jstr) :
  is_space c = false ->
  single_spaced false s = true ->
  single_spaced false (replace_all fl_g (Plus (Lit c)) [c] s) = true.
Proof.
  intros Hc. unfold replace_all. apply pass_spaced.
  intros prev s0 fd E.
  destruct (lang_plus_lit_all c _ (exec_lang _ _ _ _ _ E)) as [Hn Ha].
  split; [|split].
  - destruct (firstn (span fd) s0) as [|a w] eqn:Ew; [contradiction|].
    unfold ends_clean.
    pose proof (forallb_last (N.eqb c) (a :: w) 0%N Hn Ha) as Hl.
    apply N.eqb_eq in Hl. rewrite <- Hl, Hc. reflexivity.
  - unfold ends_clean. cbn [last]. rewrite Hc. reflexivity.
  - intros b _. cbn [single_spaced]. rewrite Hc. reflexivity.
Qed.
(** A word replaced by a tidy text. *)
Lemma word_pass_tidy (p : string) (by_ s : jstr) :
  ends_clean (js p) = true ->
  tidy by_ = true -> by_ <> [] ->
  tidy s = true -> tidy (replace_all fl_g (wordre p) by_ s) = true.
Proof.
  intros Hp Hb Hn. unfold replace_all. apply pass_tidy.
  intros prev s0 fd E.
  pose proof (exec_lang _ _ _ _ _ E) as L. unfold wordre in L.
  apply lang_bounded in L. unfold text in L. apply lang_lits_exact in L.
  rewrite L. unfold tidy in Hb. apply andb_true_iff in Hb. destruct Hb as [B1 B2].
  split; [exact Hp|]. split.
  - destruct by_; [contradiction|]. exact B2.
  - intros b _. apply single_spaced_weaken. exact B1.
Qed.

Lemma lang_two_words (a b : jstr) (p : char -> bool) (w : jstr) :
  lang fl_g (Seq Bnd (Seq (lits a) (Seq (Plus (Cls p)) (Seq (lits b) Bnd)))) w ->
  exists sp, w = a ++ sp ++ b.
Proof.
  intros H.
  inversion H as [| | |r1 r2 w1 w2 H1 H2| | | | | | | |]; subst.
  inversion H1; subst.
  inversion H2 as [| | |r1 r2 w3 w4 H3 H4| | | | | | | |]; subst.
  inversion H4 as [| | |r1 r2 w5 w6 H5 H6| | | | | | | |]; subst.
  inversion H6 as [| | |r1 r2 w7 w8 H7 H8| | | | | | | |]; subst.
  inversion H8; subst.
  apply lang_lits_exact in H3. apply lang_lits_exact in H7. subst.
  exists w5. rewrite app_nil_r. reflexivity.
Qed.

(** Two words with white space between them replaced by a tidy text. *)
Lemma two_word_pass_tidy (a b : string) (by_ s : jstr) :
  ends_clean (js b) = true ->
  tidy by_ = true -> by_ <> [] ->
  tidy s = true ->
  tidy (replace_all fl_g
          (Seq Bnd (Seq (text a) (Seq (Plus (Cls is_space)) (Seq (text b) Bnd))))
          by_ s) = true.
Proof.
  intros Hp Hb Hn. unfold replace_all. apply pass_tidy.
  intros prev s0 fd E.
  pose proof (exec_lang _ _ _ _ _ E) as L. unfold text in L.
  destruct (lang_two_words _ _ _ _ L) as [sp ->].
  unfold tidy in Hb. apply andb_true_iff in Hb. destruct Hb as [B1 B2].
  split; [|split].
  - rewrite app_assoc. rewrite ends_clean_app; [exact Hp|].
    intros Eb. rewrite Eb in Hp. discriminate.
  - destruct by_; [contradiction|]. exact B2.
  - intros b0 _. apply single_spaced_weaken. exact B1.
Qed.

(** What a pattern of two groups, the second of one unit, reports. *)
Lemma exec_two_groups (fl : flags) (A : regex) (p : char -> bool)
    (prev : option char) (s : jstr) (fd : found) :
  exec fl (Seq (Grp 1 A) (Grp 2 (Cls p))) prev s = Some fd ->
  exists w1 x,
    p x = true
    /\ firstn (span fd) s = w1 ++ [x]
    /\ group 1 (groups fd) = w1
    /\ group 2 (groups fd) = [x].
Proof.
  unfold exec. rewrite rmatch_Seq.
  destruct (rmatch fl (Grp 1 A) _ _) as [st|] eqn:E; [|discriminate].
  intros H. injection H as <-. cbn [groups span].
  cbn [rmatch] in E.
  destruct (rmatch_sound fl (fun _ _ => True) _ A (groups_in_trivial fl A) _ _ _ E)
    as [st1 [w1 [E1 [_ [_ K]]]]].
  cbn [rest] in E1. unfold set_cap at 1 in K. cbn [rest] in K.
  destruct (rest st1) as [|x s'] eqn:Er; [discriminate|].
  destruct (p x) eqn:Ex; [|discriminate]. injection K as <-.
  exists w1, x. unfold set_cap, step. cbn [caps group rest Nat.eqb].
  rewrite E1, Er, !length_app. cbn [length].
  replace (length w1 + S (length s') - length s') with (length w1 + 1) by lia.
  replace (length w1 + S (length s') - S (length s')) with (length w1) by lia.
  replace (S (length s') - length s') with 1 by lia.
  split; [exact Ex|]. split; [|split].
  - change (x :: s') with ([x] ++ s'). rewrite app_assoc.
    replace (length w1 + 1) with (length (w1 ++ [x]))
      by (rewrite length_app; reflexivity).
    rewrite firstn_app, Nat.sub_diag, firstn_all. cbn [firstn].
    rewrite app_nil_r. reflexivity.
  - rewrite firstn_app, Nat.sub_diag, firstn_all. cbn [firstn].
    rewrite app_nil_r. reflexivity.
  - reflexivity.
Qed.

Lemma lower_not_space (x : char) :
  is_lower_az x = true ->
  is_space x = false /\ is_space (upper_char x) = false.
Proof.
  unfold is_lower_az, upper_char, canon, is_lower_az, in_range. intros H.
  rewrite H. apply andb_true_iff in H. destruct H as [H1 H2].
  apply N.leb_le in H1. apply N.leb_le in H2.
  unfold is_space, in_range.
  split;
    repeat match goal with
           | |- context [N.leb ?a ?b] =>
               destruct (N.leb_spec a b); try lia; cbn [andb orb]
           | |- context [N.eqb ?a ?b] =>
               destruct (N.eqb_spec a b); try lia; cbn [andb orb]
           end; reflexivity.
Qed.

Lemma single_spaced_last_unit (w : jstr) (x y : char) :
  is_space x = false -> is_space y = false ->
  forall b, single_spaced b (w ++ [x]) = true ->
            single_spaced b (w ++ [y]) = true.
Proof.
  intros Hx Hy. induction w as [|c w IH]; intros b H.
  - cbn [app single_spaced]. rewrite Hy. reflexivity.
  - cbn [app single_spaced] in *. destruct (is_space c).
    + apply andb_true_iff in H. destruct H as [H1 H2].
      rewrite H1. exact (IH true H2).
    + exact (IH false H).
Qed.

(** The first letter of a sentence turned to upper case. *)
Lemma capitalise_tidy (s : jstr) :
  tidy s = true ->
  tidy (replace_with fl_g
          (Seq (Grp 1 (Alt Bol (Seq (Cls is_term) (Plus (Cls is_space)))))
               (Grp 2 (Cls is_lower_az)))
          (fun _ g => group 1 g ++ toUpperCase_ascii (group 2 g)) s) = true.
Proof.
  apply pass_tidy. intros prev s0 fd E. cbv beta.
  destruct (exec_two_groups _ _ _ _ _ _ E) as [w1 [x [Hx [-> [-> ->]]]]].
  destruct (lower_not_space x Hx) as [S1 S2].
  cbn [toUpperCase_ascii map]. split; [|split].
  - rewrite ends_clean_app by discriminate. unfold ends_clean. cbn [last].
    rewrite S1. reflexivity.
  - rewrite ends_clean_app by discriminate. unfold ends_clean. cbn [last].
    rewrite S2. reflexivity.
  - apply single_spaced_last_unit; assumption.
Qed.

(** The text [improveText] trims is single-spaced. *)
Lemma improve_squeezed (t : jstr) :
  single_spaced false
    (replace_all fl_g (Plus (Lit (chr ","))) (js ",")
       (replace_all fl_g (Plus (Lit (chr "!"))) (js "!")
          (replace_all fl_g (Plus (Lit (chr "?"))) (js "?")
             (replace_all fl_g (Plus (Lit (chr "."))) (js ".")
                (replace_all fl_g (Plus (Cls is_space)) (js " ")
                   (replace_all fl_g (wordre "i") (js "I") t)))))) = true.
Proof.
  repeat (apply squeeze_mark_spaced; [reflexivity|]).
  unfold replace_all at 1.
  exact (proj1 (squeezed_single_spaced None _ _
                  (replace_with_Replaced fl_g (Plus (Cls is_space))
                     (fun _ _ => js " ") _))).
Qed.

Lemma improveText_is_tidy (t : jstr) : tidy (improveText t) = true.
Proof.
  destruct t as [|c0 t0]; [reflexivity|]. set (t := c0 :: t0).
  unfold improveText. fold t.
  apply two_word_pass_tidy; [reflexivity|reflexivity|discriminate|].
  apply two_word_pass_tidy; [reflexivity|reflexivity|discriminate|].
  apply two_word_pass_tidy; [reflexivity|reflexivity|discriminate|].
  apply word_pass_tidy; [reflexivity|reflexivity|discriminate|].
  apply word_pass_tidy; [reflexivity|reflexivity|discriminate|].
  apply capitalise_tidy. apply trim_tidy. apply improve_squeezed.
Qed.

(** X21: whatever it is given, [improveText] returns a text whose white
    space is single spaces only, none next to another and none at
    either end: tabs, line breaks and runs of blanks are gone. *)
Theorem X21_improveText_normalises_white_space (t : jstr) :
  single_spaced true (improveText t) = true
  /\ is_space (last (improveText t) 0%N) = false
  /\ starts_clean (improveText t) = true.
Proof.
  pose proof (improveText_is_tidy t) as H. unfold tidy in H.
  apply andb_true_iff in H. destruct H as [H1 H2]. apply negb_true_iff in H2.
  split; [exact H1|]. split; [exact H2|].
  destruct (improveText t) as [|c s]; [reflexivity|].
  cbn [single_spaced starts_clean] in *. destruct (is_space c); [|reflexivity].
  rewrite andb_false_r in H1. discriminate.
Qed.

(** ** formatDocument on a plain line *)

(** A replace whose pattern matches nowhere returns the text. *)
Lemma replace_go_no_match (m : matcher) (f : jstr -> list (nat * jstr) -> jstr)
    (s : jstr) :
  forall prev,
    (forall a b, s = a ++ b -> m (before_after prev a) b = None) ->
    replace_go m f 0 prev s = s.
Proof.
  induction s as [|c s IH]; intros prev H.
  - pose proof (H [] [] eq_refl) as E0. change (m prev [] = None) in E0.
    cbn [replace_go]. rewrite E0. reflexivity.
  - pose proof (H [] (c :: s) eq_refl) as E0.
    change (m prev (c :: s) = None) in E0.
    cbn [replace_go]. rewrite E0. f_equal.
    apply IH. intros a b E. rewrite <- (before_after_cons prev c a).
    apply H. rewrite E. reflexivity.
Qed.

Lemma before_after_in (a : jstr) :
  forall prev c, before_after prev a = Some c -> prev = Some c \/ In c a.
Proof.
  induction a as [|x a IH]; intros prev c H; [left; exact H|].
  rewrite before_after_cons in H. destruct (IH _ _ H) as [E|E].
  - injection E as ->. right. left. reflexivity.
  - right. right. exact E.
Qed.

Lemma exec_seq_lit_none (c : char) (r : regex) (prev : option char) (b : jstr) :
  match b with [] => true | x :: _ => negb (N.eqb c x) end = true ->
  exec fl_g (Seq (Lit c) r) prev b = None.
Proof.
  intros H. unfold exec. rewrite rmatch_Seq. cbn [rmatch rest].
  destruct b as [|x b]; [reflexivity|].
  unfold char_eq. cbn [ignoreCase fl_g]. apply negb_true_iff in H.
  rewrite H. reflexivity.
Qed.

Lemma none_of_suffix (p : char -> bool) (a b : jstr) :
  none_of p (a ++ b) = true ->
  match b with [] => true | x :: _ => negb (p x) end = true.
Proof.
  rewrite none_of_app. intros H. apply andb_true_iff in H. destruct H as [_ H].
  destruct b as [|x b]; [reflexivity|].
  cbn [none_of forallb] in H. apply andb_true_iff in H. tauto.
Qed.

Lemma replace_lit_led_id (c : char) (r : regex)
    (f : jstr -> list (nat * jstr) -> jstr) (t : jstr) :
  none_of (N.eqb c) t = true ->
  replace_with fl_g (Seq (Lit c) r) f t = t.
Proof.
  intros H. unfold replace_with. apply replace_go_no_match.
  intros a b E. apply exec_seq_lit_none. rewrite E in H.
  exact (none_of_suffix _ _ _ H).
Qed.

Lemma none_of_weaken (p q : char -> bool) (t : jstr) :
  (forall c, q c = true -> p c = true) ->
  none_of p t = true -> none_of q t = true.
Proof.
  intros Hi. unfold none_of. apply forallb_impl.
  intros c Hc. destruct (q c) eqn:E; [|reflexivity].
  rewrite (Hi c E) in Hc. discriminate.
Qed.

(** The list pass finds no marker on a plain line. *)
Lemma bullets_id (f : jstr -> list (nat * jstr) -> jstr) (t : jstr) :
  plain_line t = true ->
  replace_with fl_gm
    (Seq Bol (Seq (Grp 1 (Alt (Lit (chr "-")) (Lit (chr "*"))))
       (Seq (Star (Cls is_space)) (Seq (Grp 2 (Plus dot)) Eol)))) f t = t.
Proof.
  intros H. unfold plain_line in H. apply andb_true_iff in H.
  destruct H as [Hn Hh].
  unfold replace_with. apply replace_go_no_match. intros a b E.
  unfold exec. rewrite rmatch_Seq. cbn [rmatch before rest].
  destruct (before_after None a) as [c|] eqn:Ea.
  - destruct (before_after_in a None c Ea) as [D|Hin]; [discriminate|].
    assert (Hc : is_line_term c = false).
    { rewrite E in Hn. rewrite none_of_app in Hn.
      apply andb_true_iff in Hn. destruct Hn as [Hn _].
      unfold none_of in Hn.
      pose proof (proj1 (forallb_forall _ _) Hn c Hin) as Hc.
      apply negb_true_iff in Hc. apply orb_false_iff in Hc. tauto. }
    cbn [multiline fl_gm andb]. rewrite Hc. reflexivity.
  - destruct a as [|x a].
    + cbn [app] in E. subst b. destruct t as [|c t]; [discriminate|].
      apply negb_true_iff in Hh. apply orb_false_iff in Hh.
      destruct Hh as [H1 H2]. unfold char_eq. cbn [ignoreCase fl_gm].
      rewrite (N.eqb_sym (chr "-") c), H1, (N.eqb_sym (chr "*") c), H2.
      reflexivity.
    + exfalso. rewrite before_after_cons in Ea.
      clear -Ea. revert x Ea. induction a as [|y a IH]; intros x Ea.
      * discriminate.
      * rewrite before_after_cons in Ea. exact (IH y Ea).
Qed.

Lemma split_go_char_none (p : char -> bool) (s : jstr) :
  forall cur prev,
    none_of p s = true ->
    split_go (char_matcher p) 0 cur prev s = [rev cur ++ s].
Proof.
  induction s as [|c s IH]; intros cur prev H.
  - cbn [split_go]. rewrite app_nil_r. reflexivity.
  - cbn [none_of forallb] in H. apply andb_true_iff in H. destruct H as [Hc H].
    apply negb_true_iff in Hc. cbn [split_go char_matcher]. rewrite Hc.
    rewrite (IH (c :: cur) (Some c) H). cbn [rev]. rewrite <- app_assoc.
    reflexivity.
Qed.

Lemma split_str_one_line (c : char) (s : jstr) :
  s <> [] -> none_of (N.eqb c) s = true -> split_str [c] s = [s].
Proof.
  intros Hs H. unfold split_str, split_re.
  rewrite (split_by_ext _ (char_matcher (N.eqb c)) s (exec_one_lit c)).
  destruct s as [|x s]; [contradiction|].
  unfold split_by. apply (split_go_char_none (N.eqb c) (x :: s) [] None H).
Qed.

Lemma includes_unit_none (c : char) (s : jstr) :
  none_of (N.eqb c) s = true -> includes s [c] = false.
Proof.
  induction s as [|x s IH]; intros H; [reflexivity|].
  cbn [none_of forallb] in H. apply andb_true_iff in H. destruct H as [Hx H].
  apply negb_true_iff in Hx.
  cbn [includes starts_with]. rewrite Hx. cbn [andb orb]. exact (IH H).
Qed.

(** On a plain line shorter than 60 units [formatDocument] only puts
    the title mark in front. *)
Lemma formatDocument_plain (t : jstr) :
  plain_line t = true -> length t < 60 ->
  formatDocument t = js "# " ++ t.
Proof.
  intros Hp Hl. pose proof Hp as Hp'. unfold plain_line in Hp'.
  apply andb_true_iff in Hp'. destruct Hp' as [Hn Hh].
  assert (Hdot : none_of (N.eqb (chr ".")) t = true).
  { revert Hn. apply none_of_weaken. intros c E.
    rewrite N.eqb_sym in E. rewrite E. reflexivity. }
  assert (Hlf : none_of (N.eqb LF) t = true).
  { revert Hn. apply none_of_weaken. intros c E.
    apply N.eqb_eq in E. subst c. reflexivity. }
  destruct t as [|c0 t0]; [discriminate|]. set (t := c0 :: t0) in *.
  unfold formatDocument. fold t.
  rewrite (replace_lit_led_id (chr ".") _ _ t Hdot).
  unfold replace_all. rewrite (replace_lit_led_id LF _ _ t Hlf).
  rewrite (bullets_id _ t Hp).
  rewrite (split_str_one_line LF t) by (try discriminate; exact Hlf).
  change (js ".") with [chr "."]. rewrite (includes_unit_none _ _ Hdot).
  apply Nat.ltb_lt in Hl. rewrite Hl. reflexivity.
Qed.

(** X22: formatting is not idempotent: on a plain line (no period, no
    line terminator, no list marker in front) the title mark is put in
    front each time the text is formatted, so that two format requests
    in a row leave two marks. *)
Theorem X22_formatDocument_stacks_title_marks (t : jstr) :
  plain_line t = true ->
  length t < 58 ->
  formatDocument t = js "# " ++ t
  /\ formatDocument (formatDocument t) = js "# # " ++ t.
Proof.
  intros Hp Hl.
  assert (E : formatDocument t = js "# " ++ t)
    by (apply formatDocument_plain; [exact Hp|lia]).
  split; [exact E|]. rewrite E.
  rewrite formatDocument_plain; [reflexivity| |cbn [length app js]; simpl; lia].
  unfold plain_line in *. apply andb_true_iff in Hp. destruct Hp as [Hn _].
  change (js "# " ++ t) with (chr "#" :: chr " " :: t).
  cbn [none_of forallb] in *. unfold none_of in Hn. rewrite Hn. reflexivity.
Qed.

Lemma X22_witness :
  formatDocument (formatDocument (js "Meeting notes")) = js "# # Meeting notes".
Proof.
  destruct (X22_formatDocument_stacks_title_marks (js "Meeting notes"))
    as [_ E].
  - reflexivity.
  - vm_compute. lia.
  - exact E.
Defined.
